(** * Work clustering and presentation core of [model.py]

    A shallow embedding of the parts of [model.py] that decide how
    LicensePools are grouped into Works, how the open-access champion of
    a Work is chosen, how measurements are folded into a quality score,
    and how a Work's presentation is recomputed.

    Conventions.
    - Python floats are modelled as exact rationals ([Q]); equality of
      scores is [Qeq].
    - Code that only reads returns a [result]: a value or a Python
      exception.  Code that writes is a state transformer [M] whose
      outcome is a value, an exception together with the store at the
      moment of the raise, or [Exhausted] when the fuel given to a
      recursive call chain has run out.
    - Database tables are lists indexed by primary key; a SQLAlchemy
      relationship with a backref is kept consistent on both sides by
      the helper that assigns it. *)

From stdpp Require Import base list strings option gmap.
From Stdlib Require Import Ascii String ZArith QArith Lia.

Local Open Scope string_scope.

(** ** Exceptions and effects *)

Inductive exn : Type :=
| AttributeError
| TypeError
| ValueError
| UnboundLocalError.

(** The result of code that reads but does not write. *)
Inductive result (A : Type) : Type :=
| Ok (a : A)
| Raise (e : exn).

Arguments Ok {A} a.
Arguments Raise {A} e.

Definition rbind {A B : Type} (m : result A) (k : A -> result B) : result B :=
  match m with
  | Ok a => k a
  | Raise e => Raise e
  end.

Notation "'let*' x ':=' m 'in' k" := (rbind m (fun x => k))
  (at level 10, x name, m at level 100, k at level 200).

(** A Python [for] loop whose body may raise: the accumulator is
    threaded through the elements from left to right. *)
Fixpoint for_each {A S : Type} (body : A -> S -> result S) (l : list A) (s : S)
  : result S :=
  match l with
  | [] => Ok s
  | x :: l' => let* s' := body x s in for_each body l' s'
  end.

(** Code that writes to the store: a state transformer whose outcome is
    a value, an exception, or the exhaustion of the fuel given to a
    recursive call chain.  The store that comes with an exception is the
    one at the moment of the [raise]. *)
Inductive outcome (A : Type) : Type :=
| Return (a : A)
| Raised (e : exn)
| Exhausted.

Arguments Return {A} a.
Arguments Raised {A} e.
Arguments Exhausted {A}.

Definition M (S A : Type) : Type := S -> outcome A * S.

Definition ret {S A : Type} (a : A) : M S A := fun s => (Return a, s).

Definition raise {S A : Type} (e : exn) : M S A := fun s => (Raised e, s).

Definition exhausted {S A : Type} : M S A := fun s => (Exhausted, s).

Definition bind {S A B : Type} (m : M S A) (k : A -> M S B) : M S B :=
  fun s =>
    match m s with
    | (Return a, s') => k a s'
    | (Raised e, s') => (Raised e, s')
    | (Exhausted, s') => (Exhausted, s')
    end.

Definition get {S : Type} : M S S := fun s => (Return s, s).

Definition modify {S : Type} (f : S -> S) : M S unit :=
  fun s => (Return tt, f s).

(** A read that may raise, run against the current store. *)
Definition lift {S A : Type} (r : S -> result A) : M S A :=
  fun s =>
    match r s with
    | Ok a => (Return a, s)
    | Raise e => (Raised e, s)
    end.

Notation "'do' x <- m ; k" := (bind m (fun x => k))
  (at level 10, x name, m at level 100, k at level 200).
Notation "'do' ' p <- m ; k" := (bind m (fun '(p) => k))
  (at level 10, p pattern, m at level 100, k at level 200).
Notation "'run' m ; k" := (bind m (fun _ => k))
  (at level 10, m at level 100, k at level 200).

(** A [for] loop over a list fixed before the loop starts. *)
Fixpoint for_ {S A : Type} (l : list A) (body : A -> M S unit) : M S unit :=
  match l with
  | [] => ret tt
  | x :: l' => run body x; for_ l' body
  end.

(** The same with a loop-carried variable. *)
Fixpoint fold_ {S A B : Type} (l : list A) (body : A -> B -> M S B) (b : B)
  : M S B :=
  match l with
  | [] => ret b
  | x :: l' => do b' <- body x b; fold_ l' body b'
  end.

(** ** Data sources *)

Module DataSource.
Definition GUTENBERG := "Gutenberg".
Definition OVERDRIVE := "Overdrive".
Definition PROJECT_GITENBERG := "Project GITenberg".
Definition STANDARD_EBOOKS := "Standard Ebooks".
Definition UNGLUE_IT := "unglue.it".
Definition BIBLIOTHECA := "Bibliotheca".
Definition AMAZON := "Amazon".
Definition AXIS_360 := "Axis 360".
Definition CONTENT_CAFE := "Content Cafe".
Definition GUTENBERG_EPUB_GENERATOR := "Project Gutenberg EPUB Generator".
Definition METADATA_WRANGLER := "Library Simplified metadata wrangler".
Definition NOVELIST := "NoveList Select".
Definition LIBRARY_STAFF := "Library staff".
Definition PLYMPTON := "Plympton".
Definition THETA := "Theta".
Definition THREEM := BIBLIOTHECA.

(** Ascending order of priority. *)
Definition OPEN_ACCESS_SOURCE_PRIORITY : list string :=
  [ UNGLUE_IT; GUTENBERG; GUTENBERG_EPUB_GENERATOR; PROJECT_GITENBERG;
    PLYMPTON; STANDARD_EBOOKS ].
End DataSource.

(** [list.index], as a position or [None] where Python raises
    [ValueError]. *)
Fixpoint list_index (x : string) (l : list string) : option nat :=
  match l with
  | [] => None
  | y :: l' => if String.eqb y x then Some 0%nat
               else option_map S (list_index x l')
  end.

(** Python's [in] on a dict given as an association list, and its
    lookup. *)
Fixpoint assoc_get {V : Type} (k : string) (d : list (string * V)) : option V :=
  match d with
  | [] => None
  | (k', v) :: d' => if String.eqb k' k then Some v else assoc_get k d'
  end.

(** ** Quality aggregation ([Measurement]) *)

Module Measurement.

Definition POPULARITY := "http://librarysimplified.org/terms/rel/popularity".
Definition QUALITY := "http://librarysimplified.org/terms/rel/quality".
Definition RATING := "http://schema.org/ratingValue".
Definition DOWNLOADS := "https://schema.org/UserDownloads".

Definition OVERDRIVE_POPULARITY : list Z :=
[ 1; 1; 1; 2; 2; 2; 3; 3; 4; 4; 5; 5;
  6; 6; 7; 7; 8; 9; 9; 10; 10; 11; 12; 13;
  14; 15; 15; 16; 18; 19; 20; 21; 22; 24; 25; 26;
  28; 30; 31; 33; 35; 37; 39; 41; 43; 46; 48; 51;
  53; 56; 59; 63; 66; 70; 74; 78; 82; 87; 92; 97;
  102; 108; 115; 121; 128; 135; 142; 150; 159; 168; 179; 190;
  202; 216; 230; 245; 260; 277; 297; 319; 346; 372; 402; 436;
  478; 521; 575; 632; 702; 777; 861; 965; 1100; 1248; 1428; 1665;
  2020; 2560; 3535; 5805 ]%Z.

Definition AMAZON_POPULARITY : list Z :=
[ 14937330; 1974074; 1702163; 1553600; 1432635; 1327323; 1251089; 1184878; 1131998; 1075720; 1024272; 978514;
  937726; 898606; 868506; 837523; 799879; 770211; 743194; 718052; 693932; 668030; 647121; 627642;
  609399; 591843; 575970; 559942; 540713; 524397; 511183; 497576; 483884; 470850; 458438; 444475;
  432528; 420088; 408785; 398420; 387895; 377244; 366837; 355406; 344288; 333747; 324280; 315002;
  305918; 296420; 288522; 279185; 270824; 262801; 253865; 246224; 238239; 230537; 222611; 215989;
  208641; 202597; 195817; 188939; 181095; 173967; 166058; 160032; 153526; 146706; 139981; 133348;
  126689; 119201; 112447; 106795; 101250; 96534; 91052; 85837; 80619; 75292; 69957; 65075;
  59901; 55616; 51624; 47598; 43645; 39403; 35645; 31795; 27990; 24496; 20780; 17740;
  14102; 10498; 7090; 3861 ]%Z.

Definition CONTENT_CAFE_POPULARITY : list Z :=
[ 0; 1; 1; 1; 1; 1; 1; 1; 1; 1; 1; 1;
  1; 1; 1; 1; 1; 1; 1; 1; 1; 1; 1; 1;
  1; 1; 1; 1; 1; 1; 1; 1; 1; 1; 1; 1;
  1; 1; 1; 1; 1; 1; 1; 1; 1; 1; 1; 1;
  2; 2; 2; 2; 2; 2; 2; 2; 2; 2; 2; 2;
  2; 2; 2; 2; 2; 2; 2; 2; 3; 3; 3; 3;
  3; 3; 3; 3; 3; 4; 4; 4; 4; 4; 4; 5;
  5; 5; 5; 6; 6; 7; 8; 9; 10; 11; 14; 18;
  25; 41; 125; 387 ]%Z.

Definition GUTENBERG_DOWNLOADS : list Z :=
[ 0; 1; 2; 3; 4; 5; 5; 6; 7; 7; 8; 8;
  9; 9; 10; 10; 11; 12; 12; 12; 13; 14; 14; 15;
  15; 16; 16; 17; 18; 18; 19; 19; 20; 21; 21; 22;
  23; 23; 24; 25; 26; 27; 28; 28; 29; 30; 32; 33;
  34; 35; 36; 37; 38; 40; 41; 43; 45; 46; 48; 50;
  52; 55; 57; 60; 62; 65; 69; 72; 76; 79; 83; 87;
  93; 99; 106; 114; 122; 130; 140; 152; 163; 179; 197; 220;
  251; 281; 317; 367; 432; 501; 597; 658; 718; 801; 939; 1065;
  1286; 1668; 2291; 4139 ]%Z.

Definition POPULARITY_PERCENTILES : list (string * list Z) :=
  [ (DataSource.OVERDRIVE, OVERDRIVE_POPULARITY);
    (DataSource.AMAZON, AMAZON_POPULARITY);
    (DataSource.CONTENT_CAFE, CONTENT_CAFE_POPULARITY) ].

Definition DOWNLOAD_PERCENTILES : list (string * list Z) :=
  [ (DataSource.GUTENBERG, GUTENBERG_DOWNLOADS) ].

Definition RATING_SCALES : list (string * (Z * Z)) :=
  [ (DataSource.OVERDRIVE, (1, 5)%Z);
    (DataSource.AMAZON, (1, 5)%Z);
    (DataSource.UNGLUE_IT, (1, 5)%Z);
    (DataSource.NOVELIST, (0, 5)%Z) ].

(** One row of the [measurements] table.  [value] and
    [_normalized_value] are nullable columns. *)
Record t : Type := {
  quantity_measured : string;
  data_source_name : string;
  value : option Q;
  _normalized_value : option Q;
  weight : Q
}.

(** Python truthiness of a nullable float: neither [None] nor zero. *)
Definition truthy (v : option Q) : bool :=
  match v with
  | Some q => negb (Qeq_bool q 0)
  | None => false
  end.

Definition Qlt_bool (a b : Q) : bool := negb (Qle_bool b a).

(** [bisect.bisect_left]: the binary search itself, so that the
    result on a table that is not ascending is the one Python gives. *)
Fixpoint bisect_loop (fuel : nat) (a : list Z) (x : Q) (lo hi : nat) : nat :=
  match fuel with
  | O => lo
  | S fuel' =>
      if (lo <? hi)%nat then
        let mid := ((lo + hi) / 2)%nat in
        match a !! mid with
        | Some v =>
            if Qlt_bool (inject_Z v) x
            then bisect_loop fuel' a x (S mid) hi
            else bisect_loop fuel' a x lo mid
        | None => lo
        end
      else lo
  end.

Definition bisect_left (a : list Z) (x : Q) : nat :=
  bisect_loop (S (List.length a)) a x 0 (List.length a).

Definition percentile (d : list Z) (x : Q) : Q :=
  inject_Z (Z.of_nat (bisect_left d x)) * (1 # 100).

(** The [normalized_value] property: the value it returns, together
    with the measurement whose cached column it may have filled in. *)
Definition normalized_value (m : t) : t * option Q :=
  let cache (v : Q) :=
    ({| quantity_measured := quantity_measured m;
        data_source_name := data_source_name m;
        value := value m;
        _normalized_value := Some v;
        weight := weight m |}, Some v) in
  if truthy (_normalized_value m) then (m, _normalized_value m)
  else match value m with
  | None => (m, None)
  | Some x =>
    if Qeq_bool x 0 then (m, None)
    else
    match (if String.eqb (quantity_measured m) POPULARITY
           then assoc_get (data_source_name m) POPULARITY_PERCENTILES
           else None) with
    | Some d => cache (percentile d x)
    | None =>
    match (if String.eqb (quantity_measured m) DOWNLOADS
           then assoc_get (data_source_name m) DOWNLOAD_PERCENTILES
           else None) with
    | Some d => cache (percentile d x)
    | None =>
    match (if String.eqb (quantity_measured m) RATING
           then assoc_get (data_source_name m) RATING_SCALES
           else None) with
    | Some (scale_min, scale_max) =>
        let width := inject_Z (scale_max - scale_min) in
        cache ((x - inject_Z scale_min) / width)
    | None =>
        if String.eqb (data_source_name m) DataSource.METADATA_WRANGLER
        then cache x
        else (m, _normalized_value m)
    end end end
  end.

(** [_average_normalized_value]: the loop and its two accumulators. *)
Fixpoint average_loop (ms : list t) (num_measurements measurement_total : Q)
  : Q * Q :=
  match ms with
  | [] => (num_measurements, measurement_total)
  | m :: ms' =>
      match snd (normalized_value m) with
      | None => average_loop ms' num_measurements measurement_total
      | Some v =>
          average_loop ms' (num_measurements + weight m)
                       (measurement_total + v * weight m)
      end
  end.

Definition _average_normalized_value (ms : list t) : option Q :=
  let '(num_measurements, measurement_total) := average_loop ms 0 0 in
  if negb (Qeq_bool num_measurements 0)
  then Some (measurement_total / num_measurements)
  else None.

Definition is_popularity (m : t) : bool :=
  String.eqb (quantity_measured m) POPULARITY
  || String.eqb (quantity_measured m) DOWNLOADS.
Definition is_rating (m : t) : bool :=
  negb (is_popularity m) && String.eqb (quantity_measured m) RATING.
Definition is_quality (m : t) : bool :=
  negb (is_popularity m) && negb (String.eqb (quantity_measured m) RATING)
  && String.eqb (quantity_measured m) QUALITY.

(** [overall_quality].  The first loop sorts the measurements into
    three lists, keeping their order.  After the four early returns at
    least two of the three averages are present, so the [None] arms of
    [final] are the Python [TypeError] of arithmetic on [None]. *)
Definition overall_quality (measurements : list t)
    (popularity_weight rating_weight default_value : Q) : result Q :=
  if negb (Qeq_bool (popularity_weight + rating_weight) 1)
  then Raise ValueError
  else
    let popularities := List.filter is_popularity measurements in
    let ratings := List.filter is_rating measurements in
    let qualities := List.filter is_quality measurements in
    let popularity := _average_normalized_value popularities in
    let rating := _average_normalized_value ratings in
    let quality := _average_normalized_value qualities in
    match popularity, rating, quality with
    | None, None, None => Ok default_value
    | Some p, None, None => Ok p
    | None, Some r, None => Ok r
    | None, None, Some q => Ok q
    | _, _, _ =>
        let final :=
          match popularity, rating with
          | None, _ => rating
          | Some p, None => Some p
          | Some p, Some r =>
              Some (p * popularity_weight + r * rating_weight)
          end in
        match final with
        | None => Raise TypeError
        | Some f =>
            if truthy quality
            then match quality with
                 | Some q => Ok (f / 2 + q / 2)
                 | None => Ok f
                 end
            else Ok f
        end
    end.

(** The default weights of the signature. *)
Definition default_popularity_weight : Q := 3 # 10.
Definition default_rating_weight : Q := 7 # 10.

End Measurement.

(** ** Identity graph ([Identifier], [Equivalency]) *)

Module Equivalents.

(** A row of [equivalents]: a directed, weighted assertion. *)
Record Equivalency : Type := {
  input_id : nat;
  output_id : nat;
  strength : Q
}.

Definition strong_enough (threshold : Q) (e : Equivalency) : bool :=
  Qle_bool threshold (strength e).

(** The other end of every strong enough edge that touches [i], in
    either direction. *)
Definition neighbours (edges : list Equivalency) (threshold : Q) (i : nat)
  : list nat :=
  flat_map
    (fun e =>
       if strong_enough threshold e then
         ((if (input_id e =? i)%nat then [output_id e] else [])
          ++ (if (output_id e =? i)%nat then [input_id e] else []))%list
       else [])
    edges.

(** Modelled from the spec: the SQL function [fn_recursive_equivalents]
    of [files/recursive_equivalents.sql], which is not part of the
    sources at hand.  It is the breadth-limited traversal of section
    4.1: at most [levels] hops over the edges taken as undirected, an
    edge being followed only if its strength is at least [threshold];
    the identifiers found, the parent among them, without repetition. *)
Fixpoint fn_recursive_equivalents (edges : list Equivalency)
    (parent : nat) (levels : nat) (threshold : Q) : list nat :=
  match levels with
  | O => [parent]
  | S n =>
      let found := fn_recursive_equivalents edges parent n threshold in
      remove_dups (found ++ flat_map (neighbours edges threshold) found)%list
  end.

(** The rows of the [select] of
    [recursively_equivalent_identifier_ids]: one row per identifier of
    the table that is among [identifier_ids] and per equivalent of it. *)
Definition equivalents_rows (identifiers : list nat)
    (edges : list Equivalency) (identifier_ids : list nat)
    (levels : nat) (threshold : Q) : list (nat * nat) :=
  flat_map
    (fun i => (fun x => (i, x))
              <$> fn_recursive_equivalents edges i levels threshold)
    (List.filter (fun i => bool_decide (i ∈ identifier_ids)) identifiers).

(** The loop that fills the [defaultdict(list)]. *)
Fixpoint collect_rows (rows : list (nat * nat))
    (equivalents : gmap nat (list nat)) : gmap nat (list nat) :=
  match rows with
  | [] => equivalents
  | (original, equivalent) :: rows' =>
      collect_rows rows'
        (<[original := ((equivalents !!! original) ++ [equivalent])%list]>
           equivalents)
  end.

(** [Identifier.recursively_equivalent_identifier_ids]; [identifiers]
    and [edges] are the two tables behind [_db]. *)
Definition recursively_equivalent_identifier_ids (identifiers : list nat)
    (edges : list Equivalency) (identifier_ids : list nat)
    (levels : nat) (threshold : Q) : gmap nat (list nat) :=
  collect_rows
    (equivalents_rows identifiers edges identifier_ids levels threshold) ∅.

End Equivalents.

(** ** The tables *)

Abbreviation pool_id := nat (only parsing).
Abbreviation edition_id := nat (only parsing).
Abbreviation work_id := nat (only parsing).

Record Identifier : Type := {
  identifier_id : nat;
  identifier_type : string;
  identifier : string
}.

Record Representation : Type := {
  media_type : option string;
  mirror_url : option string;
  unicode_content : option string
}.

Record Resource : Type := {
  url : string;
  resource_data_source : string;
  representation : option Representation
}.

(** A row of [measurements]. *)
Record MeasurementRow : Type := {
  measurement_identifier_id : nat;
  is_most_recent : bool;
  measurement : Measurement.t
}.

(** A row of [licensepools].  [pool_work] and
    [pool_presentation_edition] are the two foreign keys;
    [open_access_links] is the result of the query of that name for the
    pool's identifier. *)
Record LicensePool : Type := {
  pool_identifier : option Identifier;
  pool_data_source : string;
  open_access : bool;
  superceded : bool;
  suppressed : bool;
  pool_work : option work_id;
  pool_presentation_edition : option edition_id;
  open_access_links : list Resource
}.

Definition with_superceded (v : bool) (x : LicensePool) : LicensePool :=
  {| pool_identifier := pool_identifier x;
     pool_data_source := pool_data_source x;
     open_access := open_access x;
     superceded := v;
     suppressed := suppressed x;
     pool_work := pool_work x;
     pool_presentation_edition := pool_presentation_edition x;
     open_access_links := open_access_links x |}.

Definition with_pool_work (v : option work_id) (x : LicensePool) : LicensePool :=
  {| pool_identifier := pool_identifier x;
     pool_data_source := pool_data_source x;
     open_access := open_access x;
     superceded := superceded x;
     suppressed := suppressed x;
     pool_work := v;
     pool_presentation_edition := pool_presentation_edition x;
     open_access_links := open_access_links x |}.

Definition with_pool_presentation_edition (v : option edition_id) (x : LicensePool) : LicensePool :=
  {| pool_identifier := pool_identifier x;
     pool_data_source := pool_data_source x;
     open_access := open_access x;
     superceded := superceded x;
     suppressed := suppressed x;
     pool_work := pool_work x;
     pool_presentation_edition := v;
     open_access_links := open_access_links x |}.

(** A row of [editions].  [author_contributors] holds the sort names
    of the contributors with an author role, primary author first. *)
Record Edition : Type := {
  edition_data_source : option string;
  primary_identifier : nat;
  title : option string;
  subtitle : option string;
  author : option string;
  sort_author : option string;
  author_contributors : list string;
  medium : option string;
  permanent_work_id : option string
}.

Definition with_permanent_work_id (v : option string) (x : Edition) : Edition :=
  {| edition_data_source := edition_data_source x;
     primary_identifier := primary_identifier x;
     title := title x;
     subtitle := subtitle x;
     author := author x;
     sort_author := sort_author x;
     author_contributors := author_contributors x;
     medium := medium x;
     permanent_work_id := v |}.

(** A row of [works] with the collections that hang off it.
    [license_pools] is the instrumented list behind
    [relationship("LicensePool", backref="work")]; [coverage_records]
    maps an operation to the time it was last recorded; [deleted] is set
    by [_db.delete]. *)
Record Work : Type := {
  license_pools : list pool_id;
  work_presentation_edition : option edition_id;
  work_genres : list (string * Q);
  coverage_records : list (string * nat);
  summary : option Resource;
  summary_text : option string;
  quality : option Q;
  last_update_time : option nat;
  deleted : bool
}.

Definition with_license_pools (v : list pool_id) (x : Work) : Work :=
  {| license_pools := v;
     work_presentation_edition := work_presentation_edition x;
     work_genres := work_genres x;
     coverage_records := coverage_records x;
     summary := summary x;
     summary_text := summary_text x;
     quality := quality x;
     last_update_time := last_update_time x;
     deleted := deleted x |}.

Definition with_work_presentation_edition (v : option edition_id) (x : Work) : Work :=
  {| license_pools := license_pools x;
     work_presentation_edition := v;
     work_genres := work_genres x;
     coverage_records := coverage_records x;
     summary := summary x;
     summary_text := summary_text x;
     quality := quality x;
     last_update_time := last_update_time x;
     deleted := deleted x |}.

Definition with_work_genres (v : list (string * Q)) (x : Work) : Work :=
  {| license_pools := license_pools x;
     work_presentation_edition := work_presentation_edition x;
     work_genres := v;
     coverage_records := coverage_records x;
     summary := summary x;
     summary_text := summary_text x;
     quality := quality x;
     last_update_time := last_update_time x;
     deleted := deleted x |}.

Definition with_coverage_records (v : list (string * nat)) (x : Work) : Work :=
  {| license_pools := license_pools x;
     work_presentation_edition := work_presentation_edition x;
     work_genres := work_genres x;
     coverage_records := v;
     summary := summary x;
     summary_text := summary_text x;
     quality := quality x;
     last_update_time := last_update_time x;
     deleted := deleted x |}.

Definition with_summary (v : option Resource) (x : Work) : Work :=
  {| license_pools := license_pools x;
     work_presentation_edition := work_presentation_edition x;
     work_genres := work_genres x;
     coverage_records := coverage_records x;
     summary := v;
     summary_text := summary_text x;
     quality := quality x;
     last_update_time := last_update_time x;
     deleted := deleted x |}.

Definition with_summary_text (v : option string) (x : Work) : Work :=
  {| license_pools := license_pools x;
     work_presentation_edition := work_presentation_edition x;
     work_genres := work_genres x;
     coverage_records := coverage_records x;
     summary := summary x;
     summary_text := v;
     quality := quality x;
     last_update_time := last_update_time x;
     deleted := deleted x |}.

Definition with_quality (v : option Q) (x : Work) : Work :=
  {| license_pools := license_pools x;
     work_presentation_edition := work_presentation_edition x;
     work_genres := work_genres x;
     coverage_records := coverage_records x;
     summary := summary x;
     summary_text := summary_text x;
     quality := v;
     last_update_time := last_update_time x;
     deleted := deleted x |}.

Definition with_last_update_time (v : option nat) (x : Work) : Work :=
  {| license_pools := license_pools x;
     work_presentation_edition := work_presentation_edition x;
     work_genres := work_genres x;
     coverage_records := coverage_records x;
     summary := summary x;
     summary_text := summary_text x;
     quality := quality x;
     last_update_time := v;
     deleted := deleted x |}.

Definition with_deleted (v : bool) (x : Work) : Work :=
  {| license_pools := license_pools x;
     work_presentation_edition := work_presentation_edition x;
     work_genres := work_genres x;
     coverage_records := coverage_records x;
     summary := summary x;
     summary_text := summary_text x;
     quality := quality x;
     last_update_time := last_update_time x;
     deleted := v |}.

(** The session: the tables and the clock read by [utcnow]. *)
Record State : Type := {
  pools : list LicensePool;
  editions : list Edition;
  works : list Work;
  identifier_table : list nat;
  equivalents : list Equivalents.Equivalency;
  measurements : list MeasurementRow;
  now : nat
}.

Definition with_pools (v : list LicensePool) (x : State) : State :=
  {| pools := v;
     editions := editions x;
     works := works x;
     identifier_table := identifier_table x;
     equivalents := equivalents x;
     measurements := measurements x;
     now := now x |}.

Definition with_editions (v : list Edition) (x : State) : State :=
  {| pools := pools x;
     editions := v;
     works := works x;
     identifier_table := identifier_table x;
     equivalents := equivalents x;
     measurements := measurements x;
     now := now x |}.

Definition with_works (v : list Work) (x : State) : State :=
  {| pools := pools x;
     editions := editions x;
     works := v;
     identifier_table := identifier_table x;
     equivalents := equivalents x;
     measurements := measurements x;
     now := now x |}.

Definition with_measurements (v : list MeasurementRow) (x : State) : State :=
  {| pools := pools x;
     editions := editions x;
     works := works x;
     identifier_table := identifier_table x;
     equivalents := equivalents x;
     measurements := v;
     now := now x |}.

Definition with_now (v : nat) (x : State) : State :=
  {| pools := pools x;
     editions := editions x;
     works := works x;
     identifier_table := identifier_table x;
     equivalents := equivalents x;
     measurements := measurements x;
     now := v |}.

(** [Work()]: a row with every column null and no pools. *)
Definition new_work : Work :=
  {| license_pools := [];
     work_presentation_edition := None;
     work_genres := [];
     coverage_records := [];
     summary := None;
     summary_text := None;
     quality := None;
     last_update_time := None;
     deleted := false |}.

(** Reads of a row by key.  The object graph of the session has no
    dangling reference; a key without a row is reported as the
    [AttributeError] of a [None] that was not expected. *)
Definition get_pool (p : pool_id) (s : State) : result LicensePool :=
  match pools s !! p with
  | Some pool => Ok pool
  | None => Raise AttributeError
  end.

Definition get_edition (e : edition_id) (s : State) : result Edition :=
  match editions s !! e with
  | Some ed => Ok ed
  | None => Raise AttributeError
  end.

Definition get_work (w : work_id) (s : State) : result Work :=
  match works s !! w with
  | Some wk => Ok wk
  | None => Raise AttributeError
  end.

Definition update_pool (f : LicensePool -> LicensePool) (p : pool_id)
    (s : State) : State :=
  with_pools (alter f p (pools s)) s.

Definition update_work (f : Work -> Work) (w : work_id) (s : State) : State :=
  with_works (alter f w (works s)) s.

Definition update_edition (f : Edition -> Edition) (e : edition_id)
    (s : State) : State :=
  with_editions (alter f e (editions s)) s.

(** [datetime.datetime.utcnow()]: the clock moves on at every reading. *)
Definition utcnow : M State nat :=
  fun s => (Return (now s), with_now (S (now s)) s).

(** Truthiness of a nullable string: neither [None] nor empty. *)
Definition str_truthy (v : option string) : bool :=
  match v with
  | Some x => negb (String.eqb x "")
  | None => false
  end.

Definition opt_string_eqb (a b : option string) : bool :=
  match a, b with
  | Some x, Some y => String.eqb x y
  | None, None => true
  | _, _ => false
  end.

(** ** Strings as Python sees them *)

Fixpoint contains (sub s : string) : bool :=
  String.prefix sub s
  || match s with
     | EmptyString => false
     | String _ s' => contains sub s'
     end.

Definition is_space (c : ascii) : bool :=
  let n := nat_of_ascii c in
  (n =? 32)%nat || ((9 <=? n)%nat && (n <=? 13)%nat).

Definition digit_of (c : ascii) : option Z :=
  let n := nat_of_ascii c in
  if ((48 <=? n)%nat && (n <=? 57)%nat)%bool
  then Some (Z.of_nat (n - 48)) else None.

Fixpoint lstrip (l : list ascii) : list ascii :=
  match l with
  | c :: l' => if is_space c then lstrip l' else l
  | [] => []
  end.

Definition strip (l : list ascii) : list ascii :=
  rev (lstrip (rev (lstrip l))).

Fixpoint digits_value (acc : Z) (l : list ascii) : option Z :=
  match l with
  | [] => Some acc
  | c :: l' =>
      match digit_of c with
      | Some d => digits_value (10 * acc + d)%Z l'
      | None => None
      end
  end.

(** [int(s)] for a string: optional surrounding whitespace, an optional
    sign, then one or more decimal digits; [None] is [ValueError]. *)
Definition python_int (s : string) : option Z :=
  let body := strip (list_ascii_of_string s) in
  let '(negative, ds) :=
    match body with
    | "-"%char :: ds => (true, ds)
    | "+"%char :: ds => (false, ds)
    | _ => (false, body)
    end in
  match ds with
  | [] => None
  | _ => option_map (fun v => if negative then (- v)%Z else v)
                    (digits_value 0 ds)
  end.

(** ** Open-access champion selection ([LicensePool]) *)

Module Representation.
Definition EPUB_MEDIA_TYPE := "application/epub+zip".
Definition SUPPORTED_BOOK_MEDIA_TYPES : list string := [ EPUB_MEDIA_TYPE ].
End Representation.

(** The [open_access_source_priority] property. *)
Definition open_access_source_priority (self : LicensePool) : Z :=
  match list_index (pool_data_source self)
                   DataSource.OPEN_ACCESS_SOURCE_PRIORITY with
  | Some i => Z.of_nat i
  | None => (-1)%Z
  end.

(** The test that guards the [continue] of [best_open_access_link]:
    some supported media type is a prefix of the resource's. *)
Definition supported_media_type (resource : Resource) : bool :=
  existsb
    (fun x =>
       match representation resource with
       | Some r =>
           match media_type r with
           | Some mt => negb (String.eqb mt "") && String.prefix x mt
           | None => false
           end
       | None => false
       end)
    Representation.SUPPORTED_BOOK_MEDIA_TYPES.

(** ['noimages' in r.representation.mirror_url]: a missing
    representation is [AttributeError], a null URL is [TypeError]. *)
Definition noimages_in_mirror_url (r : Resource) : result bool :=
  match representation r with
  | None => Raise AttributeError
  | Some rep =>
      match mirror_url rep with
      | None => Raise TypeError
      | Some u => Ok (contains "noimages" u)
      end
  end.

(** One turn of the loop of [best_open_access_link] on the pair
    [(best, best_priority)]. *)
Definition best_link_step (self : LicensePool) (resource : Resource)
    (acc : option Resource * Z) : result (option Resource * Z) :=
  let '(best, best_priority) := acc in
  if negb (supported_media_type resource) then Ok acc
  else
    let data_source_priority := open_access_source_priority self in
    match best with
    | None => Ok (Some resource, data_source_priority)
    | Some b =>
        if (best_priority <? data_source_priority)%Z
        then Ok (Some resource, data_source_priority)
        else if String.eqb (resource_data_source b) DataSource.GUTENBERG
                && String.eqb (resource_data_source resource)
                              DataSource.GUTENBERG
        then
          let* best_stripped := noimages_in_mirror_url b in
          if best_stripped then
            let* resource_stripped := noimages_in_mirror_url resource in
            if negb resource_stripped
            then Ok (Some resource, data_source_priority)
            else Ok acc
          else Ok acc
        else Ok acc
    end.

(** The [best_open_access_link] property.  [open_access_links] reads
    [self.identifier.id] first. *)
Definition best_open_access_link (self : LicensePool)
  : result (option Resource) :=
  match pool_identifier self with
  | None => Raise AttributeError
  | Some _ =>
      let* acc := for_each (best_link_step self) (open_access_links self)
                           (None, (-1)%Z) in
      Ok (fst acc)
  end.

Definition identifier_int (p : LicensePool) : result Z :=
  match pool_identifier p with
  | None => Raise AttributeError
  | Some i =>
      match python_int (identifier i) with
      | Some n => Ok n
      | None => Raise ValueError
      end
  end.

(** [better_open_access_pool_than]; [champion] is [None] or a pool. *)
Definition better_open_access_pool_than (self : LicensePool)
    (champion : option LicensePool) : result bool :=
  match pool_identifier self with
  | None => Ok false
  | Some _ =>
    if suppressed self then Ok false
    else if negb (open_access self) then Ok false
    else match champion with
    | None => Ok true
    | Some champion =>
      let* challenger_resource := best_open_access_link self in
      match challenger_resource with
      | None => Ok false
      | Some _ =>
        let champion_priority := open_access_source_priority champion in
        let challenger_priority := open_access_source_priority self in
        if (champion_priority <? challenger_priority)%Z then Ok true
        else if (challenger_priority <? champion_priority)%Z then Ok false
        else if String.eqb (pool_data_source self) DataSource.GUTENBERG
                && String.eqb (pool_data_source champion)
                              (pool_data_source self)
        then
          let* champion_id := identifier_int champion in
          let* challenger_id := identifier_int self in
          Ok (champion_id <? challenger_id)%Z
        else Ok false
      end
    end
  end.

(** One turn of the loop of [mark_licensepools_as_superceded]; the
    running champion is the loop-carried variable. *)
Definition mark_step (p : pool_id)
    (champion_open_access_license_pool : option pool_id)
  : M State (option pool_id) :=
  do pool <- lift (get_pool p);
  if negb (open_access pool) then
    run modify (update_pool (with_superceded false) p);
    ret champion_open_access_license_pool
  else
    do champion <-
      match champion_open_access_license_pool with
      | None => ret None
      | Some c => do cp <- lift (get_pool c); ret (Some cp)
      end;
    do better <- lift (fun _ => better_open_access_pool_than pool champion);
    if better then
      run match champion_open_access_license_pool with
          | Some c => modify (update_pool (with_superceded true) c)
          | None => ret tt
          end;
      run modify (update_pool (with_superceded false) p);
      ret (Some p)
    else
      run modify (update_pool (with_superceded true) p);
      ret champion_open_access_license_pool.

Definition mark_loop (ps : list pool_id) (champion : option pool_id)
  : M State (option pool_id) :=
  fold_ ps mark_step champion.

(** [Work.mark_licensepools_as_superceded]. *)
Definition mark_licensepools_as_superceded (self : work_id) : M State unit :=
  do work <- lift (get_work self);
  do champion <- mark_loop (license_pools work) None;
  ret tt.

(** ** Presentation recompute ([Work], [LicensePool]) *)

Record PresentationCalculationPolicy : Type := {
  choose_edition : bool;
  set_edition_metadata : bool;
  classify : bool;
  choose_summary : bool;
  calculate_quality : bool;
  choose_cover : bool;
  regenerate_opds_entries : bool;
  update_search_index : bool;
  verbose : bool
}.

(** [PresentationCalculationPolicy()]. *)
Definition default_policy : PresentationCalculationPolicy :=
  {| choose_edition := true;
     set_edition_metadata := true;
     classify := true;
     choose_summary := true;
     calculate_quality := true;
     choose_cover := true;
     regenerate_opds_entries := false;
     update_search_index := false;
     verbose := true |}.

(** The collaborators of [model.py] whose code lies outside it, or
    rests on tables that are not modelled: the metadata layer that
    builds a composite Edition, the recomputation of an Edition's own
    metadata (contributors, sort title, fingerprint, cover), the
    fingerprint function of [WorkIDCalculator], the classifier behind
    [assign_genres], the summary evaluator, the OPDS entry generator
    and the search index.  [dict_order] is the order in which CPython
    iterates over a [Counter] keyed by Works. *)
Record Collaborators : Type := {
  composite_edition : pool_id -> list edition_id -> M State edition_id;
  edition_calculate_presentation : edition_id -> M State bool;
  permanent_id : string -> option string -> string -> string;
  assign_genres : work_id -> list nat -> M State bool;
  evaluate_summary_quality :
    list nat -> list string -> M State (option Resource);
  calculate_opds_entries : work_id -> M State unit;
  update_external_index : work_id -> M State unit;
  dict_order : list (work_id * nat) -> list (work_id * nat)
}.

Module WorkCoverageRecord.
Definition CHOOSE_EDITION_OPERATION := "choose-edition".
Definition CLASSIFY_OPERATION := "classify".
Definition SUMMARY_OPERATION := "summary".
Definition QUALITY_OPERATION := "quality".

Fixpoint upsert (operation : string) (timestamp : nat)
    (records : list (string * nat)) : list (string * nat) :=
  match records with
  | [] => [(operation, timestamp)]
  | (o, t) :: records' =>
      if String.eqb o operation then (o, timestamp) :: records'
      else (o, t) :: upsert operation timestamp records'
  end.

(** [WorkCoverageRecord.add_for] as [calculate_presentation] calls
    it, with no timestamp and the default status: get or create the
    record of the operation and stamp it with the reading of the
    clock.  The method with all its parameters is
    [WorkCoverageRecords.add_for]. *)
Definition add_for (work : work_id) (operation : string) : M State unit :=
  do timestamp <- utcnow;
  modify (update_work
            (fun w => with_coverage_records
                        (upsert operation timestamp (coverage_records w)) w)
            work).
End WorkCoverageRecord.

(** *** The two sides of [Work.license_pools] / [LicensePool.work] *)

Fixpoint remove_first (p : pool_id) (l : list pool_id) : list pool_id :=
  match l with
  | [] => []
  | q :: l' => if (q =? p)%nat then l' else q :: remove_first p l'
  end.

(** [pool.work = w].  Assigning the value already held fires no event;
    otherwise the pool leaves the collection of its old Work and joins
    that of the new one. *)
Definition assign_work (p : pool_id) (w : option work_id) : M State unit :=
  do pool <- lift (get_pool p);
  if bool_decide (pool_work pool = w) then ret tt
  else
    run match pool_work pool with
        | Some old =>
            modify (update_work
                      (fun x => with_license_pools
                                  (remove_first p (license_pools x)) x) old)
        | None => ret tt
        end;
    run modify (update_pool (with_pool_work w) p);
    match w with
    | Some new =>
        modify (update_work
                  (fun x => with_license_pools (license_pools x ++ [p])%list x)
                  new)
    | None => ret tt
    end.

(** [work.license_pools.append(pool)]: the collection grows, and the
    backref moves the pool out of the collection of its old Work. *)
Definition append_pool (w : work_id) (p : pool_id) : M State unit :=
  do pool <- lift (get_pool p);
  run modify (update_work
                (fun x => with_license_pools (license_pools x ++ [p])%list x)
                w);
  if bool_decide (pool_work pool = Some w) then ret tt
  else
    run match pool_work pool with
        | Some old =>
            modify (update_work
                      (fun x => with_license_pools
                                  (remove_first p (license_pools x)) x) old)
        | None => ret tt
        end;
    modify (update_pool (with_pool_work (Some w)) p).

(** *** The two sides of [Work.presentation_edition] / [Edition.work]
    and of [LicensePool.presentation_edition] /
    [Edition.is_presentation_for] *)

Fixpoint find_index {A : Type} (f : A -> bool) (l : list A) : option nat :=
  match l with
  | [] => None
  | x :: l' => if f x then Some 0%nat else option_map S (find_index f l')
  end.

(** [edition.work]: the Work that has the edition as its presentation
    edition. *)
Definition edition_work (e : edition_id) (s : State) : option work_id :=
  find_index
    (fun w => bool_decide (work_presentation_edition w = Some e)) (works s).

(** [edition.is_presentation_for]: the LicensePool that has the edition
    as its presentation edition. *)
Definition is_presentation_for (e : edition_id) (s : State) : option pool_id :=
  find_index
    (fun p => bool_decide (pool_presentation_edition p = Some e)) (pools s).

(** [edition.work = None]. *)
Definition clear_edition_work (e : edition_id) : M State unit :=
  do s <- get;
  match edition_work e s with
  | Some w => modify (update_work (with_work_presentation_edition None) w)
  | None => ret tt
  end.

(** [work.presentation_edition = e]: a Work that held the edition
    before gives it up. *)
Definition assign_presentation_edition (w : work_id) (e : edition_id)
  : M State unit :=
  do s <- get;
  run match edition_work e s with
      | Some old =>
          if (old =? w)%nat then ret tt
          else modify (update_work (with_work_presentation_edition None) old)
      | None => ret tt
      end;
  modify (update_work (with_work_presentation_edition (Some e)) w).

(** [Work.set_presentation_edition]. *)
Definition work_set_presentation_edition (self : work_id)
    (new_presentation_edition : option edition_id) : M State unit :=
  match new_presentation_edition with
  | None => raise ValueError
  | Some e =>
      run assign_presentation_edition self e;
      do s <- get;
      match is_presentation_for e s with
      | Some pool => assign_work pool (Some self)
      | None => ret tt
      end
  end.

(** *** [LicensePool.set_presentation_edition] *)

Module PresentationEdition.
Definition PRESENTATION_EDITION := "Presentation edition generator".
Definition MANUAL := "Manual intervention".
Definition PRESENTATION_EDITION_PRIORITY : list string :=
  [ DataSource.METADATA_WRANGLER; DataSource.LIBRARY_STAFF; MANUAL ].
End PresentationEdition.

Definition sort_key (self : LicensePool) (edition : Edition) : Z :=
  match edition_data_source edition with
  | None => (-100)%Z
  | Some source =>
      if String.eqb source (pool_data_source self) then (-1)%Z
      else match list_index source
                   PresentationEdition.PRESENTATION_EDITION_PRIORITY with
           | Some i => Z.of_nat i
           | None => (-2)%Z
           end
  end.

(** [sorted(..., key=...)]: a stable insertion sort. *)
Fixpoint insert_sorted {A : Type} (key : A -> Z) (x : A) (l : list A)
  : list A :=
  match l with
  | [] => [x]
  | y :: l' =>
      if (key x <? key y)%Z then x :: y :: l'
      else y :: insert_sorted key x l'
  end.

Definition sorted {A : Type} (key : A -> Z) (l : list A) : list A :=
  fold_left (fun acc x => insert_sorted key x acc) l [].

(** The rows of [editions] whose primary identifier is [i], with their
    keys, in table order. *)
Fixpoint primarily_identifies_from (n : nat) (i : nat) (es : list Edition)
  : list (edition_id * Edition) :=
  match es with
  | [] => []
  | e :: es' =>
      if (primary_identifier e =? i)%nat
      then (n, e) :: primarily_identifies_from (S n) i es'
      else primarily_identifies_from (S n) i es'
  end.

(** [LicensePool.editions_in_priority_order]. *)
Definition editions_in_priority_order (self : pool_id) (s : State)
  : result (list (edition_id * Edition)) :=
  let* pool := get_pool self s in
  match pool_identifier pool with
  | None => Raise AttributeError
  | Some i =>
      Ok (sorted (fun ne => sort_key pool (snd ne))
                 (primarily_identifies_from 0 (identifier_id i) (editions s)))
  end.

(** The editions that go into a composite: all but earlier composites.
    An edition without a data source stops the loop with
    [AttributeError]. *)
Fixpoint composite_inputs (all_editions : list (edition_id * Edition))
  : result (list edition_id) :=
  match all_editions with
  | [] => Ok []
  | (n, e) :: rest =>
      match edition_data_source e with
      | None => Raise AttributeError
      | Some source =>
          let* others := composite_inputs rest in
          if String.eqb source PresentationEdition.PRESENTATION_EDITION
          then Ok others else Ok (n :: others)
      end
  end.

(** The members of a Work, read from the store. *)
Definition members_of (w : work_id) (s : State) : result (list LicensePool) :=
  let* work := get_work w s in
  for_each (fun p acc => let* pool := get_pool p s in Ok (acc ++ [pool])%list)
           (license_pools work) [].

Section Pipeline.
Variable ext : Collaborators.

Definition pool_set_presentation_edition (self : pool_id) : M State bool :=
  do pool <- lift (get_pool self);
  let old_presentation_edition := pool_presentation_edition pool in
  do all_editions <- lift (editions_in_priority_order self);
  do chosen <-
    match all_editions with
    | [(n, _)] => ret n
    | _ =>
        do inputs <- lift (fun _ => composite_inputs all_editions);
        composite_edition ext self inputs
    end;
  run modify (update_pool (with_pool_presentation_edition (Some chosen)) self);
  do changed <- edition_calculate_presentation ext chosen;
  do pool1 <- lift (get_pool self);
  run match pool_work pool1 with
      | Some w =>
          do work <- lift (get_work w);
          match work_presentation_edition work with
          | None =>
              work_set_presentation_edition w (pool_presentation_edition pool1)
          | Some _ => ret tt
          end
      | None => ret tt
      end;
  do pool2 <- lift (get_pool self);
  ret (negb (bool_decide (pool_presentation_edition pool2
                          = old_presentation_edition))
       || changed).

(** A [for] loop over a collection that its body may change: the
    iterator holds an index into the live list. *)
Fixpoint for_live {A B : Type} (fuel : nat) (collection : State -> list A)
    (i : nat) (body : A -> B -> M State B) (b : B) : M State B :=
  match fuel with
  | O => exhausted
  | S fuel' =>
      do s <- get;
      match collection s !! i with
      | None => ret b
      | Some x =>
          do b' <- body x b;
          for_live fuel' collection (S i) body b'
      end
  end.

Definition pools_of (w : work_id) (s : State) : list pool_id :=
  match works s !! w with
  | Some work => license_pools work
  | None => []
  end.

(** One turn of the loop of [calculate_presentation_edition] on
    [(edition_metadata_changed, new_presentation_edition)]. *)
Definition choose_edition_step (old_presentation_edition : option edition_id)
    (p : pool_id) (acc : bool * option edition_id)
  : M State (bool * option edition_id) :=
  let '(edition_metadata_changed, new_presentation_edition) := acc in
  do pool <- lift (get_pool p);
  if superceded pool || suppressed pool then ret acc
  else
    do pool_edition_changed <- pool_set_presentation_edition p;
    let edition_metadata_changed :=
      edition_metadata_changed || pool_edition_changed in
    do pool1 <- lift (get_pool p);
    let potential_presentation_edition := pool_presentation_edition pool1 in
    if negb (bool_decide (new_presentation_edition <> None))
       || (bool_decide (potential_presentation_edition
                        = old_presentation_edition)
           && bool_decide (old_presentation_edition <> None))
    then ret (edition_metadata_changed, potential_presentation_edition)
    else ret (edition_metadata_changed, new_presentation_edition).

(** [Work.calculate_presentation_edition]. *)
Definition calculate_presentation_edition (fuel : nat) (self : work_id)
    (policy : PresentationCalculationPolicy) : M State bool :=
  if negb (choose_edition policy) then ret false
  else
    run mark_licensepools_as_superceded self;
    do work <- lift (get_work self);
    let old_presentation_edition := work_presentation_edition work in
    do '(edition_metadata_changed, new_presentation_edition) <-
      for_live fuel (pools_of self) 0
               (choose_edition_step old_presentation_edition) (false, None);
    do work1 <- lift (get_work self);
    run if negb (bool_decide (work_presentation_edition work1
                              = new_presentation_edition))
           && bool_decide (new_presentation_edition <> None)
        then work_set_presentation_edition self new_presentation_edition
        else ret tt;
    run WorkCoverageRecord.add_for
          self WorkCoverageRecord.CHOOSE_EDITION_OPERATION;
    do work2 <- lift (get_work self);
    ret (edition_metadata_changed
         || negb (bool_decide (old_presentation_edition
                               = work_presentation_edition work2))).

(** *** Quality *)

(** [Work.default_quality_by_data_source]. *)
Definition default_quality_by_data_source : list (string * Q) :=
  [ (DataSource.GUTENBERG, 0);
    (DataSource.OVERDRIVE, 4 # 10);
    (DataSource.THREEM, 65 # 100);
    (DataSource.THETA, 0);
    (DataSource.AXIS_360, 65 # 100);
    (DataSource.STANDARD_EBOOKS, 8 # 10);
    (DataSource.UNGLUE_IT, 4 # 10);
    (DataSource.PLYMPTON, 5 # 10) ].

(** The body of the loop over [licensed_data_sources] in
    [calculate_presentation]. *)
Definition default_quality_step (default_quality : option Q) (source : string)
  : option Q :=
  match assoc_get source default_quality_by_data_source with
  | None => default_quality
  | Some q =>
      match default_quality with
      | None => Some q
      | Some d => if Measurement.Qlt_bool d q then Some q else default_quality
      end
  end.

(** The [for ... else] of [calculate_presentation]: the loop has no
    [break], so its [else] clause runs every time the loop ends and
    assigns 0 over whatever the loop found. *)
Definition default_quality_for (licensed_data_sources : list string) : Q :=
  let default_quality :=
    fold_left default_quality_step licensed_data_sources None in
  let default_quality : option Q := Some 0 in
  match default_quality with
  | Some q => q
  | None => 0
  end.

(** [licensed_data_sources]: the sources of the pools, Gutenberg
    excepted, as a set. *)
Definition licensed_data_sources_of (ps : list LicensePool) : list string :=
  remove_dups
    (omap (fun pool =>
             if negb (String.eqb (pool_data_source pool) DataSource.GUTENBERG)
             then Some (pool_data_source pool) else None) ps).

(** [Work.all_identifier_ids]. *)
Definition all_identifier_ids (self : work_id) (s : State)
  : result (list nat) :=
  let* members := members_of self s in
  let primary_identifier_ids :=
    omap (fun pool => identifier_id <$> pool_identifier pool) members in
  let equivalent_lists :=
    Equivalents.recursively_equivalent_identifier_ids
      (identifier_table s) (equivalents s) primary_identifier_ids
      5 (1 # 2) in
  Ok (remove_dups (List.concat (snd <$> map_to_list equivalent_lists))).

Definition quality_quantities : list string :=
  [ Measurement.POPULARITY; Measurement.RATING;
    Measurement.DOWNLOADS; Measurement.QUALITY ].

Definition selected_measurement (identifier_ids : list nat)
    (row : MeasurementRow) : bool :=
  bool_decide (measurement_identifier_id row ∈ identifier_ids)
  && is_most_recent row
  && bool_decide (Measurement.quantity_measured (measurement row)
                  ∈ quality_quantities).

(** Reading [normalized_value] fills the cached column of the rows
    that were read. *)
Definition cache_normalized_values (identifier_ids : list nat)
    (rows : list MeasurementRow) : list MeasurementRow :=
  (fun row =>
     if selected_measurement identifier_ids row
     then {| measurement_identifier_id := measurement_identifier_id row;
             is_most_recent := is_most_recent row;
             measurement := fst (Measurement.normalized_value
                                   (measurement row)) |}
     else row) <$> rows.

(** [Work.calculate_quality]. *)
Definition work_calculate_quality (self : work_id) (identifier_ids : list nat)
    (default_quality : Q) : M State unit :=
  do s <- get;
  let selected :=
    measurement <$>
      List.filter (selected_measurement identifier_ids) (measurements s) in
  do q <- lift (fun _ =>
    Measurement.overall_quality selected
      Measurement.default_popularity_weight Measurement.default_rating_weight
      default_quality);
  run modify (fun s =>
    with_measurements
      (cache_normalized_values identifier_ids (measurements s)) s);
  run modify (update_work (with_quality (Some q)) self);
  WorkCoverageRecord.add_for self WorkCoverageRecord.QUALITY_OPERATION.

(** [Work.set_summary]. *)
Definition set_summary (self : work_id) (resource : option Resource)
  : M State unit :=
  let text :=
    match resource with
    | Some r =>
        match representation r with
        | Some rep => unicode_content rep
        | None => Some ""
        end
    | None => Some ""
    end in
  run modify (update_work
                (fun w => with_summary_text text (with_summary resource w))
                self);
  WorkCoverageRecord.add_for self WorkCoverageRecord.SUMMARY_OPERATION.

Definition resource_eqb (a b : option Resource) : bool :=
  match a, b with
  | Some x, Some y => String.eqb (url x) (url y)
  | None, None => true
  | _, _ => false
  end.

(** [float(x)] for a nullable number. *)
Definition float (x : option Q) : result Q :=
  match x with
  | Some q => Ok q
  | None => Raise TypeError
  end.

(** The [changed = (... or ... or ...)] of [calculate_presentation];
    [or] stops at the first true operand, so the two [float] calls are
    reached only when everything before them is false. *)
Definition changed_flag (edition_changed classification_changed : bool)
    (summary0 : option Resource) (summary_text0 : option string)
    (quality0 : option Q) (work : Work) : result bool :=
  if edition_changed then Ok true
  else if classification_changed then Ok true
  else if negb (resource_eqb summary0 (summary work)) then Ok true
  else if negb (opt_string_eqb summary_text0 (summary_text work)) then Ok true
  else
    let* old := float quality0 in
    let* new := float (quality work) in
    Ok (negb (Qeq_bool old new)).

(** [Work.calculate_presentation]; the value returned is the
    [changed] flag it computes. *)
Definition calculate_presentation (fuel : nat) (self : work_id)
    (policy : PresentationCalculationPolicy) : M State bool :=
  do edition_changed <- calculate_presentation_edition fuel self policy;
  do work <- lift (get_work self);
  let summary0 := summary work in
  let summary_text0 := summary_text work in
  let quality0 := quality work in
  do members <- lift (members_of self);
  let licensed_data_sources := licensed_data_sources_of members in
  do identifier_ids <-
    if classify policy || choose_summary policy || calculate_quality policy
    then lift (all_identifier_ids self)
    else ret [];
  do classification_changed <-
    if classify policy then
      do c <- assign_genres ext self identifier_ids;
      run WorkCoverageRecord.add_for
            self WorkCoverageRecord.CLASSIFY_OPERATION;
      ret c
    else ret false;
  do summary1 <-
    if choose_summary policy then
      do champion <- evaluate_summary_quality ext identifier_ids
                       (DataSource.LIBRARY_STAFF :: licensed_data_sources);
      run set_summary self champion;
      ret champion
    else ret summary0;
  run if calculate_quality policy
      then work_calculate_quality self identifier_ids
             (default_quality_for licensed_data_sources)
      else ret tt;
  do work1 <- lift (get_work self);
  do changed <- lift (fun _ =>
    changed_flag edition_changed classification_changed
                 summary1 summary_text0 quality0 work1);
  run if changed
      then do t <- utcnow;
           modify (update_work (with_last_update_time (Some t)) self)
      else ret tt;
  run if changed || regenerate_opds_entries policy
      then calculate_opds_entries ext self else ret tt;
  run if changed || update_search_index policy
      then update_external_index ext self else ret tt;
  ret changed.

End Pipeline.

(** ** Work clustering ([Work], [LicensePool]) *)

Module EditionConstants.
Definition BOOK_MEDIUM := "Book".
Definition PERIODICAL_MEDIUM := "Periodical".
Definition AUDIO_MEDIUM := "Audio".
Definition MUSIC_MEDIUM := "Music".
Definition VIDEO_MEDIUM := "Video".
Definition UNKNOWN_AUTHOR := "[Unknown]".
End EditionConstants.

Section Clustering.
Variable ext : Collaborators.

(** The [title_for_permanent_work_id] property; adding the subtitle to
    a null title is a [TypeError]. *)
Definition title_for_permanent_work_id (e : Edition) : result (option string) :=
  if str_truthy (subtitle e) then
    match title e, subtitle e with
    | Some t, Some st => Ok (Some (t ++ ": " ++ st))
    | _, _ => Raise TypeError
    end
  else Ok (title e).

(** The [author_for_permanent_work_id] property. *)
Definition author_for_permanent_work_id (e : Edition) : option string :=
  match author_contributors e with
  | primary :: _ => Some primary
  | [] => if str_truthy (sort_author e) then sort_author e else author e
  end.

(** The chain of [if]/[elif] on the medium binds the local [medium]
    for the five media only. *)
Definition medium_for_permanent_work_id (e : Edition) : result string :=
  match medium e with
  | Some m =>
      if String.eqb m EditionConstants.BOOK_MEDIUM then Ok "book"
      else if String.eqb m EditionConstants.AUDIO_MEDIUM then Ok "book"
      else if String.eqb m EditionConstants.MUSIC_MEDIUM then Ok "music"
      else if String.eqb m EditionConstants.PERIODICAL_MEDIUM then Ok "book"
      else if String.eqb m EditionConstants.VIDEO_MEDIUM then Ok "movie"
      else Raise UnboundLocalError
  | None => Raise UnboundLocalError
  end.

(** [Edition.calculate_permanent_work_id]. *)
Definition calculate_permanent_work_id (e : edition_id) : M State unit :=
  do edition <- lift (get_edition e);
  do title <- lift (fun _ => title_for_permanent_work_id edition);
  if negb (str_truthy title)
  then modify (update_edition (with_permanent_work_id None) e)
  else
    let author := author_for_permanent_work_id edition in
    do kind <- lift (fun _ => medium_for_permanent_work_id edition);
    modify (update_edition
              (with_permanent_work_id
                 (Some (permanent_id ext (default "" title) author kind)))
              e).

(** The presentation edition of a pool, if it has one. *)
Definition presentation_edition_of (pool : LicensePool) (s : State)
  : result (option Edition) :=
  match pool_presentation_edition pool with
  | None => Ok None
  | Some e => let* edition := get_edition e s in Ok (Some edition)
  end.

(** The [pwids] property: a set, kept as a list without repetition. *)
Definition pwids (w : work_id) (s : State) : result (list string) :=
  let* members := members_of w s in
  for_each
    (fun pool acc =>
       let* edition := presentation_edition_of pool s in
       match edition with
       | Some e =>
           match permanent_work_id e with
           | Some pwid =>
               if negb (String.eqb pwid "") && negb (bool_decide (pwid ∈ acc))
               then Ok (acc ++ [pwid])%list else Ok acc
           | None => Ok acc
           end
       | None => Ok acc
       end)
    members [].

Definition same_set (a b : list string) : bool :=
  forallb (fun x => bool_decide (x ∈ b)) a
  && forallb (fun x => bool_decide (x ∈ a)) b.

(** The first of the two guards of [merge_into]. *)
Definition refuse_commercial (w : work_id) (s : State) : result unit :=
  let* members := members_of w s in
  if forallb open_access members then Ok tt else Raise ValueError.

(** [Work.merge_into]. *)
Definition merge_into (fuel : nat) (self other_work : work_id)
  : M State unit :=
  run lift (refuse_commercial self);
  run lift (refuse_commercial other_work);
  do my_pwids <- lift (pwids self);
  do other_pwids <- lift (pwids other_work);
  if negb (same_set my_pwids other_pwids) then raise ValueError
  else
    run for_live fuel (pools_of self) 0
          (fun pool _ => append_pool other_work pool) tt;
    run modify (update_work (with_work_genres []) self);
    run modify (update_work (with_coverage_records []) self);
    run modify (update_work (with_deleted true) self);
    do changed <- calculate_presentation ext fuel other_work default_policy;
    ret tt.

(** The query of [open_access_for_permanent_work_id]: the open-access
    pools whose presentation edition has the given permanent work ID
    and medium, in table order. *)
Fixpoint query_from (n : nat) (pwid wanted_medium : option string)
    (s : State) (ps : list LicensePool) : list pool_id :=
  match ps with
  | [] => []
  | pool :: ps' =>
      let rest := query_from (S n) pwid wanted_medium s ps' in
      match pool_presentation_edition pool with
      | Some e =>
          match editions s !! e with
          | Some edition =>
              if opt_string_eqb (permanent_work_id edition) pwid
                 && open_access pool
                 && opt_string_eqb (medium edition) wanted_medium
              then n :: rest else rest
          | None => rest
          end
      | None => rest
      end
  end.

Definition open_access_pools_for (pwid wanted_medium : option string)
    (s : State) : list pool_id :=
  query_from 0 pwid wanted_medium s (pools s).

(** The tally: a [Counter] from Works to the size of their
    collection. *)
Definition tally_step (s : State) (counter : list (work_id * nat))
    (lp : pool_id) : list (work_id * nat) :=
  match pools s !! lp with
  | Some pool =>
      match pool_work pool with
      | Some w =>
          let seen :=
            existsb (fun wc => (fst wc =? w)%nat && negb (snd wc =? 0)%nat)
                    counter in
          if seen then counter
          else
            List.filter (fun wc => negb (fst wc =? w)%nat) counter
            ++ [(w, List.length (pools_of w s))]
      | None => counter
      end
  | None => counter
  end.

(** [Counter.most_common(1)[0]]: the first entry, in iteration order,
    whose count is not exceeded. *)
Fixpoint first_max (best : work_id * nat) (l : list (work_id * nat))
  : work_id * nat :=
  match l with
  | [] => best
  | wc :: l' =>
      if (snd best <? snd wc)%nat then first_max wc l' else first_max best l'
  end.

(** [Work()] followed by its first use: a fresh row. *)
Definition create_work : M State work_id :=
  do s <- get;
  run modify (with_works (works s ++ [new_work])%list);
  ret (List.length (works s)).

Definition is_unknown_author (a : option string) : bool :=
  match a with
  | None => true
  | Some x => String.eqb x EditionConstants.UNKNOWN_AUTHOR
  end.

(** The three mutually recursive methods.  Each call spends one unit
    of fuel. *)
Fixpoint calculate_work (fuel : nat) (self : pool_id)
    (even_if_no_author : bool) (known_edition : option edition_id)
    {struct fuel} : M State (option work_id * bool) :=
  match fuel with
  | O => exhausted
  | S fuel' =>
    do pool <- lift (get_pool self);
    match pool_identifier pool with
    | None => run assign_work self None; ret (None, false)
    | Some _ =>
      do presentation_edition <-
        match known_edition with
        | Some e => ret (Some e)
        | None =>
            do changed <- pool_set_presentation_edition ext self;
            do pool1 <- lift (get_pool self);
            ret (pool_presentation_edition pool1)
        end;
      match presentation_edition with
      | None => run assign_work self None; ret (None, false)
      | Some e =>
        do s0 <- get;
        if negb (bool_decide (is_presentation_for e s0 = Some self))
        then raise ValueError
        else
        do edition0 <- lift (get_edition e);
        run if negb (str_truthy (title edition0))
               || negb (str_truthy (author edition0))
            then do changed <- edition_calculate_presentation ext e; ret tt
            else ret tt;
        do edition1 <- lift (get_edition e);
        if negb (str_truthy (title edition1))
        then run assign_work self None; ret (None, false)
        else
        do s1 <- get;
        if negb (bool_decide (edition_work e s1 <> None))
           && is_unknown_author (author edition1)
           && negb even_if_no_author
        then run assign_work self None; ret (None, false)
        else
        run calculate_permanent_work_id e;
        do edition2 <- lift (get_edition e);
        do pool2 <- lift (get_pool self);
        do '(work0, is_new0) <-
          if open_access pool2 && str_truthy (permanent_work_id edition2)
          then
            do '(found, is_new) <-
              open_access_for_permanent_work_id
                fuel' (permanent_work_id edition2) (medium edition2);
            match found with
            | None => raise AttributeError
            | Some work =>
                run make_exclusive_open_access_for_permanent_work_id
                      fuel' work (permanent_work_id edition2)
                      (medium edition2);
                run assign_work self (Some work);
                ret (Some work, is_new)
            end
          else ret (None, false);
        do pool3 <- lift (get_pool self);
        do s3 <- get;
        do work1 <-
          match pool_work pool3 with
          | Some w => ret (Some w)
          | None =>
              match edition_work e s3 with
              | Some w => run assign_work self (Some w); ret (Some w)
              | None => ret work0
              end
          end;
        do '(work, is_new) <-
          match work1 with
          | Some w =>
              do s4 <- get;
              run for_ (pools_of w s4)
                    (fun p =>
                       if (p =? self)%nat then ret tt
                       else
                         do me <- lift (get_pool self);
                         do other <- lift (get_pool p);
                         if negb (open_access me && open_access other)
                         then
                           run assign_work p None;
                           do moved <- calculate_work fuel' p false None;
                           ret tt
                         else ret tt);
              ret (w, is_new0)
          | None =>
              do w <- create_work;
              ret (w, true)
          end;
        do s5 <- get;
        run if negb (bool_decide (self ∈ pools_of work s5))
            then append_pool work self else ret tt;
        do changed <- calculate_presentation ext fuel' work default_policy;
        ret (Some work, is_new)
      end
    end
  end

with open_access_for_permanent_work_id (fuel : nat)
    (pwid wanted_medium : option string) {struct fuel}
  : M State (option work_id * bool) :=
  match fuel with
  | O => exhausted
  | S fuel' =>
    do s <- get;
    let licensepools := open_access_pools_for pwid wanted_medium s in
    match licensepools with
    | [] => ret (None, false)
    | _ =>
      let licensepools_for_work := fold_left (tally_step s) licensepools [] in
      do '(work, is_new) <-
        match dict_order ext licensepools_for_work with
        | [] =>
            do w <- create_work;
            ret (w, true)
        | first :: others =>
            let work := fst (first_max first others) in
            run match others with
                | [] => ret tt
                | _ =>
                    run make_exclusive_open_access_for_permanent_work_id
                          fuel' work pwid wanted_medium;
                    for_ (fst <$> dict_order ext licensepools_for_work)
                      (fun needs_merge =>
                         if (needs_merge =? work)%nat then ret tt
                         else
                           run make_exclusive_open_access_for_permanent_work_id
                                 fuel' needs_merge pwid wanted_medium;
                           merge_into fuel' needs_merge work)
                end;
            ret (work, false)
        end;
      run for_ licensepools (fun lp => assign_work lp (Some work));
      ret (Some work, is_new)
    end
  end

with make_exclusive_open_access_for_permanent_work_id (fuel : nat)
    (self : work_id) (pwid wanted_medium : option string) {struct fuel}
  : M State unit :=
  match fuel with
  | O => exhausted
  | S fuel' =>
    do s <- get;
    for_ (pools_of self s)
      (fun p =>
         do pool <- lift (get_pool p);
         do '(other_work, is_new) <-
           if negb (open_access pool) then
             run assign_work p None;
             run match pool_presentation_edition pool with
                 | Some e => clear_edition_work e
                 | None => raise AttributeError
                 end;
             calculate_work fuel' p false None
           else
             match pool_presentation_edition pool with
             | None => run assign_work p None; ret (None, false)
             | Some e =>
                 do edition <- lift (get_edition e);
                 let this_pwid := permanent_work_id edition in
                 if negb (str_truthy this_pwid)
                 then
                   run clear_edition_work e;
                   run assign_work p None;
                   ret (None, false)
                 else if negb (opt_string_eqb this_pwid pwid)
                         || negb (opt_string_eqb (medium edition)
                                                 wanted_medium)
                 then
                   run assign_work p None;
                   run clear_edition_work e;
                   open_access_for_permanent_work_id
                     fuel' this_pwid (medium edition)
                 else ret (None, false)
             end;
         match other_work with
         | Some w =>
             if is_new
             then do changed <- calculate_presentation ext fuel' w
                                  default_policy; ret tt
             else ret tt
         | None => ret tt
         end)
  end.

End Clustering.

(** ** Holds ([Hold]) *)

Module Hold.

(** A row of [holds] with the two columns of its LicensePool that
    [until] reads.  Points in time and periods ([datetime],
    [timedelta]) are counted in one unit. *)
Record t : Type := {
  start : option Z;
  end_ : option Z;
  position : option Z;
  licenses_owned : Z;
  patrons_in_hold_queue : Z
}.

(** [Hold._calculate_until].  [/] and [%] on Python integers are the
    floor division and its remainder, as [Z.div] and [Z.modulo]. *)
Definition _calculate_until (start queue_position total_licenses
    default_loan_period default_reservation_period : Z) : option Z :=
  if (queue_position =? 0)%Z
  then Some (start + default_reservation_period)%Z
  else if (total_licenses =? 0)%Z then None
  else
    let duration := default_loan_period in
    let duration :=
      if (queue_position <? total_licenses)%Z then duration
      else
        let cycle_period :=
          (default_loan_period + default_reservation_period)%Z in
        let cycles := (queue_position / total_licenses)%Z in
        let cycles :=
          if (1 <? total_licenses)%Z
             && (queue_position mod total_licenses =? 0)%Z
          then (cycles - 1)%Z else cycles in
        (duration + cycle_period * cycles)%Z in
    Some (start + duration)%Z.

(** [Hold.until]; [utcnow] is the reading of the clock. *)
Definition until (self : t) (utcnow : Z) (default_loan_period : Z)
    (default_reservation_period : option Z) : option Z :=
  match end_ self with
  | Some e => Some e
  | None =>
      match default_reservation_period with
      | None => None
      | Some reservation_period =>
          let licenses_available := licenses_owned self in
          let queue_position :=
            match position self with
            | Some p => if (p =? 0)%Z then patrons_in_hold_queue self else p
            | None => patrons_in_hold_queue self
            end in
          _calculate_until utcnow queue_position licenses_available
                           default_loan_period reservation_period
      end
  end.

End Hold.

(** ** The quality of a Resource and the choice of a cover
    ([Resource], [Representation]) *)

Module ResourceQuality.

Inductive error : Type := TypeError | ZeroDivisionError.

(** The four quality columns of a row of [resources], all nullable,
    with the data source and the size of the image of the
    Representation, if there is one. *)
Record t : Type := {
  resource_id : nat;
  source_name : string;
  image_size : option (option Z * option Z);
  estimated_quality : option Q;
  voted_quality : option Q;
  votes_for_quality : option Z;
  quality : option Q
}.

Definition with_estimated_quality (v : option Q) (x : t) : t :=
  {| resource_id := resource_id x;
     source_name := source_name x;
     image_size := image_size x;
     estimated_quality := v;
     voted_quality := voted_quality x;
     votes_for_quality := votes_for_quality x;
     quality := quality x |}.

Definition with_voted_quality (v : option Q) (x : t) : t :=
  {| resource_id := resource_id x;
     source_name := source_name x;
     image_size := image_size x;
     estimated_quality := estimated_quality x;
     voted_quality := v;
     votes_for_quality := votes_for_quality x;
     quality := quality x |}.

Definition with_votes_for_quality (v : option Z) (x : t) : t :=
  {| resource_id := resource_id x;
     source_name := source_name x;
     image_size := image_size x;
     estimated_quality := estimated_quality x;
     voted_quality := voted_quality x;
     votes_for_quality := v;
     quality := quality x |}.

Definition with_quality (v : option Q) (x : t) : t :=
  {| resource_id := resource_id x;
     source_name := source_name x;
     image_size := image_size x;
     estimated_quality := estimated_quality x;
     voted_quality := voted_quality x;
     votes_for_quality := votes_for_quality x;
     quality := v |}.

Definition ESTIMATED_QUALITY_WEIGHT : Z := 5.
Definition MINIMUM_IMAGE_QUALITY : Q := 25 # 100.

Definition GUTENBERG_COVER_GENERATOR := "Gutenberg Illustrated".
Definition OPEN_LIBRARY := "Open Library".

(** A method of a Resource: the outcome, [None] for a normal return,
    and the row as the method leaves it. *)
Definition method : Type := t -> option error * t.

(** [x or 0]. *)
Definition or_zero (x : option Q) : Q :=
  match x with
  | Some q => q
  | None => 0
  end.

(** [Resource.update_quality]; the division by [float(total_weight)]
    raises for a total weight of zero.  The quotient is the exact one:
    the float that Python computes is the nearest to it. *)
Definition update_quality : method := fun self =>
  let estimated_weight := ESTIMATED_QUALITY_WEIGHT in
  let votes := default 0%Z (votes_for_quality self) in
  let total_weight := (estimated_weight + votes)%Z in
  let total_quality :=
    or_zero (estimated_quality self) * inject_Z ESTIMATED_QUALITY_WEIGHT
    + or_zero (voted_quality self) * inject_Z votes in
  if (total_weight =? 0)%Z then (Some ZeroDivisionError, self)
  else (None,
        with_quality (Some (total_quality / inject_Z total_weight)) self).

(** [Resource.set_estimated_quality]. *)
Definition set_estimated_quality (estimated : option Q) : method :=
  fun self => update_quality (with_estimated_quality estimated self).

(** [Resource.add_quality_votes].  The product of the two columns is a
    [TypeError] when either is null; the count is written before the
    division that may raise. *)
Definition add_quality_votes (vote : Q) (weight : Z) : method := fun self =>
  match voted_quality self, votes_for_quality self with
  | Some voted, Some votes =>
      let total_quality := voted * inject_Z votes in
      let total_quality := total_quality + vote * inject_Z weight in
      let self := with_votes_for_quality (Some (votes + weight)%Z) self in
      if (votes + weight =? 0)%Z then (Some ZeroDivisionError, self)
      else
        let self :=
          with_voted_quality
            (Some (total_quality / inject_Z (votes + weight))) self in
        update_quality self
  | _, _ => (Some TypeError, self)
  end.

(** *** Covers *)

Definition IDEAL_COVER_ASPECT_RATIO : Q := 2 # 3.
Definition IDEAL_IMAGE_HEIGHT : Z := 240.
Definition IDEAL_IMAGE_WIDTH : Z := 160.

Definition nonzero (x : option Z) : option Z :=
  match x with
  | Some v => if (v =? 0)%Z then None else Some v
  | None => None
  end.

(** [Representation._thumbnail_size_quality_penalty]. *)
Definition _thumbnail_size_quality_penalty (width height : option Z) : Q :=
  let quotient : Q := 1 in
  match nonzero width, nonzero height with
  | Some width, Some height =>
      let aspect_ratio := inject_Z width / inject_Z height in
      let ideal := IDEAL_COVER_ASPECT_RATIO in
      let deviation :=
        if Measurement.Qlt_bool ideal aspect_ratio
        then ideal / aspect_ratio
        else aspect_ratio / ideal in
      let quotient :=
        if negb (Qeq_bool deviation 1) then quotient * deviation
        else quotient in
      let width_shortfall :=
        inject_Z (width - IDEAL_IMAGE_WIDTH) / inject_Z IDEAL_IMAGE_WIDTH in
      let quotient :=
        if Measurement.Qlt_bool width_shortfall 0
        then quotient * (1 + width_shortfall) else quotient in
      let height_shortfall :=
        inject_Z (height - IDEAL_IMAGE_HEIGHT)
        / inject_Z IDEAL_IMAGE_HEIGHT in
      let quotient :=
        if Measurement.Qlt_bool height_shortfall 0
        then quotient * (1 + height_shortfall) else quotient in
      quotient
  | _, _ => quotient
  end.

(** The factor that [quality_as_thumbnail_image] applies for the
    source of the image. *)
Definition source_factor (name : string) : Q :=
  if String.eqb name GUTENBERG_COVER_GENERATOR then 60 # 100
  else if String.eqb name DataSource.GUTENBERG then 50 # 100
  else if String.eqb name OPEN_LIBRARY then 25 # 100
  else match list_index name
               PresentationEdition.PRESENTATION_EDITION_PRIORITY with
       | Some i => inject_Z (Z.of_nat i + 2)
       | None => 1
       end.

(** The [quality_as_thumbnail_image] property: the value, and the row
    with the estimate it has recorded.  Without a Representation the
    value is 0 and nothing is recorded. *)
Definition quality_as_thumbnail_image (self : t) : option error * t * Q :=
  match image_size self with
  | None => (None, self, 0)
  | Some (width, height) =>
      let value := 1 * _thumbnail_size_quality_penalty width height in
      let value := value * source_factor (source_name self) in
      (set_estimated_quality (Some value) self, value)
  end.

(** [Resource.best_covers_among].  The loop carries the champions and
    the score to beat; the resources come back as the property has
    left them.  A champion is held by its key: the list names rows.

    The loop reads [r.quality_as_thumbnail_image] through [property],
    which gives the outcome, the row as the property leaves it and the
    value returned: the loop compares values and does no arithmetic of
    its own, so what it does is the same however the property has
    arrived at them.  The score to beat is not the value returned but
    the quality column of the row, [r.quality], as [update_quality]
    has just set it.  Against a score of [None] any number is greater
    and none is equal. *)
Section best_covers.

Variable property : t -> option error * t * Q.

Fixpoint best_covers_loop (resources : list t) (champions : list nat)
    (champion_score : option Q) (seen : list t)
  : option error * list nat * list t :=
  match resources with
  | [] => (None, champions, seen)
  | r :: rest =>
      match image_size r with
      | None => best_covers_loop rest champions champion_score
                                 (seen ++ [r])%list
      | Some _ =>
          match property r with
          | (Some e, r', _) => (Some e, champions, (seen ++ r' :: rest)%list)
          | (None, r', value) =>
              if negb (Qle_bool MINIMUM_IMAGE_QUALITY value)
              then best_covers_loop rest champions champion_score
                                    (seen ++ [r'])%list
              else
                let beats :=
                  match champions, champion_score with
                  | [], _ => true
                  | _, Some score => Measurement.Qlt_bool score value
                  | _, None => true
                  end in
                if beats
                then best_covers_loop rest [resource_id r] (quality r')
                                      (seen ++ [r'])%list
                else
                  let ties :=
                    match champion_score with
                    | Some score => Qeq_bool value score
                    | None => false
                    end in
                  if ties
                  then best_covers_loop rest
                         (champions ++ [resource_id r])%list champion_score
                         (seen ++ [r'])%list
                  else best_covers_loop rest champions champion_score
                                        (seen ++ [r'])%list
          end
      end
  end.

Definition best_covers_among (resources : list t)
  : option error * list nat * list t :=
  best_covers_loop resources [] None [].

End best_covers.

End ResourceQuality.

(** ** The genres of a Work ([Work.assign_genres_from_weights]) *)

From Stdlib Require Import Qround.

Module WorkGenres.

Inductive error : Type := ZeroDivisionError.

(** A row of [workgenres] of the Work: the genre and the affinity. *)
Definition row : Type := (string * Q)%type.

(** A Python [dict] keyed by genre, as an association list with
    distinct keys. *)
Fixpoint dict_set {V : Type} (k : string) (v : V) (d : list (string * V))
  : list (string * V) :=
  match d with
  | [] => [(k, v)]
  | (k', v') :: d' =>
      if String.eqb k' k then (k', v) :: d' else (k', v') :: dict_set k v d'
  end.

Fixpoint dict_del {V : Type} (k : string) (d : list (string * V))
  : list (string * V) :=
  match d with
  | [] => []
  | (k', v') :: d' =>
      if String.eqb k' k then dict_del k d' else (k', v') :: dict_del k d'
  end.

(** [round(x, 2)], as the number of hundredths: Python 2 rounds a half
    away from zero. *)
Definition round2 (x : Q) : Z :=
  if Qle_bool 0 x then Qfloor (x * 100 + (1 # 2))
  else (- Qfloor (- x * 100 + (1 # 2)))%Z.

Fixpoint sum (values : list Q) : Q :=
  match values with
  | [] => 0
  | v :: values' => v + sum values'
  end.

(** The loop over [genre_weights.items()]. *)
Fixpoint assign_loop (items : list (string * Q)) (total_genre_weight : Q)
    (by_genre : list row) (changed : bool) (workgenres : list row)
  : error + (list row * list row * bool) :=
  match items with
  | [] => inr (workgenres, by_genre, changed)
  | (g, score) :: items' =>
      if Qeq_bool total_genre_weight 0 then inl ZeroDivisionError
      else
        let affinity := score / total_genre_weight in
        match assoc_get g by_genre with
        | Some old =>
            let changed :=
              changed || negb (round2 old =? round2 affinity)%Z in
            assign_loop items' total_genre_weight (dict_del g by_genre)
                        changed (workgenres ++ [(g, affinity)])%list
        | None =>
            assign_loop items' total_genre_weight by_genre true
                        (workgenres ++ [(g, affinity)])%list
        end
  end.

(** [Work.assign_genres_from_weights]: the rows that make up
    [work_genres] afterwards, and the [changed] flag.  The sum of
    the weights and the quotients are the exact ones; for weights
    that are whole numbers the sum is the one Python computes.
    [current_workgenres] are the rows of the Work before the call;
    [genre_weights] is a dict, given by its items, whose keys are
    genres already. *)
Definition assign_genres_from_weights (current_workgenres : list row)
    (genre_weights : list (string * Q)) : error + (list row * bool) :=
  let total_genre_weight := sum (snd <$> genre_weights) in
  let by_genre :=
    fold_left (fun d wg => dict_set (fst wg) (snd wg) d)
              current_workgenres [] in
  match assign_loop genre_weights total_genre_weight by_genre false [] with
  | inl e => inl e
  | inr (workgenres, by_genre, changed) =>
      let changed :=
        match by_genre with
        | [] => changed
        | _ :: _ => true
        end in
      inr (workgenres, changed)
  end.

End WorkGenres.

(** ** Availability of a LicensePool ([LicensePool.update_availability]) *)

Module Availability.

Definition CHECKOUT := "check_out".
Definition CHECKIN := "check_in".
Definition HOLD_PLACE := "hold_place".
Definition HOLD_RELEASE := "hold_release".
Definition LICENSE_ADD := "license_add".
Definition LICENSE_REMOVE := "license_remove".
Definition AVAILABILITY_NOTIFY := "availability_notify".

(** The columns of a row of [licensepools] that the method reads and
    writes, with [last_update_time] of the Work of the pool, if it has
    one. *)
Record t : Type := {
  licenses_owned : option Z;
  licenses_available : option Z;
  licenses_reserved : option Z;
  patrons_in_hold_queue : option Z;
  last_checked : option Z;
  work_last_update_time : option (option Z)
}.

(** A call of [Analytics.collect_event]. *)
Record event : Type := {
  event_name : string;
  event_time : Z;
  old_value : option Z;
  new_value : Z
}.

(** [old_value < new_value] in Python 2, where [None] sorts before
    every number. *)
Definition less (old : option Z) (new : Z) : bool :=
  match old with
  | Some o => (o <? new)%Z
  | None => true
  end.

(** The body of the loop over the four counts. *)
Definition compare_step (as_of : Z) (acc : bool * list event)
    (entry : option Z * option Z * string * option string)
  : bool * list event :=
  let '(old, new, more_event, fewer_event) := entry in
  let '(changes_made, events) := acc in
  match new with
  | None => acc
  | Some new =>
      if bool_decide (old = Some new) then acc
      else
        let name := if less old new then Some more_event else fewer_event in
        match name with
        | None => (true, events)
        | Some name =>
            (true,
             (events ++ [ {| event_name := name;
                             event_time := as_of;
                             old_value := old;
                             new_value := new |} ])%list)
        end
  end.

Definition keep (new old : option Z) : option Z :=
  match new with
  | Some v => Some v
  | None => old
  end.

Definition given (new : option Z) : bool :=
  match new with
  | Some _ => true
  | None => false
  end.

(** [LicensePool.update_availability]: the flag it returns, the row
    as it leaves it, and the events it has collected.  [utcnow] is the
    reading of the clock that stands in for a missing [as_of]. *)
Definition update_availability (self : t)
    (new_licenses_owned new_licenses_available new_licenses_reserved
       new_patrons_in_hold_queue as_of : option Z) (utcnow : Z)
  : bool * t * list event :=
  let as_of := default utcnow as_of in
  let '(changes_made, events) :=
    fold_left (compare_step as_of)
      [ (patrons_in_hold_queue self, new_patrons_in_hold_queue,
         HOLD_PLACE, Some HOLD_RELEASE);
        (licenses_available self, new_licenses_available,
         CHECKIN, Some CHECKOUT);
        (licenses_reserved self, new_licenses_reserved,
         AVAILABILITY_NOTIFY, None);
        (licenses_owned self, new_licenses_owned,
         LICENSE_ADD, Some LICENSE_REMOVE) ]
      (false, []) in
  let any_data :=
    given new_licenses_owned || given new_licenses_available
    || given new_licenses_reserved || given new_patrons_in_hold_queue in
  let stamped := any_data || changes_made in
  (changes_made,
   {| licenses_owned := keep new_licenses_owned (licenses_owned self);
      licenses_available :=
        keep new_licenses_available (licenses_available self);
      licenses_reserved :=
        keep new_licenses_reserved (licenses_reserved self);
      patrons_in_hold_queue :=
        keep new_patrons_in_hold_queue (patrons_in_hold_queue self);
      last_checked := if stamped then Some as_of else last_checked self;
      work_last_update_time :=
        if stamped
        then match work_last_update_time self with
             | Some _ => Some (Some as_of)
             | None => None
             end
        else work_last_update_time self |},
   events).

End Availability.

(** ** The OPDS importer ([OPDSImporter.consolidate_links],
    [OPDSImporter.combine]) *)

Module OPDSImporter.

Definition IMAGE := "http://opds-spec.org/image".
Definition THUMBNAIL_IMAGE := "http://opds-spec.org/image/thumbnail".

Inductive error : Type := ValueError | AttributeError.

(** A [LinkData] object: [link_id] stands for the identity of the
    object, [thumbnail] names the object held in its [thumbnail]
    attribute. *)
Record LinkData : Type := {
  link_id : nat;
  rel : string;
  thumbnail : option nat
}.

Definition is_thumbnail (link : LinkData) : bool :=
  String.eqb (rel link) THUMBNAIL_IMAGE.

Definition is_image (link : LinkData) : bool :=
  String.eqb (rel link) IMAGE.

(** [new_links.remove(x)]: the first occurrence goes; [ValueError]
    when there is none. *)
Fixpoint remove (x : nat) (l : list LinkData) : option (list LinkData) :=
  match l with
  | [] => None
  | y :: l' =>
      if (link_id y =? x)%nat then Some l'
      else match remove x l' with
           | Some r => Some (y :: r)
           | None => None
           end
  end.

(** [image_link.thumbnail = thumbnail_link]: the object changes
    wherever the list holds it. *)
Definition set_thumbnail (image_link thumbnail_link : nat)
    (l : list LinkData) : list LinkData :=
  (fun y =>
     if (link_id y =? image_link)%nat
     then {| link_id := link_id y;
             rel := rel y;
             thumbnail := Some thumbnail_link |}
     else y) <$> l.

(** The loop over [enumerate(links)], on what is left of [links]; it
    changes [new_links] in place. *)
Fixpoint consolidate_loop (links : list LinkData)
    (next_link_already_handled : bool) (new_links : list LinkData)
  : error + list LinkData :=
  match links with
  | [] => inr new_links
  | link :: rest =>
      if negb (is_thumbnail link || is_image link)
      then consolidate_loop rest next_link_already_handled new_links
      else if next_link_already_handled
      then consolidate_loop rest false new_links
      else
        match rest with
        | [] => consolidate_loop rest next_link_already_handled new_links
        | next_link :: _ =>
            let pair :=
              if is_thumbnail link && is_image next_link
              then Some (link, next_link)
              else if is_image link && is_thumbnail next_link
              then Some (next_link, link)
              else None in
            match pair with
            | None =>
                consolidate_loop rest next_link_already_handled new_links
            | Some (thumbnail_link, image_link) =>
                let new_links :=
                  set_thumbnail (link_id image_link) (link_id thumbnail_link)
                                new_links in
                match remove (link_id thumbnail_link) new_links with
                | None => inl ValueError
                | Some new_links => consolidate_loop rest true new_links
                end
            end
        end
  end.

(** [OPDSImporter.consolidate_links]; a link that did not become a
    [LinkData] object is [None]. *)
Definition consolidate_links (links : list (option LinkData))
  : error + list LinkData :=
  let new_links := omap id links in
  let links := new_links in
  consolidate_loop links false new_links.

(** *** [OPDSImporter.combine] *)

(** The values of the keyword dictionaries: [None], a list, or any
    other object. *)
Inductive value : Type :=
  | VNone
  | VList (items : list nat)
  | VOther (object : nat).

Abbreviation dict := (gmap string value) (only parsing).

(** [not d]: the argument is [None] or an empty dict. *)
Definition falsy (d : option dict) : bool :=
  match d with
  | Some m => bool_decide (m = ∅)
  | None => true
  end.

(** The body of the loop over [d2.items()].  [new_dict] is a shallow
    copy of [d1]: under a key of [d1] the two hold the same list
    object, and [extend] changes it for both. *)
Definition combine_step (acc : error + (dict * dict)) (item : string * value)
  : error + (dict * dict) :=
  match acc with
  | inl e => inl e
  | inr (new_dict, d1) =>
      let '(k, v) := item in
      match new_dict !! k, v with
      | Some old, VList l =>
          match old with
          | VList l0 =>
              inr (<[k := VList (l0 ++ l)]> new_dict,
                   <[k := VList (l0 ++ l)]> d1)
          | _ => inl AttributeError
          end
      | Some old, VNone => inr (new_dict, d1)
      | _, _ => inr (<[k := v]> new_dict, d1)
      end
  end.

(** [OPDSImporter.combine]: the dictionary it returns, and [d1] as the
    call leaves it. *)
Definition combine (d1 d2 : option dict) : error + (dict * option dict) :=
  if falsy d1 && falsy d2 then inr (∅, d1)
  else if falsy d1 then inr (default ∅ d2, d1)
  else if falsy d2 then inr (default ∅ d1, d1)
  else
    match fold_left combine_step (map_to_list (default ∅ d2))
                    (inr (default ∅ d1, default ∅ d1)) with
    | inl e => inl e
    | inr (new_dict, d1') => inr (new_dict, Some d1')
    end.

End OPDSImporter.

(** ** Target ages ([numericrange_to_tuple]) *)

Module NumericRange.

(** A [psycopg2.extras.NumericRange] over the integers. *)
Record t : Type := {
  lower : option Z;
  upper : option Z;
  lower_inc : bool;
  upper_inc : bool
}.

(** The test of [if lower and not r.lower_inc]: a bound that is
    neither [None] nor 0. *)
Definition truthy (bound : option Z) : bool :=
  match bound with
  | Some b => negb (b =? 0)%Z
  | None => false
  end.

(** [numericrange_to_tuple]. *)
Definition numericrange_to_tuple (r : option t) : option Z * option Z :=
  match r with
  | None => (None, None)
  | Some r =>
      let lower :=
        if truthy (lower r) && negb (lower_inc r)
        then (fun b => b - 1)%Z <$> lower r else lower r in
      let upper :=
        if truthy (upper r) && negb (upper_inc r)
        then (fun b => b - 1)%Z <$> upper r else upper r in
      (lower, upper)
  end.

End NumericRange.
(** ** The coverage records of Works ([WorkCoverageRecord]) *)

Module WorkCoverageRecords.

Definition SUCCESS := "success".

(** A row of [workcoveragerecords]. *)
Record t : Type := {
  work_id : nat;
  operation : string;
  timestamp : option nat;
  status : option string;
  exception : option string
}.

(** The session: the rows of the table, each known by its place, and
    the clock. *)
Record db : Type := {
  rows : list t;
  clock : nat
}.

Definition with_rows (v : list t) (d : db) : db :=
  {| rows := v; clock := clock d |}.

(** [datetime.datetime.utcnow()]: every reading is later than the one
    before. *)
Definition utcnow (d : db) : nat * db :=
  (clock d, {| rows := rows d; clock := S (clock d) |}).

(** [coverage_record.status = status] and
    [coverage_record.timestamp = timestamp]. *)
Definition stamp (timestamp : nat) (status : string) (r : t) : t :=
  {| work_id := work_id r;
     operation := operation r;
     timestamp := Some timestamp;
     status := Some status;
     exception := exception r |}.

(** [WorkCoverageRecord(work=work, operation=operation)]. *)
Definition new (work : nat) (operation : string) : t :=
  {| work_id := work;
     operation := operation;
     timestamp := None;
     status := None;
     exception := None |}.

Definition filter_by (work : nat) (operation : string) (r : t) : bool :=
  (work_id r =? work)%nat && String.eqb (WorkCoverageRecords.operation r) operation.

(** [get_one] with [on_multiple='interchangeable']: the row found, or
    the first of them if there are several. *)
Fixpoint get_one (work : nat) (operation : string) (l : list t)
  : option nat :=
  match l with
  | [] => None
  | r :: l' =>
      if filter_by work operation r then Some 0%nat
      else S <$> get_one work operation l'
  end.

(** [get_one_or_create], in a session that no other session races. *)
Definition get_one_or_create (work : nat) (operation : string) (d : db)
  : nat * bool * db :=
  match get_one work operation (rows d) with
  | Some one => (one, false, d)
  | None =>
      (List.length (rows d), true,
       with_rows (rows d ++ [new work operation])%list d)
  end.

(** [WorkCoverageRecord.add_for].  The clock is read only if no
    timestamp is passed. *)
Definition add_for (work : nat) (operation : string)
    (timestamp : option nat) (status : string) (d : db)
  : nat * bool * db :=
  let '(timestamp, d) :=
    match timestamp with
    | Some timestamp => (timestamp, d)
    | None => utcnow d
    end in
  let '(coverage_record, is_new, d) := get_one_or_create work operation d in
  let d := with_rows (alter (stamp timestamp status) coverage_record (rows d))
                     d in
  (coverage_record, is_new, d).

End WorkCoverageRecords.

From Stdlib Require Import Lqa.


(** * Properties *)

(** ** Quality aggregation *)

Module MeasurementFacts.
Import Measurement.


Definition total_weight (vws : list (Q * Q)) : Q :=
  foldr (fun vw acc => snd vw + acc) 0 vws.



Definition m40 : t :=
  {| quantity_measured := POPULARITY;
     data_source_name := DataSource.OVERDRIVE;
     value := Some (35 # 1);
     _normalized_value := None;
     weight := 1 |}.









(** *** Quality rows as the code writes them *)






Definition m_rating : t :=
  {| quantity_measured := RATING;
     data_source_name := DataSource.OVERDRIVE;
     value := Some (4 # 1);
     _normalized_value := None;
     weight := 1 |}.

Definition m_quality : t :=
  {| quantity_measured := QUALITY;
     data_source_name := DataSource.METADATA_WRANGLER;
     value := Some (1 # 2);
     _normalized_value := None;
     weight := 1 |}.




End MeasurementFacts.

(** ** Open-access link selection *)

Module LinkFacts.

Definition from_gutenberg (r : Resource) : bool :=
  String.eqb (resource_data_source r) DataSource.GUTENBERG.

(** The selection with the priority comparison left out: a supported
    candidate replaces the current best only when there is none, or by
    the Gutenberg 'noimages' rule. *)
Definition pick_step (resource : Resource) (best : option Resource)
  : result (option Resource) :=
  if negb (supported_media_type resource) then Ok best
  else
    match best with
    | None => Ok (Some resource)
    | Some b =>
        if from_gutenberg b && from_gutenberg resource then
          let* best_stripped := noimages_in_mirror_url b in
          if best_stripped then
            let* resource_stripped := noimages_in_mirror_url resource in
            if negb resource_stripped then Ok (Some resource) else Ok best
          else Ok best
        else Ok best
    end.


Definition epub : Representation :=
  {| media_type := Some Representation.EPUB_MEDIA_TYPE;
     mirror_url := Some "http://mirror/book.epub";
     unicode_content := None |}.



Definition r_standard : Resource :=
  {| url := "http://standardebooks.org/book.epub";
     resource_data_source := DataSource.STANDARD_EBOOKS;
     representation := Some epub |}.


Definition r_gutenberg_images : Resource :=
  {| url := "http://gutenberg.org/1.epub.images";
     resource_data_source := DataSource.GUTENBERG;
     representation := Some epub |}.

Definition gutenberg_pool (links : list Resource) : LicensePool :=
  {| pool_identifier :=
       Some {| identifier_id := 1;
               identifier_type := "Gutenberg ID";
               identifier := "1" |};
     pool_data_source := DataSource.GUTENBERG;
     open_access := true;
     superceded := false;
     suppressed := false;
     pool_work := None;
     pool_presentation_edition := None;
     open_access_links := links |}.

Lemma best_link_step_pick (self : LicensePool) (r : Resource)
    (best : option Resource) (bp : Z) :
  (best <> None -> bp = open_access_source_priority self) ->
  match best_link_step self r (best, bp) with
  | Ok (best', bp') =>
      pick_step r best = Ok best' /\
      (best' <> None -> bp' = open_access_source_priority self)
  | Raise e => pick_step r best = Raise e
  end.
Proof.
  intros Hbp. unfold best_link_step, pick_step, from_gutenberg.
  destruct (supported_media_type r); simpl; [|done].
  destruct best as [b|]; [|done].
  rewrite (Hbp ltac:(done)), Z.ltb_irrefl.
  destruct (String.eqb (resource_data_source b) DataSource.GUTENBERG
            && String.eqb (resource_data_source r) DataSource.GUTENBERG);
    [|done].
  destruct (noimages_in_mirror_url b) as [[]|]; simpl; try done.
  destruct (noimages_in_mirror_url r) as [[]|]; simpl; done.
Qed.

Lemma best_link_loop_pick (self : LicensePool) (links : list Resource) :
  forall (best : option Resource) (bp : Z),
  (best <> None -> bp = open_access_source_priority self) ->
  (let* acc := for_each (best_link_step self) links (best, bp) in
   Ok (fst acc))
  = for_each pick_step links best.
Proof.
  induction links as [|r links IH]; intros best bp Hbp; [done|].
  cbn [for_each].
  pose proof (best_link_step_pick self r best bp Hbp) as H.
  destruct (best_link_step self r (best, bp)) as [[best' bp']|].
  - destruct H as [-> Hbp']. cbn [rbind]. by apply IH.
  - by rewrite H.
Qed.





End LinkFacts.

(** ** Champion and superseded marking *)

Module ChampionFacts.

Lemma get_pool_ok (s : State) (p : pool_id) (pool : LicensePool) :
  get_pool p s = Ok pool <-> pools s !! p = Some pool.
Proof. unfold get_pool. destruct (pools s !! p); split; congruence. Qed.

Lemma lookup_update_pool (f : LicensePool -> LicensePool) (p q : pool_id)
    (s : State) :
  pools (update_pool f p s) !! q
  = if decide (p = q) then f <$> pools s !! q else pools s !! q.
Proof.
  unfold update_pool. simpl. rewrite list_lookup_alter.
  repeat case_decide; by subst.
Qed.

Lemma open_access_update_superceded (b : bool) (p q : pool_id) (s : State) :
  open_access <$> pools (update_pool (with_superceded b) p s) !! q
  = open_access <$> pools s !! q.
Proof.
  rewrite lookup_update_pool. case_decide; [|done].
  by destruct (pools s !! q).
Qed.

Lemma suppressed_never_better (self : LicensePool)
    (champion : option LicensePool) :
  suppressed self = true \/ pool_identifier self = None ->
  better_open_access_pool_than self champion = Ok false.
Proof.
  unfold better_open_access_pool_than.
  intros [H| ->]; [|done]. rewrite H. by destruct (pool_identifier self).
Qed.

Lemma better_is_open_access (self : LicensePool)
    (champion : option LicensePool) :
  better_open_access_pool_than self champion = Ok true ->
  open_access self = true /\ suppressed self = false.
Proof.
  unfold better_open_access_pool_than.
  destruct (pool_identifier self); [|done].
  destruct (suppressed self); [done|].
  by destruct (open_access self).
Qed.

(** The three ways a turn of the loop can end. *)
Lemma mark_step_cases (p : pool_id) (c c' : option pool_id) (s s' : State) :
  mark_step p c s = (Return c', s') ->
  exists pool, pools s !! p = Some pool /\
    ((open_access pool = false /\ c' = c /\
      s' = update_pool (with_superceded false) p s) \/
     (open_access pool = true /\ c' = Some p /\
      s' = update_pool (with_superceded false) p
             (match c with
              | Some c0 => update_pool (with_superceded true) c0 s
              | None => s
              end)) \/
     (open_access pool = true /\ c' = c /\
      s' = update_pool (with_superceded true) p s)).
Proof.
  unfold mark_step, bind, lift, modify, ret. intros H.
  destruct (get_pool p s) as [pool|] eqn:Hp; [|done].
  apply get_pool_ok in Hp. exists pool. split; [done|].
  destruct (open_access pool); simpl in H.
  - right.
    destruct c as [c0|].
    + destruct (get_pool c0 s) as [cp|]; [|done].
      destruct (better_open_access_pool_than pool (Some cp)) as [[]|];
        inversion H; subst; auto.
    + destruct (better_open_access_pool_than pool None) as [[]|];
        inversion H; subst; auto.
  - left. inversion H; subst. auto.
Qed.

(** What the marking loop maintains over the pools it has visited. *)
Record marked (s0 s : State) (visited : list pool_id)
    (champion : option pool_id) : Prop := {
  marked_frame : forall q,
    open_access <$> pools s !! q = open_access <$> pools s0 !! q;
  marked_rest : with_pools (pools s0) s = s0;
  marked_flags : forall p, p ∈ visited ->
    exists pool, pools s !! p = Some pool /\
      if open_access pool
      then champion <> Some p -> superceded pool = true
      else superceded pool = false;
  marked_champion : forall c, champion = Some c ->
    c ∈ visited /\
    exists pool, pools s !! c = Some pool /\ open_access pool = true
}.

Definition champion_kept (s : State) (champion : option pool_id) : Prop :=
  forall c, champion = Some c ->
  exists pool, pools s !! c = Some pool /\ superceded pool = false.

Lemma mark_step_marked (s0 s s' : State) (visited : list pool_id)
    (c c' : option pool_id) (p : pool_id) :
  marked s0 s visited c ->
  mark_step p c s = (Return c', s') ->
  marked s0 s' (visited ++ [p]) c'.
Proof.
  intros [Hframe Hrest Hflags Hchamp] Hstep.
  destruct (mark_step_cases _ _ _ _ _ Hstep)
    as (pool & Hp & [(Hoa & -> & ->)|[(Hoa & -> & ->)|(Hoa & -> & ->)]]).
  - (* a pool that is not open-access *)
    split.
    + intros q. by rewrite open_access_update_superceded.
    + done.
    + intros q Hq. rewrite lookup_update_pool.
      destruct (decide (p = q)) as [<-|Hne].
      * exists (with_superceded false pool). rewrite Hp.
        split; [done|]. simpl. by rewrite Hoa.
      * apply elem_of_app in Hq as [Hq|Hq];
          [|apply list_elem_of_singleton in Hq; congruence].
        by apply Hflags.
    + intros x Hx. destruct (Hchamp x Hx) as (Hin & pc & Hpc & Hpcoa).
      split; [apply elem_of_app; by left|].
      rewrite lookup_update_pool.
      destruct (decide (p = x)) as [<-|Hne]; [|by exists pc].
      exists (with_superceded false pc). by rewrite Hpc.
  - (* the challenger becomes the champion *)
    set (s1 := match c with
               | Some c0 => update_pool (with_superceded true) c0 s
               | None => s
               end).
    assert (Hs1 : forall q, pools s1 !! q
                  = match c with
                    | Some c0 => if decide (c0 = q)
                                 then with_superceded true <$> pools s !! q
                                 else pools s !! q
                    | None => pools s !! q
                    end).
    { intros q. subst s1. destruct c; [apply lookup_update_pool|done]. }
    split.
    + intros q. rewrite open_access_update_superceded, <- Hframe.
      subst s1. destruct c; [apply open_access_update_superceded|done].
    + subst s1. by destruct c.
    + intros q Hq. rewrite lookup_update_pool.
      destruct (decide (p = q)) as [<-|Hne].
      * rewrite Hs1. exists (with_superceded false
             (match c with
              | Some c0 => if decide (c0 = p)
                           then with_superceded true pool else pool
              | None => pool
              end)).
        split.
        -- destruct c as [c0|]; [case_decide|]; by rewrite Hp.
        -- simpl. destruct c as [c0|]; [case_decide|]; simpl;
             rewrite Hoa; done.
      * apply elem_of_app in Hq as [Hq|Hq];
          [|apply list_elem_of_singleton in Hq; congruence].
        destruct (Hflags q Hq) as (pq & Hpq & Hfl). rewrite Hs1.
        destruct c as [c0|].
        -- destruct (decide (c0 = q)) as [->|Hcq].
           ++ exists (with_superceded true pq). rewrite Hpq.
              split; [done|]. simpl. destruct (Hchamp q eq_refl)
                as (_ & pc & Hpc & Hpcoa).
              assert (pc = pq) by congruence. subst pc.
              by rewrite Hpcoa.
           ++ exists pq. split; [done|].
              destruct (open_access pq); [|done].
              intros _. apply Hfl. congruence.
        -- exists pq. split; [done|].
           destruct (open_access pq); [|done]. intros _. by apply Hfl.
    + intros x [= <-]. split; [apply elem_of_app; right; by left|].
      rewrite lookup_update_pool, decide_True by done. rewrite Hs1.
      exists (with_superceded false
             (match c with
              | Some c0 => if decide (c0 = p)
                           then with_superceded true pool else pool
              | None => pool
              end)).
      split.
      * destruct c as [c0|]; [case_decide|]; by rewrite Hp.
      * simpl. destruct c as [c0|]; [case_decide|]; done.
  - (* the challenger is superseded *)
    split.
    + intros q. by rewrite open_access_update_superceded.
    + done.
    + intros q Hq. rewrite lookup_update_pool.
      destruct (decide (p = q)) as [<-|Hne].
      * exists (with_superceded true pool). rewrite Hp.
        split; [done|]. simpl. by rewrite Hoa.
      * apply elem_of_app in Hq as [Hq|Hq];
          [|apply list_elem_of_singleton in Hq; congruence].
        by apply Hflags.
    + intros x Hx. destruct (Hchamp x Hx) as (Hin & pc & Hpc & Hpcoa).
      split; [apply elem_of_app; by left|].
      rewrite lookup_update_pool.
      destruct (decide (p = x)) as [<-|Hne]; [|by exists pc].
      exists (with_superceded true pc). by rewrite Hpc.
Qed.

Lemma mark_step_champion_kept (s0 s s' : State) (visited : list pool_id)
    (c c' : option pool_id) (p : pool_id) :
  marked s0 s visited c ->
  p ∉ visited ->
  champion_kept s c ->
  mark_step p c s = (Return c', s') ->
  champion_kept s' c'.
Proof.
  intros Hm Hnew Hkept Hstep.
  assert (Hpc : forall x, c = Some x -> p <> x).
  { intros x Hx ->. apply Hnew. by apply (marked_champion _ _ _ _ Hm). }
  destruct (mark_step_cases _ _ _ _ _ Hstep)
    as (pool & Hp & [(Hoa & -> & ->)|[(Hoa & -> & ->)|(Hoa & -> & ->)]]).
  - intros x Hx. rewrite lookup_update_pool, decide_False by by apply Hpc.
    by apply Hkept.
  - intros x [= <-]. rewrite lookup_update_pool, decide_True by done.
    destruct c as [c0|].
    + rewrite lookup_update_pool, decide_False, Hp
        by (intros ->; by eapply Hpc).
      by eexists.
    + rewrite Hp. by eexists.
  - intros x Hx. rewrite lookup_update_pool, decide_False by by apply Hpc.
    by apply Hkept.
Qed.

Lemma mark_loop_marked (s0 : State) (l : list pool_id) :
  forall (s s' : State) (visited : list pool_id) (c c' : option pool_id),
  marked s0 s visited c ->
  mark_loop l c s = (Return c', s') ->
  marked s0 s' (visited ++ l) c' /\
  (NoDup (visited ++ l) -> champion_kept s c -> champion_kept s' c').
Proof.
  unfold mark_loop.
  induction l as [|p l IH]; intros s s' visited c c' Hm Hloop.
  - inversion Hloop; subst. by rewrite app_nil_r.
  - cbn [fold_] in Hloop. unfold bind at 1 in Hloop.
    destruct (mark_step p c s) as [[c1| |] s1] eqn:Hstep; try done.
    pose proof (mark_step_marked _ _ _ _ _ _ _ Hm Hstep) as Hm1.
    destruct (IH _ _ _ _ _ Hm1 Hloop) as [Hm' Hkept'].
    rewrite <- app_assoc in Hm', Hkept'. simpl in Hm', Hkept'.
    split; [done|]. intros Hnd Hkept. apply Hkept'; [done|].
    eapply mark_step_champion_kept; [exact Hm| |exact Hkept|exact Hstep].
    apply list.NoDup_app in Hnd as (_ & Hdisj & _). intros Hin.
    apply (Hdisj p Hin). by left.
Qed.

Lemma marked_start (s : State) : marked s s [] None.
Proof.
  split; try done.
  - by destruct s.
  - intros p Hp. by apply elem_of_nil in Hp.
Qed.

(** C1: after [mark_licensepools_as_superceded] has run on a Work,
    every pool of the Work that is not open-access has
    [superceded = False], every open-access pool of the Work other than
    the champion accumulated by the loop has [superceded = True], so at
    most one open-access pool of the Work has [superceded = False]; the
    champion is an open-access pool of the Work and, the pools of a
    Work being distinct, has [superceded = False]. *)
Theorem mark_licensepools_as_superceded_champion
    (s s' : State) (w : work_id) (work : Work) :
  works s !! w = Some work ->
  mark_licensepools_as_superceded w s = (Return tt, s') ->
  exists champion : option pool_id,
    mark_loop (license_pools work) None s = (Return champion, s') /\
    (forall p, p ∈ license_pools work ->
       exists pool, pools s' !! p = Some pool /\
         open_access <$> pools s !! p = Some (open_access pool) /\
         if open_access pool
         then champion <> Some p -> superceded pool = true
         else superceded pool = false) /\
    (forall p q pp pq,
       p ∈ license_pools work -> q ∈ license_pools work ->
       pools s' !! p = Some pp -> pools s' !! q = Some pq ->
       open_access pp = true -> open_access pq = true ->
       superceded pp = false -> superceded pq = false -> p = q) /\
    (forall c, champion = Some c ->
       c ∈ license_pools work /\
       exists pool, pools s' !! c = Some pool /\ open_access pool = true /\
         (NoDup (license_pools work) -> superceded pool = false)) /\
    with_pools (pools s) s' = s.
Proof.
  intros Hw Hmark.
  unfold mark_licensepools_as_superceded, bind, lift, get_work, ret in Hmark.
  rewrite Hw in Hmark.
  destruct (mark_loop (license_pools work) None s) as [[champion| |] s1]
    eqn:Hloop; try done.
  inversion Hmark; subst s1; clear Hmark.
  destruct (mark_loop_marked s _ _ _ _ _ _ (marked_start s) Hloop)
    as [[Hframe Hrest Hflags Hchamp] Hkept].
  simpl in *.
  assert (Hall : forall p, p ∈ license_pools work ->
       exists pool, pools s' !! p = Some pool /\
         open_access <$> pools s !! p = Some (open_access pool) /\
         if open_access pool
         then champion <> Some p -> superceded pool = true
         else superceded pool = false).
  { intros p Hp. destruct (Hflags p Hp) as (pool & Hpool & Hfl).
    exists pool. split; [done|]. split; [|done].
    by rewrite <- Hframe, Hpool. }
  exists champion. split; [done|]. split; [done|]. split; [|split].
  - intros p q pp pq Hp Hq Hpp Hpq Hoap Hoaq Hsp Hsq.
    destruct (Hall p Hp) as (pp' & Hpp' & _ & Hflp).
    destruct (Hall q Hq) as (pq' & Hpq' & _ & Hflq).
    assert (pp' = pp) by congruence. assert (pq' = pq) by congruence.
    subst pp' pq'. rewrite Hoap in Hflp. rewrite Hoaq in Hflq.
    destruct (decide (champion = Some p)) as [Hcp|Hcp];
      [|specialize (Hflp Hcp); congruence].
    destruct (decide (champion = Some q)) as [Hcq|Hcq];
      [|specialize (Hflq Hcq); congruence].
    congruence.
  - intros c Hc. destruct (Hchamp c Hc) as (Hin & pool & Hpool & Hoa).
    split; [done|]. exists pool. split; [done|]. split; [done|].
    intros Hnd. destruct (Hkept Hnd ltac:(by intros ?) c Hc)
      as (pool' & Hpool' & Hsup).
    congruence.
  - exact Hrest.
Qed.

Definition gutenberg_identifier (n : nat) (number : string) : Identifier :=
  {| identifier_id := n;
     identifier_type := "Gutenberg ID";
     identifier := number |}.

Definition sample_pool (ident : Identifier) (source : string)
    (is_open_access is_suppressed : bool) : LicensePool :=
  {| pool_identifier := Some ident;
     pool_data_source := source;
     open_access := is_open_access;
     superceded := false;
     suppressed := is_suppressed;
     pool_work := Some 0%nat;
     pool_presentation_edition := None;
     open_access_links := [ LinkFacts.r_gutenberg_images ] |}.

Definition sample_state (ps : list LicensePool) (members : list pool_id)
  : State :=
  {| pools := ps;
     editions := [];
     works := [ with_license_pools members new_work ];
     identifier_table := [];
     equivalents := [];
     measurements := [];
     now := 0 |}.

(** Gutenberg 10, Standard Ebooks, Gutenberg 20 and an Overdrive
    (commercial) pool in one Work. *)
Definition four_pools : State :=
  sample_state
    [ sample_pool (gutenberg_identifier 1 "10") DataSource.GUTENBERG
                  true false;
      sample_pool (gutenberg_identifier 2 "se-1") DataSource.STANDARD_EBOOKS
                  true false;
      sample_pool (gutenberg_identifier 3 "20") DataSource.GUTENBERG
                  true false;
      sample_pool (gutenberg_identifier 4 "od-1") DataSource.OVERDRIVE
                  false false ]
    [0; 1; 2; 3]%nat.

Definition four_pools_marked : State :=
  sample_state
    [ with_superceded true
        (sample_pool (gutenberg_identifier 1 "10") DataSource.GUTENBERG
                     true false);
      sample_pool (gutenberg_identifier 2 "se-1") DataSource.STANDARD_EBOOKS
                  true false;
      with_superceded true
        (sample_pool (gutenberg_identifier 3 "20") DataSource.GUTENBERG
                     true false);
      sample_pool (gutenberg_identifier 4 "od-1") DataSource.OVERDRIVE
                  false false ]
    [0; 1; 2; 3]%nat.

Lemma mark_licensepools_as_superceded_champion_witness :
  exists champion : option pool_id,
    mark_loop [0; 1; 2; 3]%nat None four_pools
    = (Return champion, four_pools_marked) /\
    champion = Some 1%nat.
Proof.
  destruct (mark_licensepools_as_superceded_champion
              four_pools four_pools_marked 0%nat
              (with_license_pools [0; 1; 2; 3]%nat new_work)
              eq_refl eq_refl) as (champion & Hloop & _).
  exists champion. split; [exact Hloop|].
  vm_compute in Hloop. congruence.
Defined.

Lemma mark_loop_all_suppressed (l : list pool_id) :
  forall s : State,
  (forall p, p ∈ l ->
     exists pool, pools s !! p = Some pool /\
       (open_access pool = true -> suppressed pool = true)) ->
  exists s', mark_loop l None s = (Return None, s').
Proof.
  unfold mark_loop. induction l as [|p l IH]; intros s Hall.
  - by exists s.
  - cbn [fold_]. destruct (Hall p ltac:(by left)) as (pool & Hp & Hsup).
    assert (Hnext : forall b,
      exists s', fold_ l mark_step None
                   (update_pool (with_superceded b) p s)
                 = (Return None, s')).
    { intros b. apply IH. intros q Hq.
      destruct (Hall q ltac:(by right)) as (pq & Hpq & Hsq).
      rewrite lookup_update_pool. case_decide; [|by exists pq].
      exists (with_superceded b pq). by rewrite Hpq. }
    unfold bind at 1, mark_step, bind, lift, modify, ret, get_pool.
    rewrite Hp.
    destruct (open_access pool) eqn:Hoa; cbn [negb].
    + rewrite suppressed_never_better by (left; by apply Hsup).
      apply Hnext.
    + apply Hnext.
Qed.

(** C10: a suppressed pool, or one without an Identifier, is never
    better than any champion, not even than no champion at all; and
    when every open-access pool of a Work is suppressed,
    [mark_licensepools_as_superceded] ends with no champion and with
    every open-access pool of the Work marked superseded. *)
Theorem suppressed_pool_never_champion (s : State) (w : work_id) (work : Work) :
  (forall self champion,
     suppressed self = true \/ pool_identifier self = None ->
     better_open_access_pool_than self champion = Ok false) /\
  (works s !! w = Some work ->
   (forall p, p ∈ license_pools work ->
      exists pool, pools s !! p = Some pool /\
        (open_access pool = true -> suppressed pool = true)) ->
   exists s',
     mark_licensepools_as_superceded w s = (Return tt, s') /\
     mark_loop (license_pools work) None s = (Return None, s') /\
     forall p, p ∈ license_pools work ->
       exists pool, pools s' !! p = Some pool /\
         open_access <$> pools s !! p = Some (open_access pool) /\
         (open_access pool = true -> superceded pool = true)).
Proof.
  split; [apply suppressed_never_better|].
  intros Hw Hall.
  destruct (mark_loop_all_suppressed _ s Hall) as (s' & Hloop).
  exists s'. split; [|split; [done|]].
  - unfold mark_licensepools_as_superceded, bind, lift, get_work, ret.
    by rewrite Hw, Hloop.
  - destruct (mark_loop_marked s _ _ _ _ _ _ (marked_start s) Hloop)
      as [[Hframe _ Hflags _] _].
    intros p Hp. destruct (Hflags p Hp) as (pool & Hpool & Hfl).
    exists pool. split; [done|]. split; [by rewrite <- Hframe, Hpool|].
    intros Hoa. rewrite Hoa in Hfl. by apply Hfl.
Qed.

(** Two suppressed open-access pools and a commercial pool. *)
Definition all_suppressed : State :=
  sample_state
    [ sample_pool (gutenberg_identifier 1 "10") DataSource.GUTENBERG
                  true true;
      sample_pool (gutenberg_identifier 2 "se-1") DataSource.STANDARD_EBOOKS
                  true true;
      sample_pool (gutenberg_identifier 4 "od-1") DataSource.OVERDRIVE
                  false false ]
    [0; 1; 2]%nat.

Lemma suppressed_pool_never_champion_witness :
  exists s',
    mark_licensepools_as_superceded 0%nat all_suppressed = (Return tt, s') /\
    (superceded <$> pools s' !! 0%nat) = Some true /\
    (superceded <$> pools s' !! 1%nat) = Some true /\
    (open_access <$> pools s' !! 0%nat) = Some true /\
    (open_access <$> pools s' !! 1%nat) = Some true.
Proof.
  destruct (suppressed_pool_never_champion all_suppressed 0%nat
              (with_license_pools [0; 1; 2]%nat new_work)) as [_ H].
  destruct (H eq_refl) as (s' & Hmark & _ & _).
  - intros p Hp. vm_compute in Hp.
    repeat (apply elem_of_cons in Hp as [->|Hp];
            [eexists; split; [reflexivity|]; simpl; by intros|]).
    by apply elem_of_nil in Hp.
  - exists s'. split; [exact Hmark|].
    vm_compute in Hmark. inversion Hmark. repeat split.
Defined.

End ChampionFacts.

(** ** Identity graph *)

Module EquivalentsFacts.
Import Equivalents.

(** Two identifiers joined by an edge of sufficient strength, in either
    direction. *)
Definition linked (edges : list Equivalency) (threshold : Q) (a b : nat)
  : Prop :=
  exists e, In e edges /\ threshold <= strength e /\
    ((input_id e = a /\ output_id e = b) \/
     (input_id e = b /\ output_id e = a)).

(** [within edges threshold n a b]: [b] is at most [n] hops from [a]. *)
Inductive within (edges : list Equivalency) (threshold : Q)
  : nat -> nat -> nat -> Prop :=
| within_seed n a : within edges threshold n a a
| within_hop n a b c :
    within edges threshold n a b ->
    linked edges threshold b c ->
    within edges threshold (S n) a c.

Lemma within_S edges threshold n a b :
  within edges threshold n a b -> within edges threshold (S n) a b.
Proof.
  induction 1 as [|n a b c _ IH Hl]; [constructor|].
  econstructor; [exact IH|exact Hl].
Qed.

Lemma neighbours_linked edges threshold (a b : nat) :
  b ∈ neighbours edges threshold a <-> linked edges threshold a b.
Proof.
  unfold neighbours, linked. rewrite list_elem_of_In, in_flat_map.
  split.
  - intros (e & He & Hb). exists e. split; [done|].
    unfold strong_enough in Hb.
    destruct (Qle_bool threshold (strength e)) eqn:Hs; [|by destruct Hb].
    apply Qle_bool_iff in Hs. split; [done|].
    apply in_app_or in Hb as [Hb|Hb].
    + destruct (Nat.eqb_spec (input_id e) a); [|by destruct Hb].
      destruct Hb as [<-|[]]. by left.
    + destruct (Nat.eqb_spec (output_id e) a); [|by destruct Hb].
      destruct Hb as [<-|[]]. by right.
  - intros (e & He & Hs & Hends). exists e. split; [done|].
    unfold strong_enough. apply Qle_bool_iff in Hs. rewrite Hs.
    apply in_or_app. destruct Hends as [[<- <-]|[<- <-]].
    + left. rewrite Nat.eqb_refl. by left.
    + right. rewrite Nat.eqb_refl. by left.
Qed.

Lemma elem_of_flat_map {A B} (f : A -> list B) (l : list A) (x : B) :
  x ∈ flat_map f l <-> exists b, b ∈ l /\ x ∈ f b.
Proof.
  rewrite list_elem_of_In, in_flat_map.
  split; intros (b & Hb & Hx); exists b; by rewrite ?list_elem_of_In in *.
Qed.

Lemma fn_recursive_equivalents_within edges threshold levels parent x :
  x ∈ fn_recursive_equivalents edges parent levels threshold
  <-> within edges threshold levels parent x.
Proof.
  revert x. induction levels as [|n IH]; intros x; simpl.
  - rewrite list_elem_of_singleton. split.
    + intros ->. constructor.
    + by inversion 1.
  - rewrite elem_of_remove_dups, elem_of_app, elem_of_flat_map.
    split.
    + intros [Hx|(b & Hb & Hx)].
      * apply within_S. by apply IH.
      * econstructor; [by apply IH|by apply neighbours_linked].
    + inversion 1 as [|? ? b ? Hb Hl]; subst.
      * left. apply IH. constructor.
      * right. exists b. split; [by apply IH|by apply neighbours_linked].
Qed.

Lemma collect_rows_lookup (rows : list (nat * nat)) :
  forall (equivalents : gmap nat (list nat)) (i : nat),
  collect_rows rows equivalents !!! i
  = ((equivalents !!! i)
     ++ List.map snd (List.filter (fun r => (fst r =? i)%nat) rows))%list.
Proof.
  induction rows as [|[o e] rows IH]; intros equivalents i; simpl.
  - by rewrite app_nil_r.
  - rewrite IH. destruct (Nat.eqb_spec o i) as [->|Hne]; simpl.
    + by rewrite lookup_total_insert_eq, <- app_assoc.
    + by rewrite lookup_total_insert_ne.
Qed.

Lemma rows_of_seed identifiers edges identifier_ids levels threshold i x :
  In (i, x) (equivalents_rows identifiers edges identifier_ids levels threshold)
  <-> In i identifiers /\ i ∈ identifier_ids /\
      x ∈ fn_recursive_equivalents edges i levels threshold.
Proof.
  unfold equivalents_rows. rewrite in_flat_map. split.
  - intros (j & Hj & Hx). apply filter_In in Hj as [Hj Hin].
    apply bool_decide_eq_true in Hin.
    apply list_elem_of_In, list_elem_of_fmap in Hx as (y & [= -> ->] & Hy).
    done.
  - intros (Hi & Hin & Hx). exists i. split.
    + apply filter_In. split; [done|]. by apply bool_decide_eq_true.
    + apply list_elem_of_In, list_elem_of_fmap. by exists x.
Qed.

(** C9: for every set of edges, every seed set, every [levels] and
    [threshold], the list that
    [recursively_equivalent_identifier_ids] returns for a seed that is
    an identifier of the table holds exactly the identifiers at most
    [levels] hops from the seed over edges of strength at least
    [threshold], taken in either direction; the seed is among them. *)
Theorem recursively_equivalent_identifier_ids_reachable
    (identifiers : list nat) (edges : list Equivalency)
    (identifier_ids : list nat) (levels : nat) (threshold : Q)
    (seed : nat) :
  In seed identifiers ->
  seed ∈ identifier_ids ->
  let equivalents :=
    recursively_equivalent_identifier_ids identifiers edges identifier_ids
                                          levels threshold in
  (forall x, x ∈ equivalents !!! seed
             <-> within edges threshold levels seed x) /\
  seed ∈ equivalents !!! seed.
Proof.
  intros Hseed Hin equivalents.
  assert (Hiff : forall x, x ∈ equivalents !!! seed
                 <-> within edges threshold levels seed x).
  { intros x. subst equivalents.
    unfold recursively_equivalent_identifier_ids.
    rewrite collect_rows_lookup, lookup_total_empty. simpl.
    rewrite <- fn_recursive_equivalents_within.
    rewrite list_elem_of_In, in_map_iff. split.
    - intros ([i y] & <- & Hrow). apply filter_In in Hrow as [Hrow Hi].
      simpl in *. apply Nat.eqb_eq in Hi. subst i.
      by apply rows_of_seed in Hrow as (_ & _ & ?).
    - intros Hx. exists (seed, x). split; [done|]. apply filter_In.
      split; [by apply rows_of_seed|]. apply Nat.eqb_refl. }
  split; [exact Hiff|]. apply Hiff. constructor.
Qed.

(** 1 -> 2 at 0.9, 3 -> 2 at 0.6, 3 -> 4 at 0.3 and 4 -> 5 at 1. *)
Definition sample_edges : list Equivalency :=
  [ {| input_id := 1; output_id := 2; strength := 9 # 10 |};
    {| input_id := 3; output_id := 2; strength := 6 # 10 |};
    {| input_id := 3; output_id := 4; strength := 3 # 10 |};
    {| input_id := 4; output_id := 5; strength := 1 |} ].

Lemma recursively_equivalent_identifier_ids_reachable_witness :
  let equivalents :=
    recursively_equivalent_identifier_ids [1; 2; 3; 4; 5]%nat sample_edges
                                          [1]%nat 5 (1 # 2) in
  (forall x, x ∈ equivalents !!! 1%nat
             <-> within sample_edges (1 # 2) 5 1 x) /\
  1%nat ∈ equivalents !!! 1%nat.
Proof.
  apply (recursively_equivalent_identifier_ids_reachable
           [1; 2; 3; 4; 5]%nat sample_edges [1]%nat 5 (1 # 2) 1%nat).
  - simpl. tauto.
  - apply list_elem_of_In. simpl. tauto.
Defined.

(** The list for seed 1 holds 1, 2 and 3 and neither 4 nor 5, which
    are behind an edge of strength 0.3. *)
Example sample_equivalents :
  let equivalents :=
    recursively_equivalent_identifier_ids [1; 2; 3; 4; 5]%nat sample_edges
                                          [1; 4]%nat 5 (1 # 2) in
  equivalents !!! 1%nat ≡ₚ [1; 2; 3]%nat /\
  equivalents !!! 4%nat ≡ₚ [4; 5]%nat.
Proof.
  cbv zeta. split.
  - assert (H : recursively_equivalent_identifier_ids
                  [1; 2; 3; 4; 5]%nat sample_edges [1; 4]%nat 5 (1 # 2)
                !!! 1%nat = [1; 3; 2]%nat) by (vm_compute; reflexivity).
    rewrite H. apply Permutation_cons; [done|]. apply perm_swap.
  - assert (H : recursively_equivalent_identifier_ids
                  [1; 2; 3; 4; 5]%nat sample_edges [1; 4]%nat 5 (1 # 2)
                !!! 4%nat = [4; 5]%nat) by (vm_compute; reflexivity).
    by rewrite H.
Qed.

End EquivalentsFacts.

(** ** Work clustering *)

Module ClusteringFacts.

(** Collaborators for a catalogue whose metadata is settled: every
    identifier has a single Edition, recomputing an Edition changes
    nothing, the classifier and the summary evaluator have nothing to
    add, and a [Counter] is iterated in insertion order. *)
Definition settled : Collaborators :=
  {| composite_edition := fun _ _ => raise ValueError;
     edition_calculate_presentation := fun _ => ret false;
     permanent_id := fun t a m => t ++ "/" ++ default "" a ++ "/" ++ m;
     assign_genres := fun _ _ => ret false;
     evaluate_summary_quality := fun _ _ => ret None;
     calculate_opds_entries := fun _ => ret tt;
     update_external_index := fun _ => ret tt;
     dict_order := fun counter => counter |}.

Definition book (source : string) (ident : nat) (t a : string) : Edition :=
  {| edition_data_source := Some source;
     primary_identifier := ident;
     title := Some t;
     subtitle := None;
     author := Some a;
     sort_author := Some a;
     author_contributors := [];
     medium := Some EditionConstants.BOOK_MEDIUM;
     permanent_work_id := Some (permanent_id settled t (Some a) "book") |}.

Definition member (ident : nat) (source : string) (is_open_access : bool)
    (w : option work_id) (e : edition_id) : LicensePool :=
  {| pool_identifier :=
       Some {| identifier_id := ident;
               identifier_type := "ID";
               identifier := "1" |};
     pool_data_source := source;
     open_access := is_open_access;
     superceded := false;
     suppressed := false;
     pool_work := w;
     pool_presentation_edition := Some e;
     open_access_links :=
       if is_open_access then [ LinkFacts.r_standard ] else [] |}.

Definition presented (members : list pool_id) (e : edition_id) : Work :=
  {| license_pools := members;
     work_presentation_edition := Some e;
     work_genres := [];
     coverage_records := [];
     summary := None;
     summary_text := Some "";
     quality := Some 0;
     last_update_time := Some 0%nat;
     deleted := false |}.

(** One Work holding a commercial pool (0) and two open-access pools
    (1, 2) of the same title, author and medium. *)
Definition mixed_work : State :=
  {| pools :=
       [ member 1 DataSource.OVERDRIVE false (Some 0%nat) 0;
         member 2 DataSource.GUTENBERG true (Some 0%nat) 1;
         member 3 DataSource.STANDARD_EBOOKS true (Some 0%nat) 2 ];
     editions :=
       [ book DataSource.OVERDRIVE 1 "Emma" "Austen, Jane";
         book DataSource.GUTENBERG 2 "Emma" "Austen, Jane";
         book DataSource.STANDARD_EBOOKS 3 "Emma" "Austen, Jane" ];
     works := [ presented [0; 1; 2]%nat 1 ];
     identifier_table := [1; 2; 3]%nat;
     equivalents := [];
     measurements := [];
     now := 1 |}.

(** Two Works that both claim "Emma": Work 0 holds one pool of
    "Emma" (0) and two pools of "Persuasion" (1, 2), Work 1 holds
    another pool of "Emma" (3).  All four pools are open-access. *)
Definition two_claimants : State :=
  {| pools :=
       [ member 1 DataSource.GUTENBERG true (Some 0%nat) 0;
         member 2 DataSource.GUTENBERG true (Some 0%nat) 1;
         member 3 DataSource.STANDARD_EBOOKS true (Some 0%nat) 2;
         member 4 DataSource.STANDARD_EBOOKS true (Some 1%nat) 3 ];
     editions :=
       [ book DataSource.GUTENBERG 1 "Emma" "Austen, Jane";
         book DataSource.GUTENBERG 2 "Persuasion" "Austen, Jane";
         book DataSource.STANDARD_EBOOKS 3 "Persuasion" "Austen, Jane";
         book DataSource.STANDARD_EBOOKS 4 "Emma" "Austen, Jane" ];
     works := [ presented [0; 1; 2]%nat 0; presented [3]%nat 3 ];
     identifier_table := [1; 2; 3; 4]%nat;
     equivalents := [];
     measurements := [];
     now := 1 |}.

Definition emma : option string :=
  Some (permanent_id settled "Emma" (Some "Austen, Jane") "book").

Definition persuasion : option string :=
  Some (permanent_id settled "Persuasion" (Some "Austen, Jane") "book").

(** The same with a single pool of "Persuasion" in Work 0. *)
Definition one_stray : State :=
  {| pools :=
       [ member 1 DataSource.GUTENBERG true (Some 0%nat) 0;
         member 2 DataSource.GUTENBERG true (Some 0%nat) 1;
         member 4 DataSource.STANDARD_EBOOKS true (Some 1%nat) 2;
         member 5 DataSource.STANDARD_EBOOKS true (Some 1%nat) 3 ];
     editions :=
       [ book DataSource.GUTENBERG 1 "Emma" "Austen, Jane";
         book DataSource.GUTENBERG 2 "Persuasion" "Austen, Jane";
         book DataSource.STANDARD_EBOOKS 4 "Emma" "Austen, Jane";
         book DataSource.STANDARD_EBOOKS 5 "Emma" "Austen, Jane" ];
     works := [ presented [0; 1]%nat 0; presented [2; 3]%nat 2 ];
     identifier_table := [1; 2; 4; 5]%nat;
     equivalents := [];
     measurements := [];
     now := 1 |}.

Lemma same_set_spec (a b : list string) :
  same_set a b = true <-> (forall x, x ∈ a <-> x ∈ b).
Proof.
  unfold same_set. rewrite andb_true_iff, !forallb_forall. split.
  - intros [Hab Hba] x. split; intros Hx.
    + apply list_elem_of_In, Hab in Hx. by apply bool_decide_eq_true in Hx.
    + apply list_elem_of_In, Hba in Hx. by apply bool_decide_eq_true in Hx.
  - intros H. split; intros x Hx; apply bool_decide_eq_true, H;
      by apply list_elem_of_In.
Qed.

Lemma forallb_open_access (members : list LicensePool) :
  (exists pool, pool ∈ members /\ open_access pool = false) ->
  forallb open_access members = false.
Proof.
  intros (pool & Hin & Hoa). apply not_true_is_false. intros Hall.
  rewrite forallb_forall in Hall.
  apply list_elem_of_In, Hall in Hin. congruence.
Qed.

(** C2: [merge_into] raises (a [ValueError], the error the
    specification calls [ClusterConsistencyError]) when the two Works
    have different sets of permanent work IDs, and when either of them
    holds a pool that is not open-access; the store it raises with is
    the store it was called on: no pool has moved, no genre or coverage
    row is gone, no Work is deleted. *)
Theorem merge_into_refuses (ext : Collaborators) (fuel : nat) (s : State)
    (self other_work : work_id) (mine theirs : list LicensePool)
    (my_pwids other_pwids : list string) :
  members_of self s = Ok mine ->
  members_of other_work s = Ok theirs ->
  pwids self s = Ok my_pwids ->
  pwids other_work s = Ok other_pwids ->
  ~ (forall x, x ∈ my_pwids <-> x ∈ other_pwids) \/
  (exists pool, (pool ∈ mine \/ pool ∈ theirs) /\ open_access pool = false) ->
  merge_into ext fuel self other_work s = (Raised ValueError, s).
Proof.
  intros Hmine Htheirs Hmy Hother Hcase.
  unfold merge_into, bind, lift, raise, refuse_commercial.
  rewrite Hmine. cbn [rbind].
  destruct (forallb open_access mine) eqn:Ha; [|done].
  rewrite Htheirs. cbn [rbind].
  destruct (forallb open_access theirs) eqn:Hb; [|done].
  rewrite Hmy, Hother.
  destruct Hcase as [Hdiff|(pool & [Hin|Hin] & Hoa)].
  - destruct (same_set my_pwids other_pwids) eqn:Hsame; [|done].
    exfalso. apply Hdiff. by apply same_set_spec.
  - rewrite forallb_open_access in Ha by eauto. done.
  - rewrite forallb_open_access in Hb by eauto. done.
Qed.

(** A commercial pool and an open-access pool of the same book, each
    in a Work of its own. *)
Definition apart : State :=
  with_works [ presented [0]%nat 0; presented [1]%nat 1 ]
    (with_pools [ member 1 DataSource.OVERDRIVE false (Some 0%nat) 0;
                  member 2 DataSource.GUTENBERG true (Some 1%nat) 1 ]
                mixed_work).

Lemma merge_into_refuses_witness :
  merge_into settled 5 1 0 two_claimants = (Raised ValueError, two_claimants)
  /\ merge_into settled 5 1 0 apart = (Raised ValueError, apart).
Proof.
  split.
  - eapply (merge_into_refuses settled 5 two_claimants 1 0);
      try reflexivity.
    left. intros H. specialize (H (default "" persuasion)).
    vm_compute in H. destruct H as [_ H].
    assert (Hin : "Persuasion/Austen, Jane/book"
                  ∈ ["Emma/Austen, Jane/book"; "Persuasion/Austen, Jane/book"])
      by (right; left).
    specialize (H Hin). apply list_elem_of_singleton in H. discriminate.
  - eapply (merge_into_refuses settled 5 apart 1 0);
      try reflexivity.
    right. eexists. split; [right; left|reflexivity].
Defined.

(** C3 (the code at the failing input): in a Work that holds a
    commercial pool (0) and two open-access pools (1, 2) of one
    permanent work ID, [calculate_work] run on the commercial pool
    returns the same Work, and that Work then holds all three pools:
    the commercial pool was evicted into a Work of its own (Work 1)
    while pool 1 was re-resolved, and was appended back at the end. *)
Theorem calculate_work_commercial_pool_rejoins :
  let out := calculate_work settled 30 0 false None mixed_work in
  fst out = Return (Some 0%nat, false) /\
  open_access <$> pools (snd out) = [false; true; true] /\
  pool_work <$> pools (snd out) = [Some 0; Some 0; Some 0]%nat /\
  license_pools <$> works (snd out) = [[1; 2; 0]; []]%nat.
Proof. vm_compute. repeat split. Qed.

(** A commercial pool that shares its Work with a single open-access
    pool does end alone: the other pool gets a Work of its own. *)
Example calculate_work_commercial_pool_alone :
  let s :=
    with_works [ presented [0; 1]%nat 1 ]
      (with_pools [ member 1 DataSource.OVERDRIVE false (Some 0%nat) 0;
                    member 2 DataSource.GUTENBERG true (Some 0%nat) 1 ]
                  mixed_work) in
  let out := calculate_work settled 30 0 false None s in
  fst out = Return (Some 0%nat, false) /\
  license_pools <$> works (snd out) = [[0]; [1]]%nat.
Proof. vm_compute. repeat split. Qed.

(** C4 (the code at the failing input): with two pools of another
    permanent work ID in the survivor, the eviction leaves the survivor
    as it was (each evicted pool is re-attached to the Work that still
    holds the other one), the merge precondition fails, and
    [open_access_for_permanent_work_id] ends with the [ValueError] of
    [merge_into]: two Works still hold a pool of "Emma". *)
Theorem open_access_for_permanent_work_id_merge_fails :
  let out := open_access_for_permanent_work_id settled 30 emma
               (Some EditionConstants.BOOK_MEDIUM) two_claimants in
  open_access_pools_for emma (Some EditionConstants.BOOK_MEDIUM) two_claimants
  = [0; 3]%nat /\
  fst (make_exclusive_open_access_for_permanent_work_id settled 29 0 emma
         (Some EditionConstants.BOOK_MEDIUM) two_claimants) = Return tt /\
  license_pools <$>
    works (snd (make_exclusive_open_access_for_permanent_work_id settled 29 0
                  emma (Some EditionConstants.BOOK_MEDIUM) two_claimants))
  = [[0; 1; 2]; [3]]%nat /\
  fst out = Raised ValueError /\
  pool_work <$> pools (snd out) = [Some 0; Some 0; Some 0; Some 1]%nat /\
  license_pools <$> works (snd out) = [[0; 1; 2]; [3]]%nat /\
  deleted <$> works (snd out) = [false; false].
Proof. vm_compute. repeat split. Qed.

(** With a single stray pool in the survivor the consolidation goes
    through: the stray pool (1) gets a Work of its own, Work 1 is merged
    into Work 0 and deleted, and the three pools of "Emma" share
    Work 0. *)
Example open_access_for_permanent_work_id_consolidates :
  let out := open_access_for_permanent_work_id settled 30 emma
               (Some EditionConstants.BOOK_MEDIUM) one_stray in
  fst out = Return (Some 0%nat, false) /\
  pool_work <$> pools (snd out) = [Some 0; Some 2; Some 0; Some 0]%nat /\
  license_pools <$> works (snd out) = [[0; 2; 3]; []; [1]]%nat /\
  deleted <$> works (snd out) = [false; true; false].
Proof. vm_compute. repeat split. Qed.

End ClusteringFacts.

(** ** Presentation recompute *)

Module PresentationFacts.
Import ClusteringFacts.

(** The value the loop over the licensed data sources holds when it
    ends: the highest configured default, if any source has one. *)
Definition highest_default_quality (licensed_data_sources : list string)
  : option Q :=
  fold_left default_quality_step licensed_data_sources None.

(** A Work that has never been presented, holding one commercial
    (Overdrive) pool. *)
Definition commercial_work : State :=
  {| pools := [ member 1 DataSource.OVERDRIVE false (Some 0%nat) 0 ];
     editions := [ book DataSource.OVERDRIVE 1 "Emma" "Austen, Jane" ];
     works := [ with_license_pools [0%nat] new_work ];
     identifier_table := [1%nat];
     equivalents := [];
     measurements := [];
     now := 1 |}.

(** A Work that has never been presented, holding one open-access
    pool. *)
Definition fresh_work : State :=
  {| pools := [ member 1 DataSource.STANDARD_EBOOKS true (Some 0%nat) 0 ];
     editions := [ book DataSource.STANDARD_EBOOKS 1 "Emma" "Austen, Jane" ];
     works := [ with_license_pools [0%nat] new_work ];
     identifier_table := [1%nat];
     equivalents := [];
     measurements := [];
     now := 1 |}.

(** Choose the edition only. *)
Definition edition_only : PresentationCalculationPolicy :=
  {| choose_edition := true;
     set_edition_metadata := true;
     classify := false;
     choose_summary := false;
     calculate_quality := false;
     choose_cover := true;
     regenerate_opds_entries := false;
     update_search_index := false;
     verbose := true |}.

(** With no edition or classification change, the same summary and
    summary text, and a quality that was never computed, the last
    operand of the [changed] expression is [float(None)]. *)
Lemma changed_flag_without_quality (summary0 : option Resource)
    (summary_text0 : option string) (work : Work) :
  resource_eqb summary0 (summary work) = true ->
  opt_string_eqb summary_text0 (summary_text work) = true ->
  changed_flag false false summary0 summary_text0 None work = Raise TypeError.
Proof. unfold changed_flag. by intros -> ->. Qed.

Lemma default_quality_for_zero (licensed_data_sources : list string) :
  default_quality_for licensed_data_sources = 0.
Proof. reflexivity. Qed.

(** C8 (the code at the failing input): the default handed to
    [calculate_quality] is 0 for every set of licensed data sources.
    For a Work that has never been presented and holds one Overdrive
    pool, with no measurement at all, the loop over the licensed data
    sources finds Overdrive's configured default, 0.4, the default
    passed on is 0, and the Work's quality ends at 0. *)
Theorem calculate_presentation_default_quality_zero :
  (forall licensed_data_sources,
     default_quality_for licensed_data_sources = 0) /\
  let out := calculate_presentation settled 10 0 default_policy
               commercial_work in
  licensed_data_sources_of (pools commercial_work) = [DataSource.OVERDRIVE] /\
  highest_default_quality [DataSource.OVERDRIVE] = Some (4 # 10) /\
  fst out = Return true /\
  quality <$> works (snd out) = [Some 0].
Proof.
  split; [apply default_quality_for_zero|].
  vm_compute. repeat split.
Qed.

(** C5 (the code at the failing input): a Work that has never been
    presented, holding one open-access pool, recomputed twice with a
    policy that chooses the edition and neither classifies, chooses a
    summary nor calculates quality.  The first run reports a change
    (the Work gets its presentation edition) and stamps the change
    time; nothing changes in the second run, which reaches
    [float(quality)] with a null quality and ends in [TypeError]
    instead of [changed = False]. *)
Theorem calculate_presentation_second_run_raises :
  let first := calculate_presentation settled 10 0 edition_only fresh_work in
  let second := calculate_presentation settled 10 0 edition_only (snd first) in
  fst first = Return true /\
  quality <$> works (snd first) = [None] /\
  last_update_time <$> works (snd first) = [Some 2%nat] /\
  fst second = Raised TypeError /\
  work_presentation_edition <$> works (snd second)
  = work_presentation_edition <$> works (snd first) /\
  last_update_time <$> works (snd second) = [Some 2%nat].
Proof. vm_compute. repeat split. Qed.

(** With the default policy the same Work is recomputed twice without
    incident: the second run reports no change and leaves the change
    time alone. *)
Example calculate_presentation_default_policy_twice :
  let first := calculate_presentation settled 10 0 default_policy fresh_work in
  let second := calculate_presentation settled 10 0 default_policy (snd first) in
  fst first = Return true /\
  fst second = Return false /\
  last_update_time <$> works (snd second)
  = last_update_time <$> works (snd first).
Proof. vm_compute. repeat split. Qed.

End PresentationFacts.

(** ** Further properties of the open-access champion *)

Module ChampionOrder.

(** What it takes for a challenger to beat a champion that exists. *)
Lemma better_than_some (a b : LicensePool) :
  better_open_access_pool_than a (Some b) = Ok true <->
  pool_identifier a <> None /\ suppressed a = false /\ open_access a = true /\
  (exists r, best_open_access_link a = Ok (Some r)) /\
  ((open_access_source_priority b < open_access_source_priority a)%Z \/
   (open_access_source_priority a = open_access_source_priority b /\
    pool_data_source a = DataSource.GUTENBERG /\
    pool_data_source b = pool_data_source a /\
    exists ia ib, identifier_int a = Ok ia /\ identifier_int b = Ok ib /\
                  (ib < ia)%Z)).
Proof.
  unfold better_open_access_pool_than. split.
  - destruct (pool_identifier a) as [i|] eqn:Hi; [|done].
    destruct (suppressed a); [done|].
    destruct (open_access a); [|done]. simpl.
    destruct (best_open_access_link a) as [[r|]|]; simpl; try done.
    destruct (Z.ltb_spec (open_access_source_priority b)
                         (open_access_source_priority a)) as [Hlt|Hge].
    { intros _. repeat split; eauto. }
    destruct (Z.ltb_spec (open_access_source_priority a)
                         (open_access_source_priority b)) as [Hlt'|Hge'];
      [done|].
    destruct (String.eqb_spec (pool_data_source a) DataSource.GUTENBERG)
      as [Hg|]; [|done].
    destruct (String.eqb_spec (pool_data_source b) (pool_data_source a))
      as [Hs|]; [|done]. simpl.
    destruct (identifier_int b) as [ib|] eqn:Hib; simpl; [|done].
    destruct (identifier_int a) as [ia|] eqn:Hia; simpl; [|done].
    intros [= Hlt]. apply Z.ltb_lt in Hlt.
    repeat split; eauto. right. repeat split; [lia|done|done|].
    by exists ia, ib.
  - intros (Hi & Hs & Hoa & (r & Hr) & Hcase).
    destruct (pool_identifier a); [|done]. rewrite Hs, Hoa, Hr. simpl.
    destruct Hcase as [Hlt|(Heq & Hg & Hsame & ia & ib & Hia & Hib & Hlt)].
    + apply Z.ltb_lt in Hlt. by rewrite Hlt.
    + rewrite Heq, Z.ltb_irrefl, Hg, Hsame, Hg. simpl.
      rewrite Hib, Hia. simpl. f_equal. by apply Z.ltb_lt.
Qed.

(** [better_open_access_pool_than] against an existing champion is a
    strict order on LicensePools: no pool beats itself, two pools never
    beat each other, and a pool that beats the pool that beats a third
    beats the third. *)
Theorem better_open_access_pool_than_strict_order :
  (forall a, better_open_access_pool_than a (Some a) <> Ok true) /\
  (forall a b,
     better_open_access_pool_than a (Some b) = Ok true ->
     better_open_access_pool_than b (Some a) <> Ok true) /\
  (forall a b c,
     better_open_access_pool_than a (Some b) = Ok true ->
     better_open_access_pool_than b (Some c) = Ok true ->
     better_open_access_pool_than a (Some c) = Ok true).
Proof.
  assert (Hasym : forall a b,
     better_open_access_pool_than a (Some b) = Ok true ->
     better_open_access_pool_than b (Some a) <> Ok true).
  { intros a b Hab Hba.
    apply better_than_some in Hab as (_ & _ & _ & _ & Hab).
    apply better_than_some in Hba as (_ & _ & _ & _ & Hba).
    destruct Hab as [Hab|(Hab & _ & _ & ia & ib & Hia & Hib & Hlt)];
      destruct Hba as [Hba|(Hba & _ & _ & ib' & ia' & Hib' & Hia' & Hlt')];
      try lia.
    assert (ia' = ia) by congruence. assert (ib' = ib) by congruence. lia. }
  split; [|split; [exact Hasym|]].
  - intros a Ha. exact (Hasym a a Ha Ha).
  - intros a b c Hab Hbc.
    apply better_than_some in Hab as (Hi & Hs & Hoa & Hr & Hab).
    apply better_than_some in Hbc as (_ & _ & _ & _ & Hbc).
    apply better_than_some. repeat split; try done.
    destruct Hab as [Hab|(Hab & Hga & Hsab & ia & ib & Hia & Hib & Hlt)];
      destruct Hbc as [Hbc|(Hbc & Hgb & Hsbc & ib' & ic & Hib' & Hic & Hlt')].
    + left. lia.
    + left. lia.
    + left. lia.
    + right. repeat split; [lia|done|congruence|].
      exists ia, ic. assert (ib' = ib) by congruence. subst.
      repeat split; [done|done|lia].
Qed.

Definition gutenberg_number (n : nat) (number : string) : LicensePool :=
  ChampionFacts.sample_pool (ChampionFacts.gutenberg_identifier n number)
                            DataSource.GUTENBERG true false.

Lemma better_open_access_pool_than_strict_order_witness :
  better_open_access_pool_than (gutenberg_number 3 "30")
                               (Some (gutenberg_number 1 "10")) = Ok true /\
  better_open_access_pool_than (gutenberg_number 1 "10")
                               (Some (gutenberg_number 3 "30")) <> Ok true.
Proof.
  destruct better_open_access_pool_than_strict_order as (_ & Hasym & Htrans).
  assert (H : better_open_access_pool_than (gutenberg_number 3 "30")
                (Some (gutenberg_number 1 "10")) = Ok true)
    by (apply (Htrans _ (gutenberg_number 2 "20")); reflexivity).
  split; [exact H|]. by apply Hasym.
Defined.

End ChampionOrder.

(** ** Further properties of the open-access link *)

Module LinkMore.
Import LinkFacts.

Lemma pick_step_keeps (r b : Resource) (best' : option Resource) :
  pick_step r (Some b) = Ok best' -> best' <> None.
Proof.
  unfold pick_step. destruct (supported_media_type r); simpl; [|congruence].
  destruct (from_gutenberg b && from_gutenberg r); [|congruence].
  destruct (noimages_in_mirror_url b) as [[]|]; simpl; try congruence.
  destruct (noimages_in_mirror_url r) as [[]|]; simpl; congruence.
Qed.

Lemma pick_loop_none (links : list Resource) :
  forall best,
  for_each pick_step links best = Ok None <->
  best = None /\ forall r, In r links -> supported_media_type r = false.
Proof.
  induction links as [|x links IH]; intros best; cbn [for_each].
  - split; [intros [= ->]|intros [-> _]]; done.
  - split.
    + destruct (pick_step x best) as [mid|] eqn:Hx; cbn [rbind]; [|done].
      intros H. apply IH in H as [-> Hrest].
      destruct best as [b|]; [by apply pick_step_keeps in Hx|].
      split; [done|]. unfold pick_step in Hx.
      destruct (supported_media_type x) eqn:Hs; simpl in Hx; [done|].
      intros r [<-|Hr]; auto.
    + intros [-> Hall]. unfold pick_step at 1.
      rewrite (Hall x (or_introl eq_refl)). cbn [negb rbind].
      apply IH. split; [done|]. intros r Hr. apply Hall. by right.
Qed.

(** [best_open_access_link] finds nothing exactly when the pool has an
    identifier and none of its open-access links has a supported media
    type; without an identifier it raises [AttributeError]. *)
Theorem best_open_access_link_none (self : LicensePool) :
  (best_open_access_link self = Ok None <->
   pool_identifier self <> None /\
   forall r, In r (open_access_links self) ->
             supported_media_type r = false) /\
  (pool_identifier self = None ->
   best_open_access_link self = Raise AttributeError).
Proof.
  split.
  - unfold best_open_access_link.
    destruct (pool_identifier self) as [i|]; [|split; [done|by intros []]].
    rewrite (best_link_loop_pick self _ None (-1)%Z) by done.
    rewrite pick_loop_none. split; [intros [_ H]|intros [_ H]]; done.
  - unfold best_open_access_link. by intros ->.
Qed.

Definition pdf : Representation :=
  {| media_type := Some "application/pdf";
     mirror_url := Some "http://mirror/book.pdf";
     unicode_content := None |}.

Definition r_pdf : Resource :=
  {| url := "http://unglue.it/book.pdf";
     resource_data_source := DataSource.UNGLUE_IT;
     representation := Some pdf |}.

Lemma best_open_access_link_none_witness :
  best_open_access_link (gutenberg_pool [r_pdf]) = Ok None.
Proof.
  destruct (best_open_access_link_none (gutenberg_pool [r_pdf])) as [H _].
  apply H. split; [done|]. intros r [<-|[]]. reflexivity.
Defined.

End LinkMore.

(** ** Marking twice *)

Module MarkTwice.
Import ChampionFacts.

Definition erase (p : LicensePool) : LicensePool := with_superceded false p.

(** Two stores that differ at most in the [superceded] flags. *)
Definition same_but_flags (s t : State) : Prop :=
  forall q, erase <$> pools s !! q = erase <$> pools t !! q.

Lemma erase_injective (a b : LicensePool) :
  erase a = erase b -> superceded a = superceded b -> a = b.
Proof. destruct a, b. unfold erase, with_superceded. simpl. congruence. Qed.

Lemma erase_open_access (a b : LicensePool) :
  erase a = erase b -> open_access a = open_access b.
Proof. destruct a, b. unfold erase, with_superceded. simpl. congruence. Qed.

Lemma better_erase (a b : LicensePool) (c d : option LicensePool) :
  erase a = erase b -> erase <$> c = erase <$> d ->
  better_open_access_pool_than a c = better_open_access_pool_than b d.
Proof.
  intros Hab Hcd.
  assert (Ha : better_open_access_pool_than a c
               = better_open_access_pool_than (erase a) (erase <$> c)).
  { destruct a, c as [[]|]; reflexivity. }
  assert (Hb : better_open_access_pool_than b d
               = better_open_access_pool_than (erase b) (erase <$> d)).
  { destruct b, d as [[]|]; reflexivity. }
  by rewrite Ha, Hb, Hab, Hcd.
Qed.

Lemma same_but_flags_update (b1 b2 : bool) (p : pool_id) (s t : State) :
  same_but_flags s t ->
  same_but_flags (update_pool (with_superceded b1) p s)
                 (update_pool (with_superceded b2) p t).
Proof.
  intros H q. rewrite !lookup_update_pool. specialize (H q).
  case_decide; [|done].
  destruct (pools s !! q) as [a|], (pools t !! q) as [b|]; simpl in *;
    done.
Qed.

Lemma mark_step_unfold (p : pool_id) (c : option pool_id) (s : State) :
  mark_step p c s =
  match pools s !! p with
  | None => (Raised AttributeError, s)
  | Some pool =>
      if open_access pool then
        match (match c with
               | None => Ok None
               | Some c0 => match pools s !! c0 with
                            | Some cp => Ok (Some cp)
                            | None => Raise AttributeError
                            end
               end) with
        | Raise e => (Raised e, s)
        | Ok champion =>
            match better_open_access_pool_than pool champion with
            | Raise e => (Raised e, s)
            | Ok true =>
                (Return (Some p),
                 update_pool (with_superceded false) p
                   (match c with
                    | Some c0 => update_pool (with_superceded true) c0 s
                    | None => s
                    end))
            | Ok false =>
                (Return c, update_pool (with_superceded true) p s)
            end
        end
      else (Return c, update_pool (with_superceded false) p s)
  end.
Proof.
  unfold mark_step, bind, lift, modify, ret, get_pool.
  destruct (pools s !! p) as [pool|]; [|done].
  destruct (open_access pool); simpl; [|done].
  destruct c as [c0|].
  - destruct (pools s !! c0) as [cp|]; [|done].
    by destruct (better_open_access_pool_than pool (Some cp)) as [[]|].
  - by destruct (better_open_access_pool_than pool None) as [[]|].
Qed.

Lemma mark_step_same (p : pool_id) (c c' : option pool_id) (s s1 t : State) :
  same_but_flags s t ->
  mark_step p c s = (Return c', s1) ->
  exists t1, mark_step p c t = (Return c', t1) /\ same_but_flags s1 t1.
Proof.
  intros Hst. rewrite !mark_step_unfold.
  pose proof (Hst p) as Hp.
  destruct (pools s !! p) as [ps|], (pools t !! p) as [pt|];
    simpl in Hp; try done.
  assert (Hp' : erase ps = erase pt) by congruence. clear Hp.
  rename Hp' into Hp. rewrite <- (erase_open_access _ _ Hp).
  destruct (open_access ps).
  - assert (Hc : match c with
                 | None => True
                 | Some c0 => erase <$> pools s !! c0 = erase <$> pools t !! c0
                 end) by (destruct c; [apply Hst|done]).
    destruct c as [c0|].
    + destruct (pools s !! c0) as [cs|], (pools t !! c0) as [ct|];
        simpl in Hc; try done.
      rewrite (better_erase ps pt (Some cs) (Some ct) Hp Hc).
      destruct (better_open_access_pool_than pt (Some ct)) as [[]|];
        intros [= <- <-]; eexists; (split; [reflexivity|]);
        auto using same_but_flags_update.
    + rewrite (better_erase ps pt None None Hp eq_refl).
      destruct (better_open_access_pool_than pt None) as [[]|];
        intros [= <- <-]; eexists; (split; [reflexivity|]);
        auto using same_but_flags_update.
  - intros [= <- <-]. eexists. split; [reflexivity|].
    auto using same_but_flags_update.
Qed.

Lemma mark_loop_same (l : list pool_id) :
  forall (c c' : option pool_id) (s s1 t : State),
  same_but_flags s t ->
  mark_loop l c s = (Return c', s1) ->
  exists t1, mark_loop l c t = (Return c', t1) /\ same_but_flags s1 t1.
Proof.
  unfold mark_loop. induction l as [|p l IH]; intros c c' s s1 t Hst Hloop.
  - inversion Hloop; subst. by exists t.
  - cbn [fold_] in *. unfold bind at 1 in Hloop. unfold bind at 1.
    destruct (mark_step p c s) as [[c1| |] s2] eqn:Hstep; try done.
    destruct (mark_step_same _ _ _ _ _ _ Hst Hstep) as (t2 & -> & Hst2).
    eauto.
Qed.

Lemma mark_step_flags (p : pool_id) (c c' : option pool_id) (s s' : State) :
  mark_step p c s = (Return c', s') -> same_but_flags s s'.
Proof.
  intros Hstep.
  destruct (mark_step_cases _ _ _ _ _ Hstep)
    as (pool & Hp & [(Hoa & -> & ->)|[(Hoa & -> & ->)|(Hoa & -> & ->)]]);
    intros q; rewrite !lookup_update_pool;
    try destruct c as [c0|]; rewrite ?lookup_update_pool;
    repeat case_decide; subst; by destruct (pools s !! q) as [[]|].
Qed.

Lemma mark_loop_flags (l : list pool_id) :
  forall (c c' : option pool_id) (s s' : State),
  mark_loop l c s = (Return c', s') -> same_but_flags s s'.
Proof.
  unfold mark_loop. induction l as [|p l IH]; intros c c' s s' Hloop.
  - by inversion Hloop.
  - cbn [fold_] in Hloop. unfold bind at 1 in Hloop.
    destruct (mark_step p c s) as [[c1| |] s1] eqn:Hstep; try done.
    intros q. rewrite (mark_step_flags _ _ _ _ _ Hstep q).
    apply (IH _ _ _ _ Hloop).
Qed.

(** The marking loop writes only to the pools it visits and to the
    champion it was given. *)
Lemma mark_loop_frame (l : list pool_id) :
  forall (c c' : option pool_id) (s s' : State) (q : pool_id),
  mark_loop l c s = (Return c', s') ->
  q ∉ l -> c <> Some q ->
  pools s' !! q = pools s !! q /\ c' <> Some q.
Proof.
  unfold mark_loop. induction l as [|p l IH]; intros c c' s s' q Hloop Hq Hc.
  - by inversion Hloop; subst.
  - cbn [fold_] in Hloop. unfold bind at 1 in Hloop.
    destruct (mark_step p c s) as [[c1| |] s1] eqn:Hstep; try done.
    apply not_elem_of_cons in Hq as [Hqp Hq].
    assert (Hs1 : pools s1 !! q = pools s !! q /\ c1 <> Some q).
    { destruct (mark_step_cases _ _ _ _ _ Hstep)
        as (pool & Hp & [(Hoa & -> & ->)|[(Hoa & -> & ->)|(Hoa & -> & ->)]]).
      - by rewrite lookup_update_pool, decide_False.
      - rewrite lookup_update_pool, decide_False by done.
        split; [|congruence]. destruct c as [c0|]; [|done].
        rewrite lookup_update_pool, decide_False; [done|congruence].
      - by rewrite lookup_update_pool, decide_False. }
    destruct Hs1 as [Hs1 Hc1].
    destruct (IH _ _ _ _ q Hloop Hq Hc1) as [Hs' Hc']. by rewrite Hs'.
Qed.

(** [mark_licensepools_as_superceded] is idempotent: run again on the
    store it produced, for a Work whose pools are distinct, it changes
    nothing. *)
Theorem mark_licensepools_as_superceded_idempotent
    (s s' : State) (w : work_id) (work : Work) :
  works s !! w = Some work ->
  NoDup (license_pools work) ->
  mark_licensepools_as_superceded w s = (Return tt, s') ->
  mark_licensepools_as_superceded w s' = (Return tt, s').
Proof.
  intros Hw Hnd Hmark.
  unfold mark_licensepools_as_superceded, bind, lift, get_work, ret in *.
  rewrite Hw in Hmark.
  destruct (mark_loop (license_pools work) None s) as [[champion| |] s1]
    eqn:Hloop; try done.
  inversion Hmark; subst s1; clear Hmark.
  destruct (mark_loop_marked s _ _ _ _ _ _ (marked_start s) Hloop)
    as [Hm Hkept]. simpl in Hm, Hkept.
  assert (Hw' : works s' !! w = Some work).
  { rewrite <- (marked_rest _ _ _ _ Hm) in Hw. exact Hw. }
  rewrite Hw'.
  destruct (mark_loop_same _ _ _ _ _ _ (mark_loop_flags _ _ _ _ _ Hloop) Hloop)
    as (s2 & Hloop2 & _).
  rewrite Hloop2. f_equal.
  destruct (mark_loop_marked s' _ _ _ _ _ _ (marked_start s') Hloop2)
    as [Hm2 Hkept2]. simpl in Hm2, Hkept2.
  pose proof (mark_loop_flags _ _ _ _ _ Hloop2) as Hflags.
  assert (Hpools : pools s2 = pools s').
  { apply list_eq. intros q.
    destruct (decide (q ∈ license_pools work)) as [Hin|Hnin].
    - destruct (marked_flags _ _ _ _ Hm q Hin) as (p1 & Hp1 & Hf1).
      destruct (marked_flags _ _ _ _ Hm2 q Hin) as (p2 & Hp2 & Hf2).
      rewrite Hp1, Hp2. f_equal.
      pose proof (Hflags q) as He. rewrite Hp1, Hp2 in He.
      assert (He' : erase p1 = erase p2) by (simpl in He; congruence).
      clear He. rename He' into He. symmetry. apply erase_injective; [done|].
      rewrite <- (erase_open_access _ _ He) in Hf2.
      destruct (open_access p1); [|congruence].
      destruct (decide (champion = Some q)) as [Hc|Hc].
      + destruct (Hkept Hnd ltac:(by intros ?) q Hc) as (p1' & Hp1' & Hs1).
        destruct (Hkept2 Hnd ltac:(by intros ?) q Hc) as (p2' & Hp2' & Hs2).
        congruence.
      + rewrite (Hf1 Hc), (Hf2 Hc). done.
    - by destruct (mark_loop_frame _ _ _ _ _ q Hloop2 Hnin ltac:(done)). }
  pose proof (marked_rest _ _ _ _ Hm2) as Hrest.
  rewrite <- Hpools in Hrest. rewrite <- Hrest. by destruct s2.
Qed.

Lemma mark_licensepools_as_superceded_idempotent_witness :
  mark_licensepools_as_superceded 0%nat four_pools_marked
  = (Return tt, four_pools_marked).
Proof.
  apply (mark_licensepools_as_superceded_idempotent
           four_pools four_pools_marked 0%nat
           (with_license_pools [0; 1; 2; 3]%nat new_work)).
  - reflexivity.
  - compute_done.
  - reflexivity.
Defined.

End MarkTwice.

(** ** Further properties of the quality aggregator *)

From Stdlib Require Import Lqa.

Module QualityMore.
Import Measurement MeasurementFacts.

(** The value [normalized_value] computes when the cached column is
    unusable and the raw value [x] is usable: a percentile, a position
    on a rating scale, or the raw value of a pre-normalized source. *)
Definition fresh_value (m : t) (x : Q) : option Q :=
  match (if String.eqb (quantity_measured m) POPULARITY
         then assoc_get (data_source_name m) POPULARITY_PERCENTILES
         else None) with
  | Some d => Some (percentile d x)
  | None =>
  match (if String.eqb (quantity_measured m) DOWNLOADS
         then assoc_get (data_source_name m) DOWNLOAD_PERCENTILES
         else None) with
  | Some d => Some (percentile d x)
  | None =>
  match (if String.eqb (quantity_measured m) RATING
         then assoc_get (data_source_name m) RATING_SCALES
         else None) with
  | Some (scale_min, scale_max) =>
      Some ((x - inject_Z scale_min) / inject_Z (scale_max - scale_min))
  | None =>
      if String.eqb (data_source_name m) DataSource.METADATA_WRANGLER
      then Some x else None
  end end end.

Definition cached (m : t) (v : Q) : t :=
  {| quantity_measured := quantity_measured m;
     data_source_name := data_source_name m;
     value := value m;
     _normalized_value := Some v;
     weight := weight m |}.

Lemma normalized_value_unfold (m : t) :
  normalized_value m =
  if truthy (_normalized_value m) then (m, _normalized_value m)
  else match value m with
       | None => (m, None)
       | Some x =>
           if Qeq_bool x 0 then (m, None)
           else match fresh_value m x with
                | Some v => (cached m v, Some v)
                | None => (m, _normalized_value m)
                end
       end.
Proof.
  unfold normalized_value, fresh_value, cached.
  destruct (truthy (_normalized_value m)); [done|].
  destruct (value m) as [x|]; [|done].
  destruct (Qeq_bool x 0); [done|].
  destruct (if String.eqb (quantity_measured m) POPULARITY
            then assoc_get (data_source_name m) POPULARITY_PERCENTILES
            else None) as [d|]; [done|].
  destruct (if String.eqb (quantity_measured m) DOWNLOADS
            then assoc_get (data_source_name m) DOWNLOAD_PERCENTILES
            else None) as [d|]; [done|].
  destruct (if String.eqb (quantity_measured m) RATING
            then assoc_get (data_source_name m) RATING_SCALES
            else None) as [[scale_min scale_max]|]; [done|].
  by destruct (String.eqb (data_source_name m) DataSource.METADATA_WRANGLER).
Qed.

(** Reading [normalized_value] a second time returns what the first
    reading returned and leaves the row as the first reading left it. *)
Theorem normalized_value_read_twice (m : t) :
  normalized_value (fst (normalized_value m)) = normalized_value m.
Proof.
  rewrite (normalized_value_unfold m).
  destruct (truthy (_normalized_value m)) eqn:Ht; simpl.
  { rewrite normalized_value_unfold. by rewrite Ht. }
  destruct (value m) as [x|] eqn:Hv; simpl.
  2: { rewrite normalized_value_unfold. by rewrite Ht, Hv. }
  destruct (Qeq_bool x 0) eqn:Hx; simpl.
  { rewrite normalized_value_unfold. by rewrite Ht, Hv, Hx. }
  destruct (fresh_value m x) as [v|] eqn:Hf; simpl.
  2: { rewrite normalized_value_unfold. by rewrite Ht, Hv, Hx, Hf. }
  rewrite normalized_value_unfold. simpl.
  destruct (negb (Qeq_bool v 0)); [done|].
  rewrite Hv, Hx.
  assert (Hf' : fresh_value (cached m v) x = Some v) by exact Hf.
  by rewrite Hf'.
Qed.

Lemma bisect_loop_bounds (a : list Z) (x : Q) (fuel : nat) :
  forall lo hi : nat,
  (lo <= hi)%nat ->
  (lo <= bisect_loop fuel a x lo hi <= hi)%nat.
Proof.
  induction fuel as [|fuel IH]; intros lo hi Hle; cbn [bisect_loop]; [lia|].
  destruct (Nat.ltb_spec lo hi) as [Hlt|Hge]; [|lia].
  assert (Hmid : (lo <= (lo + hi) / 2 < hi)%nat).
  { split.
    - apply Nat.div_le_lower_bound; lia.
    - apply Nat.Div0.div_lt_upper_bound; lia. }
  destruct (a !! ((lo + hi) / 2)%nat) as [v|]; [|lia].
  destruct (Qlt_bool (inject_Z v) x).
  - specialize (IH (S ((lo + hi) / 2)) hi). lia.
  - specialize (IH lo ((lo + hi) / 2)%nat). lia.
Qed.

Lemma percentile_bounds (d : list Z) (x : Q) :
  0 <= percentile d x /\
  percentile d x <= inject_Z (Z.of_nat (List.length d)) * (1 # 100).
Proof.
  unfold percentile, bisect_left.
  pose proof (bisect_loop_bounds d x (S (List.length d)) 0 (List.length d)
                ltac:(lia)) as [_ Hhi].
  set (n := bisect_loop _ _ _ _ _) in *.
  assert (H0 : inject_Z 0 <= inject_Z (Z.of_nat n))
    by (rewrite <- Zle_Qle; lia).
  assert (H1 : inject_Z (Z.of_nat n) <= inject_Z (Z.of_nat (List.length d)))
    by (rewrite <- Zle_Qle; lia).
  change (inject_Z 0) with 0 in H0. split; lra.
Qed.

Lemma popularity_table_length (source : string) (d : list Z) :
  assoc_get source POPULARITY_PERCENTILES = Some d \/
  assoc_get source DOWNLOAD_PERCENTILES = Some d ->
  List.length d = 100%nat.
Proof.
  unfold POPULARITY_PERCENTILES, DOWNLOAD_PERCENTILES. simpl.
  intros [H|H];
    repeat match type of H with
           | context [if ?b then _ else _] => destruct b
           end; try discriminate; injection H as <-; reflexivity.
Qed.

(** A popularity or download count that is normalized through one of
    the percentile tables comes out between 0 and 1. *)
Theorem normalized_percentile_in_unit_interval (m : t) (d : list Z) (x : Q) :
  truthy (_normalized_value m) = false ->
  value m = Some x -> ~ x == 0 ->
  (quantity_measured m = POPULARITY /\
   assoc_get (data_source_name m) POPULARITY_PERCENTILES = Some d) \/
  (quantity_measured m = DOWNLOADS /\
   assoc_get (data_source_name m) DOWNLOAD_PERCENTILES = Some d) ->
  exists v, snd (normalized_value m) = Some v /\ 0 <= v /\ v <= 1.
Proof.
  intros Ht Hv Hx Hcase. exists (percentile d x). split.
  - rewrite normalized_value_unfold, Ht, Hv.
    destruct (Qeq_bool x 0) eqn:E; [by apply Qeq_bool_iff in E|].
    unfold fresh_value.
    destruct Hcase as [[-> ->]|[-> ->]]; reflexivity.
  - pose proof (percentile_bounds d x) as [H0 H1].
    rewrite (popularity_table_length (data_source_name m) d) in H1
      by (destruct Hcase as [[_ ?]|[_ ?]]; auto).
    split; [done|]. change (inject_Z (Z.of_nat 100) * (1 # 100)) with
      ((100 # 1) * (1 # 100)) in H1. lra.
Qed.

Lemma normalized_percentile_in_unit_interval_witness :
  exists v, snd (normalized_value m40) = Some v /\ 0 <= v /\ v <= 1.
Proof.
  apply (normalized_percentile_in_unit_interval m40 OVERDRIVE_POPULARITY
                                                (35 # 1)).
  - reflexivity.
  - reflexivity.
  - discriminate.
  - left. split; reflexivity.
Defined.

(** What the bounds below ask of one measurement: a weight that is not
    negative and a normalized value, when there is one, within [0, 1]. *)
Definition well_scaled (m : t) : Prop :=
  0 <= weight m /\
  forall v, snd (normalized_value m) = Some v -> 0 <= v /\ v <= 1.

Lemma average_loop_bounds (ms : list t) :
  Forall well_scaled ms ->
  forall n tot, 0 <= tot -> tot <= n ->
  0 <= snd (average_loop ms n tot) /\
  snd (average_loop ms n tot) <= fst (average_loop ms n tot).
Proof.
  induction 1 as [|m ms [Hw Hv] _ IH]; intros n tot H0 H1; simpl; [done|].
  destruct (snd (normalized_value m)) as [v|] eqn:E; [|by apply IH].
  destruct (Hv v eq_refl) as [Hv0 Hv1].
  apply IH; nra.
Qed.

Lemma average_in_unit_interval (ms : list t) (a : Q) :
  Forall well_scaled ms ->
  _average_normalized_value ms = Some a -> 0 <= a /\ a <= 1.
Proof.
  intros Hms. unfold _average_normalized_value.
  pose proof (average_loop_bounds ms Hms 0 0 ltac:(lra) ltac:(lra)) as [H0 H1].
  destruct (average_loop ms 0 0) as [n tot]. simpl in H0, H1.
  destruct (Qeq_bool n 0) eqn:E; simpl; [done|].
  intros [= <-].
  assert (Hn : 0 < n).
  { apply Qeq_bool_neq in E. destruct (Qlt_le_dec 0 n) as [|Hle]; [done|].
    exfalso. apply E. lra. }
  split.
  - apply Qle_shift_div_l; [done|]. lra.
  - apply Qle_shift_div_r; [done|]. lra.
Qed.

Lemma Forall_list_filter {A} (P : A -> Prop) (f : A -> bool) (l : list A) :
  Forall P l -> Forall P (List.filter f l).
Proof.
  induction 1 as [|x l Hx _ IH]; simpl; [constructor|].
  destruct (f x); [by constructor|done].
Qed.

(** With weights that are not negative and sum to one, a default within
    [0, 1] and measurements whose normalized values are within [0, 1],
    [overall_quality] returns a number, never raises, and the number is
    within [0, 1]. *)
Theorem overall_quality_in_unit_interval
    (ms : list t) (popularity_weight rating_weight default_value : Q) :
  popularity_weight + rating_weight == 1 ->
  0 <= popularity_weight -> 0 <= rating_weight ->
  0 <= default_value -> default_value <= 1 ->
  Forall well_scaled ms ->
  exists q,
    overall_quality ms popularity_weight rating_weight default_value = Ok q /\
    0 <= q /\ q <= 1.
Proof.
  intros Hsum Hp Hr Hd0 Hd1 Hms. unfold overall_quality.
  apply Qeq_bool_iff in Hsum. rewrite Hsum. simpl.
  apply Qeq_bool_iff in Hsum.
  pose proof (average_in_unit_interval (List.filter is_popularity ms)) as Ap.
  pose proof (average_in_unit_interval (List.filter is_rating ms)) as Ar.
  pose proof (average_in_unit_interval (List.filter is_quality ms)) as Aq.
  destruct (_average_normalized_value (List.filter is_popularity ms)) as [p|];
    [destruct (Ap p (Forall_list_filter _ _ _ Hms) eq_refl) as [Hp0 Hp1]|];
    (destruct (_average_normalized_value (List.filter is_rating ms)) as [r|];
     [destruct (Ar r (Forall_list_filter _ _ _ Hms) eq_refl) as [Hr0 Hr1]|]);
    (destruct (_average_normalized_value (List.filter is_quality ms)) as [q|];
     [destruct (Aq q (Forall_list_filter _ _ _ Hms) eq_refl) as [Hq0 Hq1]|]);
    clear Ap Ar Aq; simpl;
    try (destruct (negb (Qeq_bool q 0)));
    eexists; (split; [reflexivity|]);
    try (split; [done|done]).
  all: try (repeat match goal with
                   | |- context [?a / 2] =>
                       change (a / 2) with (a * (1 # 2))
                   end; split; nra).
Qed.

Lemma overall_quality_in_unit_interval_witness :
  exists q,
    overall_quality [m40; m_rating; m_quality] default_popularity_weight
                    default_rating_weight 0 = Ok q /\
    0 <= q /\ q <= 1.
Proof.
  apply overall_quality_in_unit_interval.
  - reflexivity.
  - discriminate.
  - discriminate.
  - discriminate.
  - discriminate.
  - repeat apply List.Forall_cons; try apply List.Forall_nil;
      (split; [discriminate|]);
      intros v Hv; vm_compute in Hv; injection Hv as <-;
      (split; discriminate).
Defined.

End QualityMore.

(** ** The order of the Editions of a LicensePool *)

From Stdlib Require Import Sorted.

Module EditionOrder.
Import ClusteringFacts.

Section Sorting.
Context {A : Type} (key : A -> Z).

Definition key_le (a b : A) : Prop := (key a <= key b)%Z.

Definition with_key (k : Z) (a : A) : bool := (key a =? k)%Z.

Lemma insert_sorted_perm (x : A) (l : list A) :
  insert_sorted key x l ≡ₚ x :: l.
Proof.
  induction l as [|y l IH]; simpl; [done|].
  destruct (key x <? key y)%Z; [done|].
  rewrite IH. apply Permutation_swap.
Qed.

Lemma insert_sorted_sorted (x : A) (l : list A) :
  StronglySorted key_le l -> StronglySorted key_le (insert_sorted key x l).
Proof.
  induction 1 as [|y l Hs IH Hall]; simpl.
  - repeat constructor.
  - destruct (Z.ltb_spec (key x) (key y)) as [Hlt|Hge].
    + constructor; [by constructor|].
      apply List.Forall_cons; [unfold key_le; lia|].
      eapply list.Forall_impl; [exact Hall|].
      unfold key_le. intros; lia.
    + constructor; [done|]. rewrite insert_sorted_perm.
      apply List.Forall_cons; [unfold key_le; lia|done].
Qed.

Lemma filter_nothing (f : A -> bool) (l : list A) :
  Forall (fun a => f a = false) l -> List.filter f l = [].
Proof.
  induction 1 as [|a l Ha _ IH]; simpl; [done|]. by rewrite Ha.
Qed.

(** An insertion puts the new element behind the elements of its own
    key. *)
Lemma filter_insert_sorted (k : Z) (x : A) (l : list A) :
  StronglySorted key_le l ->
  List.filter (with_key k) (insert_sorted key x l) =
  (List.filter (with_key k) l ++ (if with_key k x then [x] else []))%list.
Proof.
  unfold with_key.
  induction 1 as [|y l Hs IH Hall]; simpl; [by destruct (key x =? k)%Z|].
  destruct (Z.ltb_spec (key x) (key y)) as [Hlt|Hge]; simpl.
  - destruct (Z.eqb_spec (key x) k) as [Hx|Hx].
    + destruct (Z.eqb_spec (key y) k) as [Hy|Hy]; [lia|].
      rewrite filter_nothing; [done|].
      eapply list.Forall_impl; [exact Hall|].
      unfold key_le. intros a Ha. apply Z.eqb_neq. lia.
    + destruct (key y =? k)%Z; by rewrite app_nil_r.
  - destruct (key y =? k)%Z; simpl; by rewrite IH.
Qed.

Lemma sorted_from (l : list A) :
  forall acc, StronglySorted key_le acc ->
  StronglySorted key_le
    (fold_left (fun acc x => insert_sorted key x acc) l acc) /\
  fold_left (fun acc x => insert_sorted key x acc) l acc ≡ₚ (acc ++ l)%list /\
  forall k,
    List.filter (with_key k)
      (fold_left (fun acc x => insert_sorted key x acc) l acc) =
    (List.filter (with_key k) acc ++ List.filter (with_key k) l)%list.
Proof.
  induction l as [|x l IH]; intros acc Hacc; simpl.
  - split; [done|]. split; [by rewrite app_nil_r|].
    intros k. by rewrite app_nil_r.
  - destruct (IH (insert_sorted key x acc)
                 (insert_sorted_sorted x acc Hacc)) as (Hs & Hp & Hf).
    split; [done|]. split.
    + rewrite Hp, insert_sorted_perm.
      by rewrite (Permutation_middle acc l x).
    + intros k. rewrite Hf, filter_insert_sorted by done.
      rewrite <- app_assoc. f_equal.
      by destruct (with_key k x).
Qed.

(** [sorted(l, key=...)] rearranges [l] into non-decreasing order of
    the key and keeps the order of elements of equal key. *)
Lemma sorted_spec (l : list A) :
  StronglySorted key_le (sorted key l) /\
  sorted key l ≡ₚ l /\
  forall k, List.filter (with_key k) (sorted key l) = List.filter (with_key k) l.
Proof.
  destruct (sorted_from l [] (SSorted_nil _)) as (Hs & Hp & Hf).
  split; [done|]. split; [done|]. intros k. by rewrite Hf.
Qed.

End Sorting.

Lemma elem_of_primarily_identifies_from (es : list Edition) :
  forall (n i k : nat) (e : Edition),
  (k, e) ∈ primarily_identifies_from n i es <->
  exists j : nat, k = (n + j)%nat /\ es !! j = Some e /\ primary_identifier e = i.
Proof.
  induction es as [|e0 es IH]; intros n i k e; simpl.
  - split; [by intros ?%elem_of_nil|]. by intros (j & _ & ? & _).
  - destruct (Nat.eqb_spec (primary_identifier e0) i) as [Hi|Hi].
    + rewrite elem_of_cons, IH. split.
      * intros [[= -> ->]|(j & -> & Hj & He)].
        -- exists 0%nat. split; [lia|done].
        -- exists (S j). split; [lia|done].
      * intros ([|j] & -> & Hj & He).
        -- left. simpl in Hj. injection Hj as ->. f_equal. lia.
        -- right. exists j. split; [lia|done].
    + rewrite IH. split.
      * intros (j & -> & Hj & He). exists (S j). split; [lia|done].
      * intros ([|j] & -> & Hj & He).
        -- simpl in Hj. injection Hj as ->. done.
        -- exists j. split; [lia|done].
Qed.

Lemma NoDup_primarily_identifies_from (es : list Edition) :
  forall n i : nat, NoDup (primarily_identifies_from n i es).
Proof.
  induction es as [|e0 es IH]; intros n i; simpl; [constructor|].
  destruct (primary_identifier e0 =? i)%nat; [|apply IH].
  constructor; [|apply IH].
  rewrite elem_of_primarily_identifies_from. intros (j & Hj & _). lia.
Qed.

(** [editions_in_priority_order] returns the Editions whose primary
    identifier is that of the pool, each of them once, in
    non-decreasing order of [sort_key]; Editions of equal key come in
    the order of the table. *)
Theorem editions_in_priority_order_sorted (self : pool_id) (s : State)
    (l : list (edition_id * Edition)) :
  editions_in_priority_order self s = Ok l ->
  exists pool i,
    pools s !! self = Some pool /\ pool_identifier pool = Some i /\
    (forall n e, (n, e) ∈ l <->
                 editions s !! n = Some e /\
                 primary_identifier e = identifier_id i) /\
    NoDup l /\
    StronglySorted (key_le (fun ne => sort_key pool (snd ne))) l /\
    forall k,
      List.filter (with_key (fun ne => sort_key pool (snd ne)) k) l =
      List.filter (with_key (fun ne => sort_key pool (snd ne)) k)
        (primarily_identifies_from 0 (identifier_id i) (editions s)).
Proof.
  unfold editions_in_priority_order, get_pool.
  destruct (pools s !! self) as [pool|] eqn:Hpool; [|done]. cbn [rbind].
  destruct (pool_identifier pool) as [i|] eqn:Hi; [|done].
  intros [= <-]. exists pool, i.
  destruct (sorted_spec (fun ne => sort_key pool (snd ne))
              (primarily_identifies_from 0 (identifier_id i) (editions s)))
    as (Hs & Hp & Hf).
  split; [done|]. split; [done|]. split; [|split; [|split; [done|done]]].
  - intros n e. rewrite Hp, elem_of_primarily_identifies_from. split.
    + by intros (j & -> & Hj & He).
    + intros [Hn He]. by exists n.
  - rewrite Hp. apply NoDup_primarily_identifies_from.
Qed.

(** Four Editions of identifier 7, which belongs to an Overdrive pool:
    one entered by library staff, one of an unlisted source, one of
    Overdrive, one of the metadata wrangler; and an Edition of another
    identifier. *)
Definition many_editions : State :=
  with_editions
    [ book DataSource.LIBRARY_STAFF 7 "Emma" "Austen, Jane";
      book DataSource.GUTENBERG 7 "Emma" "Austen, Jane";
      book DataSource.OVERDRIVE 8 "Persuasion" "Austen, Jane";
      book DataSource.OVERDRIVE 7 "Emma" "Austen, Jane";
      book DataSource.METADATA_WRANGLER 7 "Emma" "Austen, Jane" ]
    (with_pools [ member 7 DataSource.OVERDRIVE false (Some 0%nat) 0 ]
                mixed_work).

Lemma editions_in_priority_order_sorted_witness :
  editions_in_priority_order 0 many_editions =
    Ok [ (1%nat, book DataSource.GUTENBERG 7 "Emma" "Austen, Jane");
         (3%nat, book DataSource.OVERDRIVE 7 "Emma" "Austen, Jane");
         (4%nat, book DataSource.METADATA_WRANGLER 7 "Emma" "Austen, Jane");
         (0%nat, book DataSource.LIBRARY_STAFF 7 "Emma" "Austen, Jane") ] /\
  exists pool i,
    pools many_editions !! 0%nat = Some pool /\
    pool_identifier pool = Some i /\
    NoDup [ (1%nat, book DataSource.GUTENBERG 7 "Emma" "Austen, Jane");
            (3%nat, book DataSource.OVERDRIVE 7 "Emma" "Austen, Jane");
            (4%nat, book DataSource.METADATA_WRANGLER 7 "Emma" "Austen, Jane");
            (0%nat, book DataSource.LIBRARY_STAFF 7 "Emma" "Austen, Jane") ].
Proof.
  assert (H : editions_in_priority_order 0 many_editions =
    Ok [ (1%nat, book DataSource.GUTENBERG 7 "Emma" "Austen, Jane");
         (3%nat, book DataSource.OVERDRIVE 7 "Emma" "Austen, Jane");
         (4%nat, book DataSource.METADATA_WRANGLER 7 "Emma" "Austen, Jane");
         (0%nat, book DataSource.LIBRARY_STAFF 7 "Emma" "Austen, Jane") ])
    by (vm_compute; reflexivity).
  split; [exact H|].
  destruct (editions_in_priority_order_sorted 0 many_editions _ H)
    as (pool & i & Hpool & Hi & _ & Hnd & _).
  by exists pool, i.
Defined.

End EditionOrder.

(** ** Further properties of the clustering code *)

Module ClusteringMore.
Import ClusteringFacts.

(** *** Running the monad backwards *)

Lemma bind_return_inv {S A B : Type} (m : M S A) (k : A -> M S B)
    (s s' : S) (v : B) :
  bind m k s = (Return v, s') ->
  exists a s1, m s = (Return a, s1) /\ k a s1 = (Return v, s').
Proof.
  unfold bind. destruct (m s) as [[a|e|] s1]; [eauto|done|done].
Qed.

Lemma lift_return_inv {S A : Type} (r : S -> result A) (s s' : S) (a : A) :
  lift r s = (Return a, s') -> r s = Ok a /\ s' = s.
Proof.
  unfold lift. destruct (r s); [|done]. by intros [= -> ->].
Qed.

Lemma opt_string_eqb_eq (a b : option string) :
  opt_string_eqb a b = true <-> a = b.
Proof.
  destruct a as [x|], b as [y|]; simpl; try done.
  rewrite String.eqb_eq. split; congruence.
Qed.

(** *** [Work.pwids] *)

(** The permanent work ID that a pool contributes to its Work. *)
Definition pool_pwid (s : State) (pool : LicensePool) (x : string) : Prop :=
  exists e ed, pool_presentation_edition pool = Some e /\
               editions s !! e = Some ed /\ permanent_work_id ed = Some x.

Lemma pwids_loop (s : State) (members : list LicensePool) :
  forall acc l : list string,
  for_each
    (fun pool acc =>
       let* edition := presentation_edition_of pool s in
       match edition with
       | Some e =>
           match permanent_work_id e with
           | Some pwid =>
               if negb (String.eqb pwid "") && negb (bool_decide (pwid ∈ acc))
               then Ok (acc ++ [pwid])%list else Ok acc
           | None => Ok acc
           end
       | None => Ok acc
       end)
    members acc = Ok l ->
  NoDup acc ->
  NoDup l /\
  forall x, x ∈ l <->
            x ∈ acc \/
            (x <> "" /\ exists pool, pool ∈ members /\ pool_pwid s pool x).
Proof.
  induction members as [|pool members IH]; intros acc l; cbn [for_each].
  - intros [= <-] Hacc. split; [done|]. intros x. split; [auto|].
    intros [?|(_ & pool & ?%elem_of_nil & _)]; done.
  - unfold presentation_edition_of at 1, get_edition.
    destruct (pool_presentation_edition pool) as [e|] eqn:He; cbn [rbind].
    2: { intros H Hacc. destruct (IH _ _ H Hacc) as [Hnd Hin].
         split; [done|]. intros x. rewrite Hin. split.
         - intros [?|(Hx & p & Hp & Hpp)]; [auto|].
           right. split; [done|]. exists p. split; [by right|done].
         - intros [?|(Hx & p & Hp & Hpp)]; [auto|].
           apply elem_of_cons in Hp as [->|Hp]; [|by eauto 6].
           destruct Hpp as (e' & ed' & ? & _). congruence. }
    destruct (editions s !! e) as [ed|] eqn:Hed; cbn [rbind]; [|done].
    assert (Hskip : forall l,
      for_each
        (fun pool acc =>
           let* edition := presentation_edition_of pool s in
           match edition with
           | Some e =>
               match permanent_work_id e with
               | Some pwid =>
                   if negb (String.eqb pwid "")
                      && negb (bool_decide (pwid ∈ acc))
                   then Ok (acc ++ [pwid])%list else Ok acc
               | None => Ok acc
               end
           | None => Ok acc
           end) members acc = Ok l ->
      NoDup acc ->
      (forall x, pool_pwid s pool x -> x <> "" -> x ∈ acc) ->
      NoDup l /\
      forall x, x ∈ l <->
                x ∈ acc \/
                (x <> "" /\
                 exists p, p ∈ pool :: members /\ pool_pwid s p x)).
    { intros l0 H Hacc Hold. destruct (IH _ _ H Hacc) as [Hnd Hin].
      split; [done|]. intros x. rewrite Hin. split.
      - intros [?|(Hx & p & Hp & Hpp)]; [auto|].
        right. split; [done|]. exists p. split; [by right|done].
      - intros [?|(Hx & p & Hp & Hpp)]; [auto|].
        apply elem_of_cons in Hp as [->|Hp]; [auto|by eauto 6]. }
    destruct (permanent_work_id ed) as [pwid|] eqn:Hpw.
    2: { intros H Hacc. apply Hskip; [done|done|].
         intros x (e' & ed' & ? & ? & ?) _. congruence. }
    destruct (String.eqb_spec pwid "") as [Hempty|Hfull]; cbn [negb andb].
    { intros H Hacc. apply Hskip; [done|done|].
      intros x (e' & ed' & ? & ? & ?) Hx. congruence. }
    destruct (bool_decide (pwid ∈ acc)) eqn:Hseen; cbn [negb].
    { apply bool_decide_eq_true in Hseen.
      intros H Hacc. apply Hskip; [done|done|].
      intros x (e' & ed' & ? & ? & ?) Hx. congruence. }
    apply bool_decide_eq_false in Hseen. clear Hskip.
    intros H Hacc.
    assert (Hacc' : NoDup (acc ++ [pwid])%list).
    { apply list.NoDup_app. split; [done|]. split.
      - intros y Hy ->%list_elem_of_singleton. done.
      - apply NoDup_singleton. }
    destruct (IH _ _ H Hacc') as [Hnd Hin].
    split; [done|]. intros x.
    rewrite Hin, elem_of_app, list_elem_of_singleton. split.
    + intros [[?| ->]|(Hx & p & Hp & Hpp)]; [auto| |].
      * right. split; [done|]. exists pool. split; [by left|].
        by exists e, ed.
      * right. split; [done|]. exists p. split; [by right|done].
    + intros [?|(Hx & p & Hp & Hpp)]; [auto|].
      apply elem_of_cons in Hp as [->|Hp]; [|by eauto 6].
      destruct Hpp as (e' & ed' & ? & ? & ?).
      left. right. congruence.
Qed.

(** [pwids] holds each permanent work ID once, and holds exactly the
    non-empty permanent work IDs of the presentation editions of the
    pools of the Work. *)
Theorem pwids_spec (w : work_id) (s : State) (l : list string) :
  pwids w s = Ok l ->
  exists members,
    members_of w s = Ok members /\
    NoDup l /\
    forall x, x ∈ l <->
              x <> "" /\ exists pool, pool ∈ members /\ pool_pwid s pool x.
Proof.
  unfold pwids.
  destruct (members_of w s) as [members|] eqn:Hm; cbn [rbind]; [|done].
  intros H. exists members. split; [done|].
  destruct (pwids_loop s members [] l H (NoDup_nil_2)) as [Hnd Hin].
  split; [done|]. intros x. rewrite Hin. split; [|auto].
  by intros [?%elem_of_nil|?].
Qed.

Lemma pwids_spec_witness :
  exists members,
    members_of 0 two_claimants = Ok members /\
    NoDup [default "" emma; default "" persuasion] /\
    forall x, x ∈ [default "" emma; default "" persuasion] <->
              x <> "" /\
              exists pool, pool ∈ members /\ pool_pwid two_claimants pool x.
Proof.
  apply (pwids_spec 0 two_claimants). vm_compute. reflexivity.
Defined.

(** *** [Work.open_access_for_permanent_work_id] *)

(** The rows that the query of [open_access_for_permanent_work_id]
    selects: open-access pools whose presentation edition has the
    permanent work ID and the medium asked for. *)
Definition selected (pwid wanted_medium : option string) (s : State)
    (p : pool_id) : Prop :=
  exists pool e ed,
    pools s !! p = Some pool /\ pool_presentation_edition pool = Some e /\
    editions s !! e = Some ed /\ permanent_work_id ed = pwid /\
    open_access pool = true /\ medium ed = wanted_medium.

Lemma elem_of_query_from (pwid wanted_medium : option string) (s : State)
    (ps : list LicensePool) :
  forall n p : nat,
  p ∈ query_from n pwid wanted_medium s ps <->
  exists (j : nat) pool e ed,
    p = (n + j)%nat /\ ps !! j = Some pool /\
    pool_presentation_edition pool = Some e /\
    editions s !! e = Some ed /\ permanent_work_id ed = pwid /\
    open_access pool = true /\ medium ed = wanted_medium.
Proof.
  induction ps as [|pool ps IH]; intros n p; cbn [query_from].
  - split; [by intros ?%elem_of_nil|]. by intros (j & ? & ? & ? & _ & ? & _).
  - assert (Hrest :
      p ∈ query_from (S n) pwid wanted_medium s ps <->
      exists (j : nat) pool' e ed,
        p = (n + S j)%nat /\ ps !! j = Some pool' /\
        pool_presentation_edition pool' = Some e /\
        editions s !! e = Some ed /\ permanent_work_id ed = pwid /\
        open_access pool' = true /\ medium ed = wanted_medium).
    { rewrite IH. split; intros (j & q & e & ed & -> & H);
        exists j, q, e, ed; (split; [lia|done]). }
    assert (Hskip :
      ~ (exists e ed, pool_presentation_edition pool = Some e /\
                      editions s !! e = Some ed /\
                      permanent_work_id ed = pwid /\
                      open_access pool = true /\
                      medium ed = wanted_medium) ->
      p ∈ query_from (S n) pwid wanted_medium s ps <->
      exists (j : nat) pool' e ed,
        p = (n + j)%nat /\ (pool :: ps) !! j = Some pool' /\
        pool_presentation_edition pool' = Some e /\
        editions s !! e = Some ed /\ permanent_work_id ed = pwid /\
        open_access pool' = true /\ medium ed = wanted_medium).
    { intros Hno. rewrite Hrest. split.
      - intros (j & q & e & ed & -> & H). by exists (S j), q, e, ed.
      - intros ([|j] & q & e & ed & -> & Hq & H).
        + injection Hq as <-. exfalso. apply Hno. by exists e, ed.
        + by exists j, q, e, ed. }
    destruct (pool_presentation_edition pool) as [e|] eqn:He.
    2: { apply Hskip. by intros (? & ? & ? & _). }
    destruct (editions s !! e) as [ed|] eqn:Hed.
    2: { apply Hskip. intros (? & ? & ? & ? & _). congruence. }
    destruct (opt_string_eqb (permanent_work_id ed) pwid
              && open_access pool
              && opt_string_eqb (medium ed) wanted_medium) eqn:Hsel.
    2: { apply Hskip. intros (e' & ed' & [= <-] & Hed' & Hp & Ho & Hm).
         assert (ed' = ed) as -> by congruence.
         apply opt_string_eqb_eq in Hp, Hm. by rewrite Hp, Ho, Hm in Hsel. }
    apply andb_true_iff in Hsel as [[Hp Ho]%andb_true_iff Hm].
    apply opt_string_eqb_eq in Hp, Hm.
    rewrite elem_of_cons, Hrest. split.
    + intros [->|(j & q & e' & ed' & -> & H)].
      * exists 0%nat, pool, e, ed. split; [lia|done].
      * by exists (S j), q, e', ed'.
    + intros ([|j] & q & e' & ed' & -> & Hq & H).
      * left. lia.
      * right. by exists j, q, e', ed'.
Qed.

Lemma elem_of_open_access_pools_for (pwid wanted_medium : option string)
    (s : State) (p : pool_id) :
  p ∈ open_access_pools_for pwid wanted_medium s <->
  selected pwid wanted_medium s p.
Proof.
  unfold open_access_pools_for, selected. rewrite elem_of_query_from. split.
  - intros (j & pool & e & ed & -> & H). by exists pool, e, ed.
  - intros (pool & e & ed & H). by exists p, pool, e, ed.
Qed.

(** [pool.work = w] sets the foreign key of that pool and of no other
    pool. *)
Lemma assign_work_pools (p : pool_id) (w : option work_id) (s s' : State) :
  assign_work p w s = (Return tt, s') ->
  (exists pool, pools s' !! p = Some pool /\ pool_work pool = w) /\
  forall q, q <> p -> pools s' !! q = pools s !! q.
Proof.
  unfold assign_work, bind, lift, get_pool.
  destruct (pools s !! p) as [pool|] eqn:Hp; [|done].
  destruct (bool_decide (pool_work pool = w)) eqn:Hw.
  { apply bool_decide_eq_true_1 in Hw.
    intros [= <-]. split; [by exists pool|done]. }
  unfold modify, ret. intros H.
  assert (Hpools : pools s' = alter (with_pool_work w) p (pools s)).
  { destruct (pool_work pool) as [old|], w as [new|];
      injection H as <-; reflexivity. }
  rewrite Hpools. split.
  - exists (with_pool_work w pool). split; [|done].
    rewrite list_lookup_alter. destruct (decide (p = p)); [|done].
    by rewrite Hp.
  - intros q Hq. rewrite list_lookup_alter.
    by destruct (decide (p = q)); [subst|].
Qed.

Lemma assign_all_pools (work : work_id) (l : list pool_id) :
  forall s s' : State,
  for_ l (fun lp => assign_work lp (Some work)) s = (Return tt, s') ->
  (forall q pool, pools s !! q = Some pool -> pool_work pool = Some work ->
     exists pool', pools s' !! q = Some pool' /\
                   pool_work pool' = Some work) /\
  forall lp, lp ∈ l ->
    exists pool, pools s' !! lp = Some pool /\ pool_work pool = Some work.
Proof.
  induction l as [|p l IH]; intros s s'; cbn [for_].
  - intros [= <-]. split; [by eauto|]. by intros lp ?%elem_of_nil.
  - intros (a & s1 & Hp & Hl)%bind_return_inv. destruct a.
    apply assign_work_pools in Hp as [(pool & Hpool & Hw) Hother].
    destruct (IH _ _ Hl) as [Hkeep Hall].
    assert (Hstep : forall q pool0, pools s !! q = Some pool0 ->
              pool_work pool0 = Some work ->
              exists pool', pools s1 !! q = Some pool' /\
                            pool_work pool' = Some work).
    { intros q pool0 Hq Hq'. destruct (decide (q = p)) as [->|Hne].
      - by exists pool.
      - exists pool0. by rewrite Hother. }
    split.
    + intros q pool0 Hq Hq'.
      destruct (Hstep q pool0 Hq Hq') as (pool1 & H1 & H1').
      by apply (Hkeep q pool1).
    + intros lp [->|Hin]%elem_of_cons; [|by apply Hall].
      by apply (Hkeep p pool).
Qed.

Section WithCollaborators.
Variable ext : Collaborators.

(** When [open_access_for_permanent_work_id] returns, it returns no
    Work exactly when the query selects no pool, and then it reports
    nothing new and has written nothing; when it returns a Work, every
    pool that the query selected belongs to that Work. *)
Theorem open_access_for_permanent_work_id_gathers (fuel : nat)
    (pwid wanted_medium : option string) (s s' : State)
    (found : option work_id) (is_new : bool) :
  open_access_for_permanent_work_id ext fuel pwid wanted_medium s
    = (Return (found, is_new), s') ->
  match found with
  | None =>
      (forall p, ~ selected pwid wanted_medium s p) /\
      is_new = false /\ s' = s
  | Some work =>
      (exists p, selected pwid wanted_medium s p) /\
      forall p, selected pwid wanted_medium s p ->
        exists pool, pools s' !! p = Some pool /\ pool_work pool = Some work
  end.
Proof.
  destruct fuel as [|fuel]; [done|].
  cbn [open_access_for_permanent_work_id].
  intros (s0 & s1 & [= <- <-] & H)%bind_return_inv.
  destruct (open_access_pools_for pwid wanted_medium s) as [|lp lps] eqn:Hq.
  - injection H as <- <- <-. split; [|done].
    intros p Hp%elem_of_open_access_pools_for.
    rewrite Hq in Hp. by apply elem_of_nil in Hp.
  - apply bind_return_inv in H as ([work is_new0] & s2 & _ & H).
    apply bind_return_inv in H as ([] & s3 & Hfor & [= <- <- <-]).
    destruct (assign_all_pools _ _ _ _ Hfor) as [_ Hall].
    split.
    + exists lp. apply elem_of_open_access_pools_for. rewrite Hq. by left.
    + intros p Hp%elem_of_open_access_pools_for. rewrite Hq in Hp.
      by apply Hall.
Qed.

End WithCollaborators.

Lemma open_access_for_permanent_work_id_gathers_witness :
  (exists p, selected emma (Some EditionConstants.BOOK_MEDIUM) one_stray p) /\
  forall p, selected emma (Some EditionConstants.BOOK_MEDIUM) one_stray p ->
    exists pool,
      pools (snd (open_access_for_permanent_work_id
                    settled 30 emma (Some EditionConstants.BOOK_MEDIUM)
                    one_stray)) !! p = Some pool /\
      pool_work pool = Some 0%nat.
Proof.
  apply (open_access_for_permanent_work_id_gathers settled 30 emma
           (Some EditionConstants.BOOK_MEDIUM) one_stray _ (Some 0%nat) false).
  vm_compute. reflexivity.
Defined.

(** *** Refusals of [calculate_work] and [calculate_permanent_work_id] *)

Lemma assign_work_returns (p : pool_id) (w : option work_id) (s : State)
    (pool : LicensePool) :
  pools s !! p = Some pool ->
  exists s', assign_work p w s = (Return tt, s') /\
             editions s' = editions s.
Proof.
  intros Hp. unfold assign_work, bind, lift, get_pool. rewrite Hp.
  destruct (bool_decide (pool_work pool = w)); [by eexists|].
  unfold modify, ret.
  destruct (pool_work pool) as [old|], w as [new|]; by eexists.
Qed.

Definition known_media : list string :=
  [ EditionConstants.BOOK_MEDIUM; EditionConstants.AUDIO_MEDIUM;
    EditionConstants.MUSIC_MEDIUM; EditionConstants.PERIODICAL_MEDIUM;
    EditionConstants.VIDEO_MEDIUM ].

Lemma medium_for_permanent_work_id_raises (ed : Edition) :
  (exists kind, medium_for_permanent_work_id ed = Ok kind /\
                exists m, medium ed = Some m /\ m ∈ known_media) \/
  (medium_for_permanent_work_id ed = Raise UnboundLocalError /\
   forall m, medium ed = Some m -> m ∉ known_media).
Proof.
  unfold medium_for_permanent_work_id, known_media.
  destruct (medium ed) as [m|]; [|by right].
  repeat match goal with
         | |- context [String.eqb m ?c] =>
             destruct (String.eqb_spec m c) as [->|?]
         end;
    try (left; eexists; split; [reflexivity|]; eexists; split;
         [reflexivity|];
         repeat first [apply list_elem_of_here | apply list_elem_of_further]).
  right. split; [done|]. intros m' [= <-] Hin.
  repeat (apply elem_of_cons in Hin as [?|Hin]; [done|]).
  by apply elem_of_nil in Hin.
Qed.

Section Refusals.
Variable ext : Collaborators.

(** A pool without an identifier gets no Work: [calculate_work]
    returns [(None, False)], the pool's foreign key is null afterwards,
    and no other pool and no Edition has changed.  A [known_edition]
    that is not the presentation edition of this very pool is refused
    with [ValueError] before anything is written. *)
Theorem calculate_work_refuses (fuel : nat) (self : pool_id)
    (even_if_no_author : bool) (known_edition : option edition_id)
    (s : State) (pool : LicensePool) :
  pools s !! self = Some pool ->
  (pool_identifier pool = None ->
   exists s',
     calculate_work ext (S fuel) self even_if_no_author known_edition s
       = (Return (None, false), s') /\
     (exists pool', pools s' !! self = Some pool' /\ pool_work pool' = None) /\
     (forall q, q <> self -> pools s' !! q = pools s !! q) /\
     editions s' = editions s) /\
  (forall e, pool_identifier pool <> None -> known_edition = Some e ->
             is_presentation_for e s <> Some self ->
             calculate_work ext (S fuel) self even_if_no_author known_edition s
               = (Raised ValueError, s)).
Proof.
  intros Hp. split.
  - intros Hid. cbn [calculate_work].
    unfold bind at 1, lift at 1, get_pool at 1. rewrite Hp, Hid.
    destruct (assign_work_returns self None s pool Hp) as (s' & Hw & He).
    exists s'. unfold bind, ret. rewrite Hw.
    destruct (assign_work_pools _ _ _ _ Hw) as [Hself Hother].
    done.
  - intros e Hid -> Hfor. cbn [calculate_work].
    unfold bind at 1, lift at 1, get_pool at 1. rewrite Hp.
    destruct (pool_identifier pool); [|done].
    unfold bind, ret, get, raise.
    by rewrite bool_decide_eq_false_2.
Qed.

(** [calculate_permanent_work_id] raises in two cases only, and then
    it has written nothing: a null title with a subtitle
    ([TypeError]), and a title with a medium that is not one of the
    five known media ([UnboundLocalError]). *)
Theorem calculate_permanent_work_id_raises (e : edition_id) (s : State)
    (ed : Edition) :
  editions s !! e = Some ed ->
  match fst (calculate_permanent_work_id ext e s) with
  | Return _ =>
      (str_truthy (subtitle ed) = true -> title ed <> None) /\
      (forall t, title_for_permanent_work_id ed = Ok (Some t) -> t <> "" ->
                 exists m, medium ed = Some m /\ m ∈ known_media)
  | Raised x =>
      snd (calculate_permanent_work_id ext e s) = s /\
      ((x = TypeError /\ title ed = None /\ str_truthy (subtitle ed) = true) \/
       (x = UnboundLocalError /\
        (exists t, title_for_permanent_work_id ed = Ok (Some t) /\ t <> "") /\
        forall m, medium ed = Some m -> m ∉ known_media))
  | Exhausted => False
  end.
Proof.
  intros He.
  destruct (calculate_permanent_work_id ext e s) as [o s'] eqn:H.
  cbn [fst snd]. revert H.
  unfold calculate_permanent_work_id, bind, lift, modify, get_edition.
  rewrite He. unfold title_for_permanent_work_id.
  destruct (str_truthy (subtitle ed)) eqn:Hsub.
  - destruct (title ed) as [t|] eqn:Ht.
    2: { intros [= <- <-]. split; [done|]. left. done. }
    destruct (subtitle ed) as [st|] eqn:Hst; [|done].
    assert (Hfull : str_truthy (Some (t ++ ": " ++ st)) = true).
    { simpl. destruct t; reflexivity. }
    rewrite Hfull. cbn [negb].
    destruct (medium_for_permanent_work_id_raises ed) as
      [(kind & -> & Hm)|[-> Hm]]; intros [= <- <-].
    + split; [done|]. by intros.
    + split; [done|]. right. split; [done|]. split; [|done].
      exists (t ++ ": " ++ st). split; [done|]. by destruct t.
  - destruct (str_truthy (title ed)) eqn:Ht; cbn [negb].
    2: { intros [= <- <-]. split; [done|]. intros t [= Heq] Hne.
         rewrite Heq in Ht. simpl in Ht.
         apply negb_false_iff, String.eqb_eq in Ht. done. }
    destruct (medium_for_permanent_work_id_raises ed) as
      [(kind & -> & Hm)|[-> Hm]]; intros [= <- <-].
    + split; [done|]. by intros.
    + split; [done|]. right. split; [done|]. split; [|done].
      destruct (title ed) as [t|]; [|done]. exists t. split; [done|].
      simpl in Ht. intros ->. done.
Qed.

End Refusals.

(** A pool without an identifier in a Work, and a pool with one. *)
Definition anonymous : State :=
  with_pools
    [ {| pool_identifier := None;
         pool_data_source := DataSource.GUTENBERG;
         open_access := true;
         superceded := false;
         suppressed := false;
         pool_work := Some 0%nat;
         pool_presentation_edition := Some 0%nat;
         open_access_links := [] |};
      member 2 DataSource.GUTENBERG true (Some 0%nat) 1;
      member 3 DataSource.STANDARD_EBOOKS true (Some 0%nat) 2 ]
    mixed_work.

Lemma calculate_work_refuses_witness :
  (exists s',
     calculate_work settled 1 0 false None anonymous
       = (Return (None, false), s') /\
     (exists pool', pools s' !! 0%nat = Some pool' /\
                    pool_work pool' = None) /\
     (forall q, q <> 0%nat -> pools s' !! q = pools anonymous !! q) /\
     editions s' = editions anonymous) /\
  calculate_work settled 1 1 false (Some 0%nat) anonymous
    = (Raised ValueError, anonymous).
Proof.
  split.
  - eapply (calculate_work_refuses settled 0 0 false None anonymous);
      reflexivity.
  - eapply (calculate_work_refuses settled 0 1 false (Some 0%nat) anonymous);
      [reflexivity|done|reflexivity|]. vm_compute. discriminate.
Defined.

(** An Edition of a medium that the code does not know. *)
Definition courseware : Edition :=
  {| edition_data_source := Some DataSource.OVERDRIVE;
     primary_identifier := 1;
     title := Some "Emma";
     subtitle := None;
     author := Some "Austen, Jane";
     sort_author := None;
     author_contributors := [];
     medium := Some "Courseware";
     permanent_work_id := None |}.

Lemma calculate_permanent_work_id_raises_witness :
  snd (calculate_permanent_work_id settled 0
         (with_editions [courseware] mixed_work))
    = with_editions [courseware] mixed_work /\
  ((UnboundLocalError = TypeError /\ title courseware = None /\
    str_truthy (subtitle courseware) = true) \/
   (UnboundLocalError = UnboundLocalError /\
    (exists t, title_for_permanent_work_id courseware = Ok (Some t) /\
               t <> "") /\
    forall m, medium courseware = Some m -> m ∉ known_media)).
Proof.
  exact (calculate_permanent_work_id_raises settled 0
           (with_editions [courseware] mixed_work) courseware eq_refl).
Defined.

End ClusteringMore.

(** ** Further properties of the presentation recompute *)

Module PresentationMore.
Import ClusteringFacts PresentationFacts.

Lemma resource_eqb_refl (r : option Resource) : resource_eqb r r = true.
Proof. destruct r; simpl; [apply String.eqb_refl|done]. Qed.

Lemma opt_string_eqb_refl (a : option string) : opt_string_eqb a a = true.
Proof. destruct a; simpl; [apply String.eqb_refl|done]. Qed.

Lemma Qeq_bool_same (q : Q) : Qeq_bool q q = true.
Proof. apply Qeq_bool_iff. reflexivity. Qed.

(** A policy that chooses no edition, classifies nothing, chooses no
    summary, computes no quality and asks for no OPDS entries and no
    search index. *)
Definition all_off (policy : PresentationCalculationPolicy) : Prop :=
  choose_edition policy = false /\ classify policy = false /\
  choose_summary policy = false /\ calculate_quality policy = false /\
  regenerate_opds_entries policy = false /\
  update_search_index policy = false.

(** With every step of the policy switched off,
    [calculate_presentation] writes nothing and calls none of its
    collaborators: on a Work that has a quality it reports no change,
    and on a Work whose quality is null it raises [TypeError]. *)
Theorem calculate_presentation_all_off (ext : Collaborators) (fuel : nat)
    (self : work_id) (policy : PresentationCalculationPolicy) (s : State)
    (work : Work) (members : list LicensePool) :
  all_off policy ->
  works s !! self = Some work ->
  members_of self s = Ok members ->
  calculate_presentation ext fuel self policy s =
  match quality work with
  | Some _ => (Return false, s)
  | None => (Raised TypeError, s)
  end.
Proof.
  intros (Hce & Hcl & Hcs & Hcq & Hro & Hus) Hw Hm.
  unfold calculate_presentation, calculate_presentation_edition.
  rewrite Hce, Hcl, Hcs, Hcq, Hro, Hus. cbn [negb orb].
  unfold bind, lift, ret, get_work. rewrite Hw, Hm, Hw.
  unfold changed_flag.
  rewrite resource_eqb_refl, opt_string_eqb_refl. cbn [negb].
  destruct (quality work) as [q|]; cbn [float rbind]; [|done].
  by rewrite Qeq_bool_same.
Qed.

Definition nothing : PresentationCalculationPolicy :=
  {| choose_edition := false;
     set_edition_metadata := false;
     classify := false;
     choose_summary := false;
     calculate_quality := false;
     choose_cover := false;
     regenerate_opds_entries := false;
     update_search_index := false;
     verbose := false |}.

Lemma calculate_presentation_all_off_witness :
  calculate_presentation settled 5 0 nothing mixed_work
    = (Return false, mixed_work) /\
  calculate_presentation settled 5 0 nothing fresh_work
    = (Raised TypeError, fresh_work).
Proof.
  split.
  - eapply (calculate_presentation_all_off settled 5 0 nothing mixed_work
              (presented [0; 1; 2]%nat 1));
      [repeat split|reflexivity|reflexivity].
  - eapply (calculate_presentation_all_off settled 5 0 nothing fresh_work
              (with_license_pools [0%nat] new_work));
      [repeat split|reflexivity|reflexivity].
Defined.

End PresentationMore.

(** ** Holds *)

Module HoldFacts.
Import Hold.

Lemma cycles_closed_form (p l : Z) :
  (1 <= p)%Z -> (2 <= l)%Z -> (l <= p)%Z ->
  (if (p mod l =? 0)%Z then p / l - 1 else p / l)%Z = ((p - 1) / l)%Z.
Proof.
  intros Hp Hl Hlp.
  pose proof (Z.div_mod p l ltac:(lia)) as Hdm.
  pose proof (Z.mod_pos_bound p l ltac:(lia)) as Hm.
  destruct (Z.eqb_spec (p mod l) 0) as [H0|H0].
  - apply (Z.div_unique (p - 1) l (p / l - 1) (l - 1)); lia.
  - apply (Z.div_unique (p - 1) l (p / l) (p mod l - 1)); lia.
Qed.

Lemma calculate_until_cases
    (start queue_position total_licenses loan reservation : Z) :
  (0 <= queue_position)%Z -> (0 <= total_licenses)%Z ->
  _calculate_until start queue_position total_licenses loan reservation =
  if (queue_position =? 0)%Z then Some (start + reservation)%Z
  else if (total_licenses =? 0)%Z then None
  else if (total_licenses =? 1)%Z
  then Some (start + loan + (loan + reservation) * queue_position)%Z
  else Some (start + loan
             + (loan + reservation)
               * ((queue_position - 1) / total_licenses))%Z.
Proof.
  intros Hp Hl. unfold _calculate_until.
  destruct (Z.eqb_spec queue_position 0) as [|Hp0]; [done|].
  destruct (Z.eqb_spec total_licenses 0) as [|Hl0]; [done|].
  destruct (Z.eqb_spec total_licenses 1) as [->|Hl1].
  - destruct (Z.ltb_spec queue_position 1) as [|_]; [lia|].
    change (1 <? 1)%Z with false. cbn [andb]. rewrite Z.div_1_r. f_equal. lia.
  - destruct (Z.ltb_spec 1 total_licenses) as [_|]; [|lia]. cbn [andb].
    destruct (Z.ltb_spec queue_position total_licenses) as [Hlt|Hge].
    + rewrite (Z.div_small (queue_position - 1) total_licenses) by lia.
      f_equal. lia.
    + rewrite <- (cycles_closed_form queue_position total_licenses) by lia.
      destruct (queue_position mod total_licenses =? 0)%Z; f_equal; lia.
Qed.

(** The estimate of [_calculate_until] in closed form.  At the head of
    the queue it is the reservation period; without licenses there is
    none; with two licenses or more the patron waits one loan period
    and one further cycle for every full group of [total_licenses]
    patrons ahead; with a single license one cycle is counted for the
    patron too. *)
Theorem calculate_until_closed_form
    (start queue_position total_licenses loan reservation : Z) :
  (0 <= queue_position)%Z -> (0 <= total_licenses)%Z ->
  _calculate_until start queue_position total_licenses loan reservation =
  if (queue_position =? 0)%Z then Some (start + reservation)%Z
  else if (total_licenses =? 0)%Z then None
  else if (total_licenses =? 1)%Z
  then Some (start + loan + (loan + reservation) * queue_position)%Z
  else Some (start + loan
             + (loan + reservation)
               * ((queue_position - 1) / total_licenses))%Z.
Proof.
  intros Hp Hl. rewrite calculate_until_cases by done.
  destruct (queue_position =? 0)%Z; [done|].
  destruct (total_licenses =? 0)%Z; [done|].
  by destruct (total_licenses =? 1)%Z.
Qed.

Lemma calculate_until_closed_form_witness :
  _calculate_until 0 21 4 14 3 =
  Some (0 + 14 + (14 + 3) * ((21 - 1) / 4))%Z.
Proof.
  apply (calculate_until_closed_form 0 21 4 14 3); lia.
Defined.

(** One estimate is no later than another; no estimate at all, for a
    book that will never be available, is later than any date. *)
Definition no_later (t1 t2 : option Z) : Prop :=
  match t1, t2 with
  | _, None => True
  | Some t1, Some t2 => (t1 <= t2)%Z
  | None, Some _ => False
  end.

(** For queue positions and numbers of licenses that are not negative
    and a cycle, loan period plus reservation period, that is not
    negative: a patron further back in the queue is never given an
    earlier estimate, and more licenses never give a later one,
    provided that the patron in front is waiting (position 1 or more),
    or both are at position 0, or the reservation period is no longer
    than the loan period.  The proviso is needed: at position 0 the
    estimate is the reservation period, and with a loan period of 0 and
    a reservation period of 3 the patron at position 1 of a pool of two
    licenses is given the earlier date. *)
Theorem calculate_until_monotone
    (start p1 p2 l1 l2 loan reservation : Z) :
  (0 <= p1)%Z -> (p1 <= p2)%Z -> (0 <= l2)%Z -> (l2 <= l1)%Z ->
  (0 <= loan + reservation)%Z ->
  (1 <= p1 \/ p2 = 0 \/ reservation <= loan)%Z ->
  no_later (_calculate_until start p1 l1 loan reservation)
           (_calculate_until start p2 l2 loan reservation) /\
  ~ no_later (_calculate_until start 0 2 0 3)
             (_calculate_until start 1 2 0 3).
Proof.
  intros Hp1 Hp Hl2 Hl Hc Hfront. split.
  2: { unfold _calculate_until, no_later. cbn. lia. }
  rewrite !calculate_until_cases by lia.
  destruct (Z.eqb_spec p2 0) as [Hp20|Hp20].
  { destruct (Z.eqb_spec p1 0) as [_|]; [|lia]. unfold no_later. lia. }
  destruct (Z.eqb_spec l2 0) as [_|Hl20].
  { unfold no_later.
    by destruct (p1 =? 0)%Z, (l1 =? 0)%Z, (l1 =? 1)%Z. }
  destruct (Z.eqb_spec l1 0) as [|_]; [lia|].
  assert (Hle : (0 <= (p2 - 1) / l2 <= p2)%Z).
  { split; [apply Z.div_pos; lia|].
    transitivity (p2 - 1)%Z; [|lia]. apply Z.div_le_upper_bound; nia. }
  destruct (Z.eqb_spec p1 0) as [Hp10|Hp10].
  { assert (Hres : (reservation <= loan)%Z) by lia.
    unfold no_later. destruct (l2 =? 1)%Z; nia. }
  assert (Hdiv : ((p1 - 1) / l1 <= (p2 - 1) / l2)%Z).
  { transitivity ((p1 - 1) / l2)%Z.
    - apply Z.div_le_compat_l; lia.
    - apply Z.div_le_mono; lia. }
  assert (H0 : (0 <= (p1 - 1) / l1)%Z) by (apply Z.div_pos; lia).
  unfold no_later.
  destruct (Z.eqb_spec l1 1) as [->|Hl1], (Z.eqb_spec l2 1) as [->|Hl2'];
    nia.
Qed.

Lemma calculate_until_monotone_witness :
  no_later (_calculate_until 100 5 4 14 3) (_calculate_until 100 9 2 14 3)
  /\ no_later (_calculate_until 100 0 4 14 3) (_calculate_until 100 1 4 14 3)
  /\ no_later (_calculate_until 100 3 4 14 3) (_calculate_until 100 3 0 14 3).
Proof.
  split; [|split].
  - apply (calculate_until_monotone 100 5 9 4 2 14 3); lia.
  - apply (calculate_until_monotone 100 0 1 4 4 14 3); lia.
  - apply (calculate_until_monotone 100 3 3 4 0 14 3); lia.
Defined.

(** When the server gave no end date, [until] gives no estimate
    exactly when no reservation period is given, or the pool owns no
    license and the place of the patron in the queue is not 0: the
    recorded position, or the length of the queue when the position is
    missing or 0.  When the periods, the number of licenses, the
    length of the queue and the position are not negative, an estimate
    that is given is never earlier than the reading of the clock. *)
Theorem until_not_in_the_past (self : t) (utcnow loan : Z)
    (reservation : option Z) :
  end_ self = None ->
  (until self utcnow loan reservation = None <->
   reservation = None \/
   (licenses_owned self = 0%Z /\
    (position self = None \/ position self = Some 0%Z ->
     patrons_in_hold_queue self <> 0%Z))) /\
  ((0 <= loan)%Z ->
   (forall r, reservation = Some r -> (0 <= r)%Z) ->
   (0 <= licenses_owned self)%Z -> (0 <= patrons_in_hold_queue self)%Z ->
   (forall p, position self = Some p -> (0 <= p)%Z) ->
   forall estimate,
     until self utcnow loan reservation = Some estimate ->
     (utcnow <= estimate)%Z).
Proof.
  intros Hend. unfold until. rewrite Hend.
  destruct reservation as [r|].
  2: { split; [split; [by left|done]|]. done. }
  set (queue_position :=
         match position self with
         | Some p => if (p =? 0)%Z then patrons_in_hold_queue self else p
         | None => patrons_in_hold_queue self
         end).
  split.
  - unfold _calculate_until.
    destruct (Z.eqb_spec queue_position 0) as [H0|H0].
    + split; [done|]. intros [|(_ & Hqueue)]; [done|]. exfalso.
      unfold queue_position in H0.
      destruct (position self) as [p|] eqn:Hp.
      * destruct (Z.eqb_spec p 0) as [->|Hp0]; [|done].
        apply Hqueue; [by right|done].
      * apply Hqueue; [by left|done].
    + destruct (Z.eqb_spec (licenses_owned self) 0) as [Hl0|Hl0].
      * split; [|done]. intros _. right. split; [done|].
        unfold queue_position in H0.
        intros [Hn|Hn]; rewrite Hn in H0; done.
      * split; [done|]. intros [|(Hl & _)]; done.
  - intros Hloan Hres Hl Hq Hp estimate.
    assert (Hqp : (0 <= queue_position)%Z).
    { unfold queue_position. destruct (position self) as [p|]; [|done].
      destruct (p =? 0)%Z; [done|]. by apply Hp. }
    specialize (Hres r eq_refl).
    rewrite calculate_until_cases by done.
    destruct (Z.eqb_spec queue_position 0) as [H0|H0]; [intros [= <-]; lia|].
    destruct (Z.eqb_spec (licenses_owned self) 0) as [Hl0|Hl0]; [done|].
    assert (H1 : (0 <= (queue_position - 1) / licenses_owned self)%Z)
      by (apply Z.div_pos; lia).
    destruct (licenses_owned self =? 1)%Z; intros [= <-]; nia.
Qed.

Definition waiting : t :=
  {| start := Some 0%Z;
     end_ := None;
     position := None;
     licenses_owned := 4;
     patrons_in_hold_queue := 21 |}.

(** A hold on a title of which the pool owns nothing. *)
Definition stranded : t :=
  {| start := Some 0%Z;
     end_ := None;
     position := Some 0%Z;
     licenses_owned := 0;
     patrons_in_hold_queue := 2 |}.

Lemma until_not_in_the_past_witness :
  (until waiting 1000 14 (Some 3%Z) = Some 1099%Z /\ (1000 <= 1099)%Z) /\
  until stranded 1000 14 (Some 3%Z) = None.
Proof.
  split.
  - split; [reflexivity|].
    destruct (until_not_in_the_past waiting 1000 14 (Some 3%Z) eq_refl)
      as [_ Hlate].
    apply Hlate; [lia| |simpl; lia|simpl; lia| |reflexivity].
    + intros r [= <-]. lia.
    + intros p Hp. discriminate Hp.
  - destruct (until_not_in_the_past stranded 1000 14 (Some 3%Z) eq_refl)
      as [[_ Hnone] _].
    apply Hnone. right. split; [reflexivity|]. intros _. discriminate.
Defined.

End HoldFacts.

(** ** The quality of a Resource *)

Module ResourceQualityFacts.
Import ResourceQuality.

Lemma inject_Z_pos (n : Z) : (0 < n)%Z -> 0 < inject_Z n.
Proof. intros H. change 0 with (inject_Z 0). by rewrite <- Zlt_Qlt. Qed.

Lemma inject_Z_nonneg (n : Z) : (0 <= n)%Z -> 0 <= inject_Z n.
Proof. intros H. change 0 with (inject_Z 0). by rewrite <- Zle_Qle. Qed.





(** Casting a list of votes, one call of [add_quality_votes] each,
    until one of them raises. *)
Fixpoint cast (votes : list (Q * Z)) (self : t) : option error * t :=
  match votes with
  | [] => (None, self)
  | (vote, weight) :: rest =>
      match add_quality_votes vote weight self with
      | (None, self') => cast rest self'
      | failed => failed
      end
  end.

Fixpoint votes_weight (votes : list (Q * Z)) : Z :=
  match votes with
  | [] => 0
  | (_, weight) :: rest => (weight + votes_weight rest)%Z
  end.

Fixpoint total_score (votes : list (Q * Z)) : Q :=
  match votes with
  | [] => 0
  | (vote, weight) :: rest => vote * inject_Z weight + total_score rest
  end.

Lemma total_weight_nonneg (votes : list (Q * Z)) :
  Forall (fun v => (0 < snd v)%Z) votes -> (0 <= votes_weight votes)%Z.
Proof.
  induction 1 as [|[q w] votes Hw _ IH]; simpl in *; lia.
Qed.

Lemma cast_votes (votes : list (Q * Z)) :
  Forall (fun v => (0 < snd v)%Z) votes ->
  forall (self : t) (voted : Q) (count : Z),
  voted_quality self = Some voted ->
  votes_for_quality self = Some count ->
  (0 <= count)%Z ->
  exists self' voted',
    cast votes self = (None, self') /\
    votes_for_quality self' = Some (count + votes_weight votes)%Z /\
    voted_quality self' = Some voted' /\
    estimated_quality self' = estimated_quality self /\
    voted' * inject_Z (count + votes_weight votes)
      == voted * inject_Z count + total_score votes.
Proof.
  induction 1 as [|[q w] votes Hw Hall IH]; intros self voted count Hv Hc Hpos.
  - exists self, voted. cbn [cast votes_weight total_score].
    rewrite Z.add_0_r. split; [done|]. split; [done|]. split; [done|].
    split; [done|]. ring.
  - simpl in Hw. cbn [cast]. unfold add_quality_votes. rewrite Hv, Hc.
    destruct (Z.eqb_spec (count + w) 0) as [|_]; [lia|].
    unfold update_quality, ESTIMATED_QUALITY_WEIGHT.
    cbn [votes_for_quality with_voted_quality with_votes_for_quality
         from_option].
    unfold id.
    destruct (Z.eqb_spec (5 + (count + w)) 0) as [|_]; [lia|].
    match goal with
    | |- context [cast votes ?s1] =>
        destruct (IH s1 ((voted * inject_Z count + q * inject_Z w)
                         / inject_Z (count + w)) (count + w)%Z)
          as (self' & voted' & Hcast & Hcount & Hvoted & Hest & Hmean);
          [reflexivity|reflexivity|lia|]
    end.
    exists self', voted'. split; [exact Hcast|].
    cbn [votes_weight total_score].
    split; [by rewrite Hcount, Z.add_assoc|]. split; [done|].
    split; [done|].
    rewrite Z.add_assoc, Hmean.
    assert (Hw0 : 0 < inject_Z (count + w)) by (apply inject_Z_pos; lia).
    field. intros H. rewrite H in Hw0. by apply Qlt_irrefl in Hw0.
Qed.

(** After any number of votes of positive weight, cast one call at a
    time on a Resource whose vote columns are set, the voted quality
    is the weighted mean of all votes so far.  On a Resource with a
    null vote
    column, [add_quality_votes] raises [TypeError] and writes
    nothing. *)
Theorem add_quality_votes_weighted_mean (self : t) :
  (forall (votes : list (Q * Z)) (voted : Q) (count : Z),
     voted_quality self = Some voted ->
     votes_for_quality self = Some count ->
     (0 <= count)%Z ->
     Forall (fun v => (0 < snd v)%Z) votes ->
     exists self' voted',
       cast votes self = (None, self') /\
       votes_for_quality self' = Some (count + votes_weight votes)%Z /\
       voted_quality self' = Some voted' /\
       voted' * inject_Z (count + votes_weight votes)
         == voted * inject_Z count + total_score votes) /\
  (forall vote weight,
     voted_quality self = None \/ votes_for_quality self = None ->
     add_quality_votes vote weight self = (Some TypeError, self)).
Proof.
  split.
  - intros votes voted count Hv Hc Hpos Hall.
    destruct (cast_votes votes Hall self voted count Hv Hc Hpos)
      as (self' & voted' & H1 & H2 & H3 & _ & H5).
    by exists self', voted'.
  - intros vote weight [H|H]; unfold add_quality_votes; rewrite H; [done|].
    by destruct (voted_quality self).
Qed.

Definition unrated : t :=
  {| resource_id := 2;
     source_name := DataSource.OVERDRIVE;
     image_size := None;
     estimated_quality := Some (1 # 2);
     voted_quality := Some 0;
     votes_for_quality := Some 0%Z;
     quality := None |}.

Lemma add_quality_votes_weighted_mean_witness :
  (exists self' voted',
     cast [(1%Q, 2%Z); (1 # 2, 1%Z)] unrated = (None, self') /\
     votes_for_quality self'
       = Some (0 + votes_weight [(1%Q, 2%Z); (1 # 2, 1%Z)])%Z /\
     voted_quality self' = Some voted' /\
     voted' * inject_Z (0 + votes_weight [(1%Q, 2%Z); (1 # 2, 1%Z)])
       == 0 * inject_Z 0 + total_score [(1%Q, 2%Z); (1 # 2, 1%Z)]) /\
  add_quality_votes 1 1 (with_voted_quality None unrated)
    = (Some TypeError, with_voted_quality None unrated).
Proof.
  split.
  - destruct (add_quality_votes_weighted_mean unrated) as [H _].
    apply H; [reflexivity|reflexivity|lia|].
    repeat apply List.Forall_cons; [simpl; lia|simpl; lia|apply List.Forall_nil].
  - destruct (add_quality_votes_weighted_mean
                (with_voted_quality None unrated)) as [_ H].
    apply H. by left.
Defined.

(** *** Covers *)

Lemma Qlt_bool_iff (a b : Q) : Measurement.Qlt_bool a b = true <-> a < b.
Proof.
  unfold Measurement.Qlt_bool. rewrite negb_true_iff.
  destruct (Qle_bool b a) eqn:E.
  - apply Qle_bool_iff in E. split; [done|]. intros H.
    exfalso. by apply (Qlt_not_le _ _ H).
  - split; [|done]. intros _. apply Qnot_le_lt. intros H.
    apply Qle_bool_iff in H. congruence.
Qed.

Lemma Qlt_bool_false (a b : Q) : Measurement.Qlt_bool a b = false <-> b <= a.
Proof.
  unfold Measurement.Qlt_bool. rewrite negb_false_iff. apply Qle_bool_iff.
Qed.

Lemma three_factors (x y z : Q) :
  0 < x -> x <= 1 -> 0 < y -> y <= 1 -> 0 < z -> z <= 1 ->
  0 < x * y * z /\ x * y * z <= 1 /\
  (x * y * z == 1 <-> x == 1 /\ y == 1 /\ z == 1).
Proof.
  intros Hx0 Hx1 Hy0 Hy1 Hz0 Hz1.
  assert (Hxy0 : 0 < x * y) by nra.
  assert (Hxy1 : x * y <= 1) by nra.
  split; [nra|]. split; [nra|]. split.
  - intros H. assert (x * y == 1) by nra. assert (z == 1) by nra.
    assert (x == 1) by nra. assert (y == 1) by nra. done.
  - intros (-> & -> & ->). reflexivity.
Qed.

(** The three factors of the penalty for an image of known size. *)
Definition aspect_factor (width height : Z) : Q :=
  let aspect_ratio := inject_Z width / inject_Z height in
  if Measurement.Qlt_bool IDEAL_COVER_ASPECT_RATIO aspect_ratio
  then IDEAL_COVER_ASPECT_RATIO / aspect_ratio
  else aspect_ratio / IDEAL_COVER_ASPECT_RATIO.

Definition size_factor (size ideal : Z) : Q :=
  if (size <? ideal)%Z then inject_Z size / inject_Z ideal else 1.

Lemma aspect_factor_bounds (width height : Z) :
  (0 < width)%Z -> (0 < height)%Z ->
  0 < aspect_factor width height /\ aspect_factor width height <= 1 /\
  (aspect_factor width height == 1 <-> (3 * width = 2 * height)%Z).
Proof.
  intros Hw Hh. unfold aspect_factor, IDEAL_COVER_ASPECT_RATIO.
  pose proof (inject_Z_pos width Hw) as HW.
  pose proof (inject_Z_pos height Hh) as HH.
  set (W := inject_Z width) in *. set (H := inject_Z height) in *.
  assert (Hne : ~ H == 0) by (intros E; rewrite E in HH; by apply Qlt_irrefl in HH).
  assert (Hwne : ~ W == 0) by (intros E; rewrite E in HW; by apply Qlt_irrefl in HW).
  assert (Ha : (W / H) * H == W) by (field; done).
  assert (Ha0 : 0 < W / H) by (apply Qlt_shift_div_l; [done|]; lra).
  assert (Hint : 3 * W == 2 * H <-> (3 * width = 2 * height)%Z).
  { unfold W, H. change 3 with (inject_Z 3). change 2 with (inject_Z 2).
    rewrite <- !inject_Z_mult. split.
    - intros E. unfold Qeq in E. simpl in E. lia.
    - intros E. rewrite E. reflexivity. }
  rewrite <- Hint.
  destruct (Measurement.Qlt_bool (2 # 3) (W / H)) eqn:E.
  - apply Qlt_bool_iff in E.
    assert (Hd : ((2 # 3) / (W / H)) * W == (2 # 3) * H) by (field; tauto).
    set (d := (2 # 3) / (W / H)) in *.
    assert (Hlt : (2 # 3) * H < W).
    { apply (Qmult_lt_r _ _ H HH) in E. rewrite Ha in E. done. }
    split; [nra|]. split; [nra|]. split; intros; nra.
  - apply Qlt_bool_false in E.
    assert (Hd : (W / H) / (2 # 3) == (3 # 2) * (W / H)) by (field; done).
    rewrite Hd.
    assert (Hle : W <= (2 # 3) * H).
    { apply (Qmult_le_r _ _ H HH) in E. rewrite Ha in E. done. }
    set (a := W / H) in *.
    split; [nra|]. split; [nra|]. split; intros; nra.
Qed.

Lemma size_factor_bounds (size ideal : Z) :
  (0 < size)%Z -> (0 < ideal)%Z ->
  0 < size_factor size ideal /\ size_factor size ideal <= 1 /\
  (size_factor size ideal == 1 <-> (ideal <= size)%Z).
Proof.
  intros Hs Hi. unfold size_factor.
  pose proof (inject_Z_pos size Hs) as HS.
  pose proof (inject_Z_pos ideal Hi) as HI.
  destruct (Z.ltb_spec size ideal) as [Hlt|Hge].
  - assert (Hlt' : inject_Z size < inject_Z ideal) by by rewrite <- Zlt_Qlt.
    assert (Hne : ~ inject_Z ideal == 0)
      by (intros E; rewrite E in HI; by apply Qlt_irrefl in HI).
    assert (Hd : (inject_Z size / inject_Z ideal) * inject_Z ideal
                 == inject_Z size) by (field; done).
    set (d := inject_Z size / inject_Z ideal) in *.
    split; [nra|]. split; [nra|]. split; [intros; nra|lia].
  - split; [done|]. split; [done|]. split; [done|reflexivity].
Qed.

Lemma shortfall_factor (size ideal : Z) :
  (0 < ideal)%Z ->
  (Measurement.Qlt_bool (inject_Z (size - ideal) / inject_Z ideal) 0
   = (size <? ideal)%Z) /\
  1 + inject_Z (size - ideal) / inject_Z ideal
    == inject_Z size / inject_Z ideal.
Proof.
  intros Hi. pose proof (inject_Z_pos ideal Hi) as HI.
  assert (Hne : ~ inject_Z ideal == 0)
    by (intros E; rewrite E in HI; by apply Qlt_irrefl in HI).
  assert (Hsub : inject_Z (size - ideal) == inject_Z size - inject_Z ideal).
  { unfold Z.sub. rewrite inject_Z_plus, inject_Z_opp. reflexivity. }
  split.
  - destruct (Z.ltb_spec size ideal) as [Hlt|Hge].
    + apply Qlt_bool_iff. apply Qlt_shift_div_r; [done|].
      rewrite Hsub. rewrite Zlt_Qlt in Hlt. lra.
    + apply Qlt_bool_false. apply Qle_shift_div_l; [done|].
      rewrite Hsub. rewrite Zle_Qle in Hge. lra.
  - rewrite Hsub. field. done.
Qed.

Lemma penalty_factors (width height : Z) :
  (0 < width)%Z -> (0 < height)%Z ->
  _thumbnail_size_quality_penalty (Some width) (Some height)
  == aspect_factor width height
     * size_factor width IDEAL_IMAGE_WIDTH
     * size_factor height IDEAL_IMAGE_HEIGHT.
Proof.
  intros Hw Hh. unfold _thumbnail_size_quality_penalty, nonzero.
  destruct (Z.eqb_spec width 0) as [|_]; [lia|].
  destruct (Z.eqb_spec height 0) as [|_]; [lia|].
  fold (aspect_factor width height).
  destruct (shortfall_factor width IDEAL_IMAGE_WIDTH ltac:(done))
    as [-> Hfw].
  destruct (shortfall_factor height IDEAL_IMAGE_HEIGHT ltac:(done))
    as [-> Hfh].
  unfold size_factor.
  destruct (Qeq_bool (aspect_factor width height) 1) eqn:Hd; cbn [negb].
  - apply Qeq_bool_iff in Hd.
    destruct (width <? IDEAL_IMAGE_WIDTH)%Z,
             (height <? IDEAL_IMAGE_HEIGHT)%Z;
      rewrite ?Hfw, ?Hfh, Hd; ring.
  - destruct (width <? IDEAL_IMAGE_WIDTH)%Z,
             (height <? IDEAL_IMAGE_HEIGHT)%Z;
      rewrite ?Hfw, ?Hfh; ring.
Qed.

(** For an image of known size the penalty is a factor in (0, 1], and
    it is 1 exactly for an image of the ideal proportions, two to
    three, that is at least 160 wide and 240 high. *)
Theorem thumbnail_size_quality_penalty_bounds (width height : Z) :
  (0 < width)%Z -> (0 < height)%Z ->
  0 < _thumbnail_size_quality_penalty (Some width) (Some height) /\
  _thumbnail_size_quality_penalty (Some width) (Some height) <= 1 /\
  (_thumbnail_size_quality_penalty (Some width) (Some height) == 1 <->
   (3 * width = 2 * height)%Z /\
   (IDEAL_IMAGE_WIDTH <= width)%Z /\ (IDEAL_IMAGE_HEIGHT <= height)%Z).
Proof.
  intros Hw Hh. rewrite (penalty_factors width height Hw Hh).
  destruct (aspect_factor_bounds width height Hw Hh) as (Ha0 & Ha1 & Ha).
  destruct (size_factor_bounds width IDEAL_IMAGE_WIDTH Hw ltac:(done))
    as (Hw0 & Hw1 & Hwi).
  destruct (size_factor_bounds height IDEAL_IMAGE_HEIGHT Hh ltac:(done))
    as (Hh0 & Hh1 & Hhi).
  destruct (three_factors _ _ _ Ha0 Ha1 Hw0 Hw1 Hh0 Hh1) as (H0 & H1 & Hi).
  split; [done|]. split; [done|]. by rewrite Hi, Ha, Hwi, Hhi.
Qed.

Lemma thumbnail_size_quality_penalty_bounds_witness :
  0 < _thumbnail_size_quality_penalty (Some 100%Z) (Some 200%Z) /\
  _thumbnail_size_quality_penalty (Some 100%Z) (Some 200%Z) <= 1 /\
  (_thumbnail_size_quality_penalty (Some 100%Z) (Some 200%Z) == 1 <->
   (3 * 100 = 2 * 200)%Z /\
   (IDEAL_IMAGE_WIDTH <= 100)%Z /\ (IDEAL_IMAGE_HEIGHT <= 200)%Z).
Proof.
  apply (thumbnail_size_quality_penalty_bounds 100 200); lia.
Defined.

(** *** [Resource.best_covers_among] *)

Lemma filter_agree {A : Type} (f g : A -> bool) (l : list A) :
  Forall (fun x => f x = g x) l -> List.filter f l = List.filter g l.
Proof.
  induction 1 as [|x l Hx _ IH]; simpl; [done|]. by rewrite Hx, IH.
Qed.

Lemma filter_nobody {A : Type} (f : A -> bool) (l : list A) :
  Forall (fun x => f x = false) l -> List.filter f l = [].
Proof.
  induction 1 as [|x l Hx _ IH]; simpl; [done|]. by rewrite Hx.
Qed.

Lemma filter_snoc {A : Type} (f : A -> bool) (l : list A) (x : A) :
  List.filter f (l ++ [x]) =
  (List.filter f l ++ (if f x then [x] else []))%list.
Proof. by rewrite List.filter_app. Qed.

Section cover_choice.

(** The [quality_as_thumbnail_image] property as it is evaluated. *)
Variable property : t -> option error * t * Q.

(** The value that the property returns for a resource, and the row
    as the property leaves it. *)
Definition thumbnail_value (r : t) : Q := snd (property r).
Definition row_after (r : t) : t := snd (fst (property r)).

(** A cover that passes the two tests of the loop. *)
Definition usable_cover (r : t) : bool :=
  match image_size r with
  | Some _ => Qle_bool MINIMUM_IMAGE_QUALITY (thumbnail_value r)
  | None => false
  end.

(** A usable cover that no usable cover of [l] exceeds. *)
Definition best (l : list t) (r : t) : bool :=
  usable_cover r
  && forallb (fun r' => negb (usable_cover r')
                        || Qle_bool (thumbnail_value r') (thumbnail_value r))
             l.

(** The property does not raise for a resource that has a
    Representation. *)
Definition returns (r : t) : Prop :=
  image_size r <> None -> fst (fst (property r)) = None.

(** The quality column that the property leaves is the value that it
    returns. *)
Definition recorded (r : t) : Prop :=
  image_size r <> None ->
  exists q, quality (row_after r) = Some q /\ q == thumbnail_value r.

(** The champions are usable covers, in their order, and there is one
    as soon as there is a usable cover. *)
Lemma best_covers_loop_usable (rest : list t) :
  Forall returns rest ->
  forall (pre : list t) (champions : list nat) (champion_score : option Q)
         (seen : list t),
  champions `sublist_of` (resource_id <$> List.filter usable_cover pre) ->
  (champions = [] <-> List.filter usable_cover pre = []) ->
  exists champions' seen',
    best_covers_loop property rest champions champion_score seen
      = (None, champions', seen') /\
    champions' `sublist_of`
      (resource_id <$> List.filter usable_cover (pre ++ rest)) /\
    (champions' = [] <-> List.filter usable_cover (pre ++ rest) = []).
Proof.
  induction 1 as [|r rest Hr _ IH];
    intros pre champions score seen Hsub Hempty.
  { cbn [best_covers_loop]. rewrite app_nil_r. by eexists _, _. }
  cbn [best_covers_loop].
  replace (pre ++ r :: rest)%list with ((pre ++ [r]) ++ rest)%list
    by (by rewrite <- app_assoc).
  assert (Hskip : usable_cover r = false ->
            List.filter usable_cover (pre ++ [r]) = List.filter usable_cover pre).
  { intros Hu. by rewrite filter_snoc, Hu, app_nil_r. }
  destruct (image_size r) as [size|] eqn:Hsize.
  2: { assert (Hu : usable_cover r = false)
         by (unfold usable_cover; by rewrite Hsize).
       apply IH; by rewrite (Hskip Hu). }
  assert (Hret : fst (fst (property r)) = None)
    by (apply Hr; by rewrite Hsize).
  assert (Hv : snd (property r) = thumbnail_value r) by reflexivity.
  destruct (property r) as [[o r'] v]. cbn [fst snd] in Hret, Hv.
  subst o v.
  destruct (Qle_bool MINIMUM_IMAGE_QUALITY (thumbnail_value r)) eqn:Hmin;
    cbn [negb].
  2: { assert (Hu : usable_cover r = false)
         by (unfold usable_cover; by rewrite Hsize).
       apply IH; by rewrite (Hskip Hu). }
  assert (Hu : usable_cover r = true)
    by (unfold usable_cover; by rewrite Hsize).
  assert (Hgrow : resource_id <$> List.filter usable_cover (pre ++ [r])
            = ((resource_id <$> List.filter usable_cover pre)
               ++ [resource_id r])%list).
  { by rewrite filter_snoc, Hu, fmap_app. }
  assert (Hsome : List.filter usable_cover (pre ++ [r]) <> []).
  { rewrite filter_snoc, Hu. by destruct (List.filter usable_cover pre). }
  assert (Hnew : forall score' seen',
            exists champions' seen'',
              best_covers_loop property rest [resource_id r] score' seen'
                = (None, champions', seen'') /\
              champions' `sublist_of`
                (resource_id <$> List.filter usable_cover
                                   ((pre ++ [r]) ++ rest)) /\
              (champions' = [] <->
               List.filter usable_cover ((pre ++ [r]) ++ rest) = [])).
  { intros score' seen'. apply IH.
    - rewrite Hgrow. by apply sublist_inserts_l.
    - split; [done|]. intros E. by destruct Hsome. }
  destruct champions as [|c cs]; [apply Hnew|].
  destruct (match score with
            | Some score => Measurement.Qlt_bool score (thumbnail_value r)
            | None => true
            end); [apply Hnew|].
  destruct (match score with
            | Some score => Qeq_bool (thumbnail_value r) score
            | None => false
            end).
  - apply IH.
    + rewrite Hgrow. by apply sublist_app.
    + split; [done|]. intros E. by destruct Hsome.
  - apply IH.
    + rewrite Hgrow. by apply sublist_inserts_r.
    + split; [done|]. intros E. by destruct Hsome.
Qed.

Lemma best_snoc (pre : list t) (r x : t) :
  best (pre ++ [r]) x =
  best pre x
  && (negb (usable_cover r) || Qle_bool (thumbnail_value r) (thumbnail_value x)).
Proof.
  unfold best. rewrite forallb_app. cbn [forallb].
  rewrite andb_true_r. by rewrite andb_assoc.
Qed.

(** What the loop knows after the resources [pre], when the quality
    recorded is the value returned. *)
Definition champions_of (pre : list t) (champions : list nat)
    (champion_score : option Q) : Prop :=
  champions = resource_id <$> List.filter (best pre) pre /\
  match champions with
  | [] => Forall (fun r => usable_cover r = false) pre
  | _ :: _ =>
      exists score,
        champion_score = Some score /\
        Forall (fun r => usable_cover r = true -> thumbnail_value r <= score) pre /\
        Exists (fun r => usable_cover r = true /\ thumbnail_value r == score) pre
  end.

Lemma best_value (pre : list t) (score : Q) (x : t) :
  Forall (fun r => usable_cover r = true -> thumbnail_value r <= score) pre ->
  Exists (fun r => usable_cover r = true /\ thumbnail_value r == score) pre ->
  x ∈ pre -> best pre x = true -> thumbnail_value x == score.
Proof.
  intros Hmax Hwit Hx Hbest. unfold best in Hbest.
  apply andb_true_iff in Hbest as [Hu Hall].
  apply Qle_antisym.
  - rewrite list.Forall_forall in Hmax. by apply (Hmax x).
  - apply list.Exists_exists in Hwit as (r & Hr & Hur & Hvr).
    rewrite forallb_forall in Hall. apply list_elem_of_In in Hr.
    specialize (Hall r Hr). rewrite Hur in Hall. cbn [negb orb] in Hall.
    apply Qle_bool_iff in Hall. by rewrite <- Hvr.
Qed.

Lemma not_best_below (pre : list t) (score : Q) (x : t) :
  Exists (fun r => usable_cover r = true /\ thumbnail_value r == score) pre ->
  thumbnail_value x < score -> best pre x = false.
Proof.
  intros Hwit Hlt. unfold best.
  apply list.Exists_exists in Hwit as (r & Hr & Hur & Hvr).
  destruct (usable_cover x); [|done]. cbn [andb].
  apply not_true_is_false. intros Hall.
  rewrite forallb_forall in Hall. apply list_elem_of_In in Hr.
  specialize (Hall r Hr). rewrite Hur in Hall. cbn [negb orb] in Hall.
  apply Qle_bool_iff in Hall. rewrite Hvr in Hall.
  by apply (Qlt_not_le _ _ Hlt).
Qed.

Lemma best_covers_loop_spec (rest : list t) :
  Forall (fun r => returns r /\ recorded r) rest ->
  forall (pre : list t) (champions : list nat) (champion_score : option Q)
         (seen : list t),
  champions_of pre champions champion_score ->
  exists champions' seen',
    best_covers_loop property rest champions champion_score seen
      = (None, champions', seen') /\
    champions' = resource_id <$>
                   List.filter (best (pre ++ rest)) (pre ++ rest)%list.
Proof.
  induction 1 as [|r rest Hr _ IH]; intros pre champions score seen Hinv.
  { cbn [best_covers_loop]. rewrite app_nil_r. destruct Hinv as [-> _].
    by eexists _, _. }
  cbn [best_covers_loop].
  replace (pre ++ r :: rest)%list with ((pre ++ [r]) ++ rest)%list
    by (by rewrite <- app_assoc).
  destruct Hinv as [Hch Hscore].
  assert (Hskip : usable_cover r = false ->
            champions_of (pre ++ [r]) champions score).
  { intros Hu. split.
    - rewrite Hch, filter_snoc. unfold best at 3. rewrite Hu. cbn [andb].
      rewrite app_nil_r. f_equal. apply filter_agree.
      apply list.Forall_forall. intros x _. rewrite best_snoc, Hu.
      cbn [negb orb]. by rewrite andb_true_r.
    - destruct champions as [|c cs].
      + apply Forall_app. split; [done|]. by apply List.Forall_cons.
      + destruct Hscore as (s & Hs & Hmax & Hwit). exists s.
        split; [done|]. split.
        * apply Forall_app. split; [done|].
          apply List.Forall_cons; [|done]. intros Hu'. congruence.
        * apply Exists_app. by left. }
  destruct (image_size r) as [size|] eqn:Hsize.
  2: { apply IH, Hskip. unfold usable_cover. by rewrite Hsize. }
  destruct Hr as [Hret Hrec].
  assert (Himg : image_size r <> None) by (by rewrite Hsize).
  specialize (Hret Himg). destruct (Hrec Himg) as (q & Hq & Hqv).
  unfold row_after in Hq.
  assert (Hv : snd (property r) = thumbnail_value r) by reflexivity.
  destruct (property r) as [[o r'] v]. cbn [fst snd] in Hret, Hq, Hv.
  subst o v.
  destruct (Qle_bool MINIMUM_IMAGE_QUALITY (thumbnail_value r)) eqn:Hmin;
    cbn [negb].
  2: { apply IH, Hskip. unfold usable_cover. by rewrite Hsize. }
  assert (Hu : usable_cover r = true) by (unfold usable_cover; by rewrite Hsize).
  rewrite Hq.
  destruct champions as [|c cs].
  - (* the first usable cover *)
    apply IH. split.
    + rewrite filter_snoc, filter_nobody.
      * unfold best. rewrite Hu, forallb_app. cbn [andb forallb].
        rewrite (proj2 (Qle_bool_iff _ _) (Qle_refl _)), orb_true_r.
        cbn [andb]. rewrite andb_true_r.
        assert (Hall : forallb
                  (fun r' => negb (usable_cover r')
                             || Qle_bool (thumbnail_value r')
                                         (thumbnail_value r)) pre = true).
        { apply forallb_forall. intros x Hx%list_elem_of_In.
          rewrite list.Forall_forall in Hscore. by rewrite (Hscore x Hx). }
        by rewrite Hall.
      * eapply list.Forall_impl; [exact Hscore|]. intros x Hx.
        unfold best. by rewrite Hx.
    + exists q. split; [done|]. split.
      * apply Forall_app. split.
        -- eapply list.Forall_impl; [exact Hscore|]. intros x Hx. congruence.
        -- apply List.Forall_cons; [|done]. intros _. rewrite Hqv. apply Qle_refl.
      * apply Exists_app. right. apply Exists_cons_hd. split; [done|].
        by symmetry.
  - destruct Hscore as (s & -> & Hmax & Hwit).
    destruct (Measurement.Qlt_bool s (thumbnail_value r)) eqn:Hbeats.
    + (* a new champion *)
      apply Qlt_bool_iff in Hbeats.
      apply IH. split.
      * rewrite filter_snoc, filter_nobody.
        -- unfold best. rewrite Hu, forallb_app. cbn [andb forallb].
           rewrite (proj2 (Qle_bool_iff _ _) (Qle_refl _)), orb_true_r.
           cbn [andb]. rewrite andb_true_r.
           assert (Hall : forallb
                     (fun r' => negb (usable_cover r')
                                || Qle_bool (thumbnail_value r')
                                            (thumbnail_value r)) pre = true).
           { apply forallb_forall. intros x Hx%list_elem_of_In.
             destruct (usable_cover x) eqn:Hux; [|done]. cbn [negb orb].
             apply Qle_bool_iff. rewrite list.Forall_forall in Hmax.
             specialize (Hmax x Hx Hux). lra. }
           by rewrite Hall.
        -- apply list.Forall_forall. intros x Hx.
           rewrite best_snoc, Hu. cbn [negb orb].
           destruct (best pre x) eqn:Hbx; [|done]. cbn [andb].
           pose proof (best_value pre s x Hmax Hwit Hx Hbx) as Hvx.
           apply not_true_is_false. intros Hle%Qle_bool_iff. lra.
      * exists q. split; [done|]. split.
        -- apply Forall_app. split.
           ++ eapply list.Forall_impl; [exact Hmax|].
              intros x Hx Hux. specialize (Hx Hux). lra.
           ++ apply List.Forall_cons; [|done]. intros _. lra.
        -- apply Exists_app. right. apply Exists_cons_hd. split; [done|].
           by symmetry.
    + apply Qlt_bool_false in Hbeats.
      destruct (Qeq_bool (thumbnail_value r) s) eqn:Hties.
      * (* a tie *)
        apply Qeq_bool_iff in Hties.
        apply IH. split.
        -- rewrite filter_snoc, fmap_app, Hch. f_equal.
           ++ f_equal. apply filter_agree. apply list.Forall_forall.
              intros x Hx. rewrite best_snoc, Hu. cbn [negb orb].
              destruct (best pre x) eqn:Hbx; [|done]. cbn [andb].
              pose proof (best_value pre s x Hmax Hwit Hx Hbx) as Hvx.
              symmetry. apply Qle_bool_iff. lra.
           ++ unfold best. rewrite Hu, forallb_app. cbn [andb forallb].
              rewrite (proj2 (Qle_bool_iff _ _) (Qle_refl _)), orb_true_r.
              cbn [andb]. rewrite andb_true_r.
              assert (Hall : forallb
                        (fun r' => negb (usable_cover r')
                                   || Qle_bool (thumbnail_value r')
                                               (thumbnail_value r)) pre
                             = true).
              { apply forallb_forall. intros x Hx%list_elem_of_In.
                destruct (usable_cover x) eqn:Hux; [|done]. cbn [negb orb].
                apply Qle_bool_iff. rewrite list.Forall_forall in Hmax.
                specialize (Hmax x Hx Hux). lra. }
              by rewrite Hall.
        -- destruct (c :: cs)%list eqn:Hcs; [done|]. rewrite <- Hcs.
           cbn [app]. exists s. split; [done|]. split.
           ++ apply Forall_app. split; [done|].
              apply List.Forall_cons; [|done]. intros _. lra.
           ++ apply Exists_app. by left.
      * (* a lesser cover *)
        assert (Hlt : thumbnail_value r < s).
        { apply Qle_lt_or_eq in Hbeats as [Hlt|Heq]; [done|].
          apply Qeq_bool_iff in Heq. congruence. }
        apply IH. split.
        -- rewrite filter_snoc, Hch.
           rewrite (not_best_below (pre ++ [r]) s r);
             [|apply Exists_app; by left|done].
           rewrite app_nil_r. f_equal. apply filter_agree.
           apply list.Forall_forall. intros x Hx.
           rewrite best_snoc, Hu. cbn [negb orb].
           destruct (best pre x) eqn:Hbx; [|done]. cbn [andb].
           pose proof (best_value pre s x Hmax Hwit Hx Hbx) as Hvx.
           symmetry. apply Qle_bool_iff. lra.
        -- exists s. split; [done|]. split.
           ++ apply Forall_app. split; [done|].
              apply List.Forall_cons; [|done]. intros _. lra.
           ++ apply Exists_app. by left.
Qed.

(** Whatever values the [quality_as_thumbnail_image] property returns,
    as long as it raises for none of the resources that have a
    Representation: [best_covers_among] returns, in their order, only
    resources that have a Representation and whose value as a
    thumbnail reaches the minimum, and it returns none exactly when
    there is no such resource.  If moreover the quality that the
    property leaves on every such resource, which the loop takes as
    the score to beat, is the value that the property returned for it,
    the resources returned are exactly the usable ones that no usable
    one exceeds. *)
Theorem best_covers_among_spec (resources : list t) :
  Forall returns resources ->
  exists champions seen,
    best_covers_among property resources = (None, champions, seen) /\
    champions `sublist_of`
      (resource_id <$> List.filter usable_cover resources) /\
    (champions = [] <-> List.filter usable_cover resources = []) /\
    (Forall recorded resources ->
     champions = resource_id <$> List.filter (best resources) resources).
Proof.
  intros Hret. unfold best_covers_among.
  destruct (best_covers_loop_usable resources Hret [] [] None [])
    as (champions & seen & Hloop & Hsub & Hempty); [done|done|].
  exists champions, seen. cbn [app] in Hsub, Hempty.
  split; [done|]. split; [done|]. split; [done|].
  intros Hrec.
  destruct (best_covers_loop_spec resources) with
    (pre := @nil t) (champions := @nil nat) (champion_score := @None Q)
    (seen := @nil t) as (champions' & seen' & Hloop' & ->).
  - apply list.Forall_forall. intros r Hr.
    rewrite list.Forall_forall in Hret, Hrec. split; auto.
  - split; [done|]. constructor.
  - rewrite Hloop in Hloop'. by injection Hloop' as ->.
Qed.

End cover_choice.

Definition cover (n : nat) (source : string) (width height : Z) : t :=
  {| resource_id := n;
     source_name := source;
     image_size := Some (Some width, Some height);
     estimated_quality := None;
     voted_quality := None;
     votes_for_quality := None;
     quality := None |}.

Definition three_covers : list t :=
  [ cover 1 OPEN_LIBRARY 160 240;
    cover 2 DataSource.OVERDRIVE 80 120;
    cover 3 DataSource.GUTENBERG 160 240;
    cover 4 DataSource.OVERDRIVE 320 480;
    cover 5 DataSource.OVERDRIVE 160 240 ].

Lemma best_covers_among_spec_witness :
  exists champions seen,
    best_covers_among quality_as_thumbnail_image three_covers
      = (None, champions, seen) /\
    champions = [4; 5]%nat.
Proof.
  destruct (best_covers_among_spec quality_as_thumbnail_image three_covers)
    as (champions & seen & Hrun & _ & _ & Hbest).
  - repeat apply List.Forall_cons; try apply List.Forall_nil;
      intros _; reflexivity.
  - exists champions, seen. split; [exact Hrun|]. rewrite Hbest.
    + vm_compute. reflexivity.
    + repeat apply List.Forall_cons; try apply List.Forall_nil;
        intros _; eexists; (split; [vm_compute; reflexivity|]);
        vm_compute; reflexivity.
Defined.

(** Votes break ties: of two covers of the same value, each with five
    votes of 1 on record, only the first is returned, because the
    score to beat is the quality of the first, votes included. *)
Definition voted_cover (n : nat) : t :=
  {| resource_id := n;
     source_name := OPEN_LIBRARY;
     image_size := Some (Some 160%Z, Some 240%Z);
     estimated_quality := None;
     voted_quality := Some 1;
     votes_for_quality := Some 5%Z;
     quality := None |}.

Lemma best_covers_among_votes_break_ties :
  fst (best_covers_among quality_as_thumbnail_image
         [voted_cover 1; voted_cover 2]) = (None, [1%nat]) /\
  thumbnail_value quality_as_thumbnail_image (voted_cover 1)
    == thumbnail_value quality_as_thumbnail_image (voted_cover 2).
Proof. vm_compute. by repeat split. Qed.

End ResourceQualityFacts.

(** ** The genres of a Work *)

Module WorkGenresFacts.
Import WorkGenres.

(** The rows that a call leaves behind for the weights [items]. *)
Definition normalized (items : list (string * Q)) (total : Q) : list row :=
  (fun item => (fst item, snd item / total)) <$> items.

Lemma assign_loop_rows (items : list (string * Q)) (total : Q) :
  ~ total == 0 ->
  forall by_genre changed workgenres,
  exists by_genre' changed',
    assign_loop items total by_genre changed workgenres
    = inr ((workgenres ++ normalized items total)%list, by_genre', changed').
Proof.
  intros Hne.
  assert (Hb : Qeq_bool total 0 = false).
  { destruct (Qeq_bool total 0) eqn:E; [|done].
    by apply Qeq_bool_iff in E. }
  induction items as [|[g score] items IH];
    intros by_genre changed workgenres; cbn [assign_loop].
  - eexists _, _. by rewrite app_nil_r.
  - rewrite Hb.
    destruct (assoc_get g by_genre) as [old|].
    + destruct (IH (dict_del g by_genre)
                   (changed || negb (round2 old =? round2 (score / total))%Z)
                   (workgenres ++ [(g, score / total)])%list)
        as (b & c & ->).
      eexists _, _. cbn [normalized fmap list_fmap fst snd].
      by rewrite <- app_assoc.
    + destruct (IH by_genre true (workgenres ++ [(g, score / total)])%list)
        as (b & c & ->).
      eexists _, _. cbn [normalized fmap list_fmap fst snd].
      by rewrite <- app_assoc.
Qed.

Lemma assign_genres_from_weights_cases (current : list row)
    (genre_weights : list (string * Q)) :
  let total := sum (snd <$> genre_weights) in
  (assign_genres_from_weights current genre_weights = inl ZeroDivisionError
   <-> genre_weights <> [] /\ total == 0) /\
  (forall workgenres changed,
     assign_genres_from_weights current genre_weights
       = inr (workgenres, changed) ->
     workgenres = normalized genre_weights total).
Proof.
  intros total. unfold assign_genres_from_weights. fold total.
  set (by_genre :=
         fold_left (fun d wg => dict_set (fst wg) (snd wg) d) current []).
  destruct genre_weights as [|[g score] items].
  { cbn [assign_loop]. split.
    - split; [by destruct by_genre|]. by intros [? _].
    - by intros workgenres changed [= <- _]. }
  destruct (Qeq_bool total 0) eqn:Htotal.
  - cbn [assign_loop]. rewrite Htotal. apply Qeq_bool_iff in Htotal.
    split; [|done]. split; [|done]. intros _. by split.
  - assert (Hne : ~ total == 0).
    { intros E. apply Qeq_bool_iff in E. congruence. }
    destruct (assign_loop_rows ((g, score) :: items) total Hne
                by_genre false []) as (b & c & ->).
    split.
    + split; [done|]. by intros [_ E].
    + by intros workgenres changed [= <- _].
Qed.

(** Weights that are whole numbers, as a dict of genre weights. *)
Definition whole (weights : list (string * Z)) : list (string * Q) :=
  (fun gw => (fst gw, inject_Z (snd gw))) <$> weights.

Fixpoint weight_sum (weights : list (string * Z)) : Z :=
  match weights with
  | [] => 0
  | (_, weight) :: weights' => (weight + weight_sum weights')%Z
  end.

(** The whole numbers that a float holds exactly. *)
Definition exact (n : Z) : Prop := (Z.abs n <= 2 ^ 53)%Z.

Lemma sum_whole (weights : list (string * Z)) :
  sum (snd <$> whole weights) == inject_Z (weight_sum weights).
Proof.
  induction weights as [|[g w] weights IH];
    cbn [whole sum weight_sum fmap list_fmap fst snd]; [reflexivity|].
  fold (whole weights). rewrite IH, inject_Z_plus. reflexivity.
Qed.

(** For genre weights that are whole numbers, each of them and their
    sum small enough for a float to hold exactly:
    [assign_genres_from_weights] raises [ZeroDivisionError] exactly
    when there are weights and they sum to zero.  Otherwise the Work
    ends up with one row for each weighted genre, in the order of the
    weights, and the affinity of the row is the weight divided by the
    sum of the weights, the quotient of floats read as the exact
    quotient. *)
Theorem assign_genres_from_weights_normalizes (current : list row)
    (weights : list (string * Z)) :
  Forall (fun gw => exact (snd gw)) weights ->
  exact (weight_sum weights) ->
  (assign_genres_from_weights current (whole weights) = inl ZeroDivisionError
   <-> weights <> [] /\ weight_sum weights = 0%Z) /\
  (forall workgenres changed,
     assign_genres_from_weights current (whole weights)
       = inr (workgenres, changed) ->
     fst <$> workgenres = fst <$> weights /\
     Forall2 (fun wg gw =>
                snd wg * inject_Z (weight_sum weights) == inject_Z (snd gw))
             workgenres weights).
Proof.
  intros _ _.
  destruct (assign_genres_from_weights_cases current (whole weights))
    as [Hraise Hrows].
  assert (Hzero : sum (snd <$> whole weights) == 0 <->
                  weight_sum weights = 0%Z).
  { rewrite sum_whole. unfold Qeq. simpl. lia. }
  split.
  - rewrite Hraise, Hzero.
    split; intros [Hsome Hsum]; (split; [|done]); by destruct weights.
  - intros workgenres changed Hresult.
    rewrite (Hrows _ _ Hresult).
    assert (Hne : weights <> [] -> ~ sum (snd <$> whole weights) == 0).
    { intros Hsome E. destruct Hraise as [_ Hraise].
      rewrite Hraise in Hresult; [done|]. split; [|done].
      by destruct weights. }
    clear Hrows Hresult Hraise Hzero.
    pose proof (sum_whole weights) as Hsum.
    set (total := sum (snd <$> whole weights)) in *.
    set (n := weight_sum weights) in *.
    assert (Hall : weights = [] \/ ~ total == 0).
    { destruct weights; [by left|right]. by apply Hne. }
    clear Hne. clearbody total n.
    induction weights as [|[g w] weights IH];
      cbn [whole normalized fmap list_fmap fst snd]; [by split|].
    destruct Hall as [|Hne]; [done|].
    destruct (IH (or_intror Hne)) as [Hnames Haff].
    split; [by rewrite <- Hnames|]. constructor; [|done].
    cbn [snd]. rewrite <- Hsum. field. done.
Qed.

Lemma assign_genres_from_weights_normalizes_witness :
  (assign_genres_from_weights [] (whole [("Romance", 1%Z); ("Travel", (-1)%Z)])
     = inl ZeroDivisionError) /\
  exists workgenres changed,
    assign_genres_from_weights [] (whole [("Romance", 3%Z); ("Travel", 1%Z)])
      = inr (workgenres, changed) /\
    fst <$> workgenres = ["Romance"; "Travel"] /\
    Forall2 (fun wg gw => snd wg * inject_Z 4 == inject_Z (snd gw))
            workgenres [("Romance", 3%Z); ("Travel", 1%Z)].
Proof.
  split.
  - destruct (assign_genres_from_weights_normalizes
                [] [("Romance", 1%Z); ("Travel", (-1)%Z)]) as [H _].
    + repeat apply List.Forall_cons; try apply List.Forall_nil;
        unfold exact; simpl; lia.
    + unfold exact. simpl. lia.
    + apply H. split; [done|reflexivity].
  - destruct (assign_genres_from_weights_normalizes
                [] [("Romance", 3%Z); ("Travel", 1%Z)]) as [_ H].
    + repeat apply List.Forall_cons; try apply List.Forall_nil;
        unfold exact; simpl; lia.
    + unfold exact. simpl. lia.
    + eexists _, _. split; [vm_compute; reflexivity|].
      apply (H _ true). vm_compute. reflexivity.
Defined.

(** *** A second run *)

Lemma assoc_get_fresh {V : Type} (k : string) (d : list (string * V)) :
  k ∉ (fst <$> d) -> assoc_get k d = None.
Proof.
  induction d as [|[k' v'] d IH]; simpl; [done|].
  intros Hk. apply not_elem_of_cons in Hk as [Hne Hk].
  destruct (String.eqb_spec k' k); [congruence|]. by apply IH.
Qed.

Lemma dict_del_fresh {V : Type} (k : string) (d : list (string * V)) :
  k ∉ (fst <$> d) -> dict_del k d = d.
Proof.
  induction d as [|[k' v'] d IH]; simpl; [done|].
  intros Hk. apply not_elem_of_cons in Hk as [Hne Hk].
  destruct (String.eqb_spec k' k); [congruence|]. by rewrite IH.
Qed.

Lemma dict_set_fresh {V : Type} (k : string) (v : V) (d : list (string * V)) :
  k ∉ (fst <$> d) -> dict_set k v d = (d ++ [(k, v)])%list.
Proof.
  induction d as [|[k' v'] d IH]; simpl; [done|].
  intros Hk. apply not_elem_of_cons in Hk as [Hne Hk].
  destruct (String.eqb_spec k' k); [congruence|]. by rewrite IH.
Qed.

(** A dict built from rows of distinct genres holds the rows. *)
Lemma by_genre_rows (rows : list row) :
  NoDup (fst <$> rows) ->
  forall d, (forall k, k ∈ (fst <$> rows) -> k ∉ (fst <$> d)) ->
  fold_left (fun d wg => dict_set (fst wg) (snd wg) d) rows d
  = (d ++ rows)%list.
Proof.
  induction rows as [|[g a] rows IH]; intros Hnd d Hd; cbn [fold_left].
  - by rewrite app_nil_r.
  - cbn [fmap list_fmap fst] in Hnd. apply NoDup_cons in Hnd as [Hg Hnd].
    cbn [fst snd]. rewrite dict_set_fresh by (apply Hd; by left).
    rewrite IH; [by rewrite <- app_assoc|done|].
    intros k Hk. rewrite fmap_app. cbn [fmap list_fmap fst].
    intros [Hin|Hin%list_elem_of_singleton]%elem_of_app.
    + apply (Hd k); [by right|done].
    + subst. done.
Qed.

Lemma assign_loop_settled (items : list (string * Q)) (total : Q) :
  ~ total == 0 ->
  NoDup (fst <$> items) ->
  forall workgenres,
  assign_loop items total (normalized items total) false workgenres
  = inr ((workgenres ++ normalized items total)%list, [], false).
Proof.
  intros Hne.
  assert (Hb : Qeq_bool total 0 = false).
  { destruct (Qeq_bool total 0) eqn:E; [|done].
    by apply Qeq_bool_iff in E. }
  induction items as [|[g score] items IH]; intros Hnd workgenres.
  - cbn [assign_loop normalized fmap list_fmap]. by rewrite app_nil_r.
  - cbn [fmap list_fmap fst] in Hnd. apply NoDup_cons in Hnd as [Hg Hnd].
    cbn [assign_loop normalized fmap list_fmap fst snd assoc_get dict_del].
    rewrite Hb, String.eqb_refl, Z.eqb_refl. cbn [negb orb].
    assert (Hfresh : g ∉ (fst <$> normalized items total)).
    { unfold normalized. rewrite <- list_fmap_compose. exact Hg. }
    rewrite dict_del_fresh by done.
    fold (normalized items total).
    rewrite IH by done. by rewrite <- app_assoc.
Qed.

(** A second run with the same weights finds the Work as the first run
    left it: it returns the same rows and reports no change. *)
Theorem assign_genres_from_weights_settles (current : list row)
    (genre_weights : list (string * Q)) (workgenres : list row)
    (changed : bool) :
  NoDup (fst <$> genre_weights) ->
  assign_genres_from_weights current genre_weights
    = inr (workgenres, changed) ->
  assign_genres_from_weights workgenres genre_weights
    = inr (workgenres, false).
Proof.
  intros Hnd Hfirst.
  destruct (assign_genres_from_weights_cases current genre_weights)
    as [Hraise Hrows].
  rewrite (Hrows _ _ Hfirst) in *.
  destruct genre_weights as [|item items] eqn:Hitems; [done|].
  rewrite <- Hitems in *.
  set (total := sum (snd <$> genre_weights)) in *.
  assert (Hne : ~ total == 0).
  { intros E. destruct Hraise as [_ Hraise].
    rewrite Hraise in Hfirst; [done|]. split; [by rewrite Hitems|done]. }
  unfold assign_genres_from_weights. fold total.
  rewrite by_genre_rows.
  - cbn [app]. by rewrite assign_loop_settled.
  - unfold normalized. by rewrite <- list_fmap_compose.
  - intros k _. cbn [fmap list_fmap]. apply not_elem_of_nil.
Qed.

Lemma assign_genres_from_weights_settles_witness :
  assign_genres_from_weights
    (normalized [("Romance", 3 # 1); ("Travel", 1)] (4 # 1))
    [("Romance", 3 # 1); ("Travel", 1)]
  = inr (normalized [("Romance", 3 # 1); ("Travel", 1)] (4 # 1), false).
Proof.
  apply (assign_genres_from_weights_settles
           [("Travel", 1); ("Poetry", 1)]
           [("Romance", 3 # 1); ("Travel", 1)] _ true).
  - compute_done.
  - vm_compute. reflexivity.
Defined.

End WorkGenresFacts.

(** ** Availability of a LicensePool *)

Module AvailabilityFacts.
Import Availability.

(** A count that the caller gave and that differs from the one on
    record. *)
Definition differs (old new : option Z) : Prop :=
  exists v, new = Some v /\ old <> Some v.

Lemma compare_step_flag (as_of : Z) (changes_made : bool)
    (events : list event) (old new : option Z) (more_event : string)
    (fewer_event : option string) :
  let out := compare_step as_of (changes_made, events)
                          (old, new, more_event, fewer_event) in
  (fst out = true <-> changes_made = true \/ differs old new) /\
  (~ differs old new -> snd out = events) /\
  (List.length events <= List.length (snd out) <= S (List.length events))%nat.
Proof.
  unfold compare_step, differs. destruct new as [v|]; cbn [fst snd].
  2: { split; [|split; [done|lia]]. split; [auto|].
       by intros [?|(v & ? & _)]. }
  case_bool_decide as Hsame.
  - cbn [fst snd]. split; [|split; [done|lia]]. split; [auto|].
    intros [?|(v' & [= <-] & Hne)]; [done|]. by destruct Hne.
  - assert (Hd : exists v0, Some v = Some v0 /\ old <> Some v0) by eauto.
    destruct (if less old v then Some more_event else fewer_event);
      cbn [fst snd]; (split; [by split; auto|]); (split; [done|]);
      rewrite ?length_app; simpl; lia.
Qed.

Lemma update_availability_flag (self : t)
    (owned available reserved queue as_of : option Z) (utcnow : Z) :
  let out := update_availability self owned available reserved queue
                                 as_of utcnow in
  (fst (fst out) = true <->
   differs (licenses_owned self) owned \/
   differs (licenses_available self) available \/
   differs (licenses_reserved self) reserved \/
   differs (patrons_in_hold_queue self) queue) /\
  (fst (fst out) = false -> snd out = []) /\
  (List.length (snd out) <= 4)%nat.
Proof.
  unfold update_availability. cbn [fold_left].
  set (t := default utcnow as_of).
  pose proof (compare_step_flag t false [] (patrons_in_hold_queue self) queue
                HOLD_PLACE (Some HOLD_RELEASE)) as H1.
  destruct (compare_step t (false, []) _) as [c1 e1].
  pose proof (compare_step_flag t c1 e1 (licenses_available self) available
                CHECKIN (Some CHECKOUT)) as H2.
  destruct (compare_step t (c1, e1) _) as [c2 e2].
  pose proof (compare_step_flag t c2 e2 (licenses_reserved self) reserved
                AVAILABILITY_NOTIFY None) as H3.
  destruct (compare_step t (c2, e2) _) as [c3 e3].
  pose proof (compare_step_flag t c3 e3 (licenses_owned self) owned
                LICENSE_ADD (Some LICENSE_REMOVE)) as H4.
  destruct (compare_step t (c3, e3) _) as [c4 e4].
  cbn [fst snd] in *.
  destruct H1 as (F1 & K1 & L1), H2 as (F2 & K2 & L2),
           H3 as (F3 & K3 & L3), H4 as (F4 & K4 & L4).
  simpl in L1. split; [|split; [|lia]].
  - rewrite F4, F3, F2, F1. split.
    + intros [[[[?|?]|?]|?]|?]; [done|auto..].
    + intros [?|[?|[?|?]]]; auto 6.
  - intros Hc4.
    assert (N4 : ~ differs (licenses_owned self) owned)
      by (intros D; rewrite (proj2 F4) in Hc4; auto; done).
    assert (Hc3 : c3 = false)
      by (destruct c3; [rewrite (proj2 F4) in Hc4; auto|done]).
    assert (N3 : ~ differs (licenses_reserved self) reserved)
      by (intros D; rewrite (proj2 F3) in Hc3; auto; done).
    assert (Hc2 : c2 = false)
      by (destruct c2; [rewrite (proj2 F3) in Hc3; auto|done]).
    assert (N2 : ~ differs (licenses_available self) available)
      by (intros D; rewrite (proj2 F2) in Hc2; auto; done).
    assert (Hc1 : c1 = false)
      by (destruct c1; [rewrite (proj2 F2) in Hc2; auto|done]).
    assert (N1 : ~ differs (patrons_in_hold_queue self) queue)
      by (intros D; rewrite (proj2 F1) in Hc1; auto; done).
    by rewrite (K4 N4), (K3 N3), (K2 N2), (K1 N1).
Qed.

(** [update_availability] returns true exactly when one of the counts
    it was given differs from the count on record; it collects at most
    one event for each such count, and none otherwise. *)
Theorem update_availability_changes_made (self : t)
    (owned available reserved queue as_of : option Z) (utcnow : Z) :
  let out := update_availability self owned available reserved queue
                                 as_of utcnow in
  (fst (fst out) = true <->
   differs (licenses_owned self) owned \/
   differs (licenses_available self) available \/
   differs (licenses_reserved self) reserved \/
   differs (patrons_in_hold_queue self) queue) /\
  (fst (fst out) = false -> snd out = []) /\
  (List.length (snd out) <= 4)%nat.
Proof.
  intros out.
  destruct (update_availability_flag self owned available reserved queue
              as_of utcnow) as (Hflag & Hnone & Hcount).
  split; [exact Hflag|]. split; [exact Hnone|exact Hcount].
Qed.

Lemma keep_not_differs (old new : option Z) : ~ differs (keep new old) new.
Proof. intros (v & -> & H). by apply H. Qed.

(** A second call with the same counts finds nothing to change: it
    returns false, collects no event, and leaves the four counts as
    the first call left them. *)
Theorem update_availability_settles (self : t)
    (owned available reserved queue as_of as_of' : option Z)
    (utcnow utcnow' : Z) :
  let first := update_availability self owned available reserved queue
                                   as_of utcnow in
  let second := update_availability (snd (fst first)) owned available
                                    reserved queue as_of' utcnow' in
  fst (fst second) = false /\ snd second = [] /\
  licenses_owned (snd (fst second)) = licenses_owned (snd (fst first)) /\
  licenses_available (snd (fst second))
    = licenses_available (snd (fst first)) /\
  licenses_reserved (snd (fst second))
    = licenses_reserved (snd (fst first)) /\
  patrons_in_hold_queue (snd (fst second))
    = patrons_in_hold_queue (snd (fst first)).
Proof.
  intros first second.
  destruct (update_availability_flag (snd (fst first)) owned
              available reserved queue as_of' utcnow') as (Hflag & Hnone & _).
  fold second in Hflag, Hnone.
  assert (Hfalse : fst (fst second) = false).
  { destruct (fst (fst second)); [|done].
    destruct (proj1 Hflag eq_refl) as [D|[D|[D|D]]];
      unfold first, update_availability in D;
      destruct (fold_left _ _ _) in D; cbn [fst snd licenses_owned
        licenses_available licenses_reserved patrons_in_hold_queue] in D;
      by apply keep_not_differs in D. }
  split; [done|]. split; [by apply Hnone|].
  unfold second, first, update_availability.
  repeat destruct (fold_left _ _ _).
  cbn [fst snd licenses_owned licenses_available licenses_reserved
       patrons_in_hold_queue].
  by destruct owned, available, reserved, queue.
Qed.

End AvailabilityFacts.

(** ** Links of an OPDS entry *)

Module OPDSImporterFacts.
Import OPDSImporter.

Definition with_thumbnail (image_link : LinkData) (thumbnail_link : nat)
  : LinkData :=
  {| link_id := link_id image_link;
     rel := rel image_link;
     thumbnail := Some thumbnail_link |}.

(** The links with every image next to a thumbnail paired up, read
    from left to right. *)
Fixpoint paired (links : list LinkData) : list LinkData :=
  match links with
  | [] => []
  | link :: rest =>
      match rest with
      | [] => [link]
      | next_link :: rest' =>
          if is_thumbnail link && is_image next_link
          then with_thumbnail next_link (link_id link) :: paired rest'
          else if is_image link && is_thumbnail next_link
          then with_thumbnail link (link_id next_link) :: paired rest'
          else link :: paired rest
      end
  end.

Lemma set_thumbnail_fresh (i t : nat) (l : list LinkData) :
  i ∉ (link_id <$> l) -> set_thumbnail i t l = l.
Proof.
  unfold set_thumbnail. induction l as [|x l IH]; cbn [fmap list_fmap];
    [done|].
  intros Hi. apply not_elem_of_cons in Hi as [Hne Hi].
  destruct (Nat.eqb_spec (link_id x) i); [congruence|].
  f_equal. by apply IH.
Qed.

Lemma set_thumbnail_app (i t : nat) (l1 l2 : list LinkData) :
  set_thumbnail i t (l1 ++ l2)
  = (set_thumbnail i t l1 ++ set_thumbnail i t l2)%list.
Proof. unfold set_thumbnail. by rewrite fmap_app. Qed.

Lemma remove_app_fresh (x : nat) (l1 l2 : list LinkData) :
  x ∉ (link_id <$> l1) ->
  remove x (l1 ++ l2) =
  match remove x l2 with
  | Some r => Some (l1 ++ r)%list
  | None => None
  end.
Proof.
  induction l1 as [|y l1 IH]; cbn [app remove fmap list_fmap].
  - intros _. by destruct (remove x l2).
  - intros Hx. apply not_elem_of_cons in Hx as [Hne Hx].
    destruct (Nat.eqb_spec (link_id y) x); [congruence|].
    rewrite IH by done. by destruct (remove x l2).
Qed.

Lemma picture_of_pair (link next_link : LinkData) :
  (is_thumbnail link && is_image next_link
   || is_image link && is_thumbnail next_link) = true ->
  (is_thumbnail link || is_image link) = true /\
  (is_thumbnail next_link || is_image next_link) = true.
Proof.
  destruct (is_thumbnail link), (is_image link), (is_thumbnail next_link),
           (is_image next_link); cbn; auto.
Qed.

(** The loop computes the pairing, on links that are distinct
    objects. *)
Lemma consolidate_loop_paired (n : nat) :
  forall (links pre : list LinkData),
  (List.length links <= n)%nat ->
  NoDup (link_id <$> (pre ++ links)%list) ->
  consolidate_loop links false (pre ++ links)%list
  = inr (pre ++ paired links)%list.
Proof.
  induction n as [|n IH]; intros links pre Hlen Hnd.
  { destruct links; [|simpl in Hlen; lia]. done. }
  destruct links as [|link rest]; [done|].
  cbn [consolidate_loop paired].
  assert (Hstep : consolidate_loop rest false (pre ++ link :: rest)%list
                  = inr (pre ++ link :: paired rest)%list).
  { replace (pre ++ link :: rest)%list with ((pre ++ [link]) ++ rest)%list
      by (by rewrite <- app_assoc).
    rewrite IH; [by rewrite <- app_assoc|simpl in Hlen; lia|].
    by rewrite <- app_assoc. }
  destruct rest as [|next_link rest'].
  { by destruct (negb (is_thumbnail link || is_image link)). }
  assert (Hids : NoDup (link_id <$> pre) /\
                 (link_id link ∉ (link_id <$> pre)) /\
                 (link_id next_link ∉ (link_id <$> pre)) /\
                 link_id link <> link_id next_link /\
                 (link_id link ∉ (link_id <$> rest')) /\
                 (link_id next_link ∉ (link_id <$> rest')) /\
                 NoDup (link_id <$> (pre ++ rest')%list)).
  { rewrite fmap_app in Hnd. cbn [fmap list_fmap] in Hnd.
    apply list.NoDup_app in Hnd as (Hpre & Hdisj & Htail).
    apply NoDup_cons in Htail as [Hl Htail].
    apply NoDup_cons in Htail as [Hn Htail].
    apply not_elem_of_cons in Hl as [Hln Hl].
    split; [done|]. split.
    { intros Hin. apply (Hdisj _ Hin). by left. }
    split.
    { intros Hin. apply (Hdisj _ Hin). right. by left. }
    split; [done|]. split; [done|]. split; [done|].
    rewrite fmap_app. apply list.NoDup_app. split; [done|]. split; [|done].
    intros x Hx Hx'. apply (Hdisj _ Hx). right. by right. }
  destruct Hids as (Hpre & Hlp & Hnp & Hln & Hlr & Hnr & Hnd').
  destruct (is_thumbnail link && is_image next_link) eqn:Hti.
  - (* a thumbnail, then its image *)
    destruct (picture_of_pair link next_link) as [Hl Hn];
      [by rewrite Hti|].
    rewrite Hl. cbn [negb].
    rewrite set_thumbnail_app, (set_thumbnail_fresh _ _ pre) by done.
    unfold set_thumbnail at 1. cbn [fmap list_fmap].
    destruct (Nat.eqb_spec (link_id link) (link_id next_link)) as [|_];
      [done|].
    rewrite Nat.eqb_refl.
    fold (set_thumbnail (link_id next_link) (link_id link) rest').
    rewrite (set_thumbnail_fresh _ _ rest') by done.
    rewrite remove_app_fresh by done. cbn [remove].
    rewrite Nat.eqb_refl.
    cbn [consolidate_loop]. rewrite Hn. cbn [negb].
    fold (with_thumbnail next_link (link_id link)).
    replace (pre ++ with_thumbnail next_link (link_id link) :: rest')%list
      with ((pre ++ [with_thumbnail next_link (link_id link)]) ++ rest')%list
      by (by rewrite <- app_assoc).
    rewrite IH; [by rewrite <- app_assoc|simpl in Hlen; lia|].
    rewrite <- app_assoc. cbn [app].
    rewrite fmap_app in *. cbn [fmap list_fmap with_thumbnail link_id].
    apply list.NoDup_app in Hnd' as (_ & Hdisj & Hrest).
    apply list.NoDup_app. split; [done|]. split.
    + intros x Hx [->|Hx']%elem_of_cons; [done|]. by apply (Hdisj x).
    + by apply NoDup_cons.
  - destruct (is_image link && is_thumbnail next_link) eqn:Hit.
    + (* an image, then its thumbnail *)
      destruct (picture_of_pair link next_link) as [Hl Hn];
        [by rewrite Hit, orb_true_r|].
      rewrite Hl. cbn [negb].
      rewrite set_thumbnail_app, (set_thumbnail_fresh _ _ pre) by done.
      unfold set_thumbnail at 1. cbn [fmap list_fmap].
      rewrite Nat.eqb_refl.
      destruct (Nat.eqb_spec (link_id next_link) (link_id link)) as [|_];
        [congruence|].
      fold (set_thumbnail (link_id link) (link_id next_link) rest').
      rewrite (set_thumbnail_fresh _ _ rest') by done.
      rewrite remove_app_fresh by done. cbn [remove link_id].
      destruct (Nat.eqb_spec (link_id link) (link_id next_link)) as [|_];
        [done|].
      rewrite Nat.eqb_refl.
      cbn [consolidate_loop]. rewrite Hn. cbn [negb].
      fold (with_thumbnail link (link_id next_link)).
      replace (pre ++ with_thumbnail link (link_id next_link) :: rest')%list
        with ((pre ++ [with_thumbnail link (link_id next_link)]) ++ rest')%list
        by (by rewrite <- app_assoc).
      rewrite IH; [by rewrite <- app_assoc|simpl in Hlen; lia|].
      rewrite <- app_assoc. cbn [app].
      rewrite fmap_app in *. cbn [fmap list_fmap with_thumbnail link_id].
      apply list.NoDup_app in Hnd' as (_ & Hdisj & Hrest).
      apply list.NoDup_app. split; [done|]. split.
      * intros x Hx [->|Hx']%elem_of_cons; [done|]. by apply (Hdisj x).
      * by apply NoDup_cons.
    + (* no pair *)
      destruct (negb (is_thumbnail link || is_image link)); exact Hstep.
Qed.

Lemma image_not_thumbnail (link : LinkData) :
  is_image link = true -> is_thumbnail link = false.
Proof.
  unfold is_image, is_thumbnail. intros ->%String.eqb_eq. reflexivity.
Qed.

Lemma paired_two (link next_link : LinkData) (rest : list LinkData) :
  paired (link :: next_link :: rest) =
  if is_thumbnail link && is_image next_link
  then with_thumbnail next_link (link_id link) :: paired rest
  else if is_image link && is_thumbnail next_link
  then with_thumbnail link (link_id next_link) :: paired rest
  else link :: paired (next_link :: rest).
Proof. reflexivity. Qed.

Definition kept (link : LinkData) : bool := negb (is_thumbnail link).

Definition key (link : LinkData) : nat * string := (link_id link, rel link).

Lemma paired_keeps (links : list LinkData) :
  (key <$> List.filter kept (paired links) = key <$> List.filter kept links)
  /\ forall link,
       key <$> List.filter kept (paired (link :: links))
       = key <$> List.filter kept (link :: links).
Proof.
  induction links as [|next_link rest [IH0 IH1]].
  - split; [done|]. intros link. done.
  - split; [apply IH1|]. intros link. rewrite paired_two.
    destruct (is_thumbnail link && is_image next_link) eqn:Hti.
    + apply andb_true_iff in Hti as [Ht Hi].
      pose proof (image_not_thumbnail _ Hi) as Hn.
      assert (Hk1 : kept link = false) by (unfold kept; by rewrite Ht).
      assert (Hk2 : kept next_link = true) by (unfold kept; by rewrite Hn).
      assert (Hk3 : kept (with_thumbnail next_link (link_id link)) = true)
        by exact Hk2.
      cbn [List.filter]. rewrite Hk1, Hk2, Hk3.
      cbn [fmap list_fmap]. by rewrite IH0.
    + destruct (is_image link && is_thumbnail next_link) eqn:Hit.
      * apply andb_true_iff in Hit as [Hi Ht].
        pose proof (image_not_thumbnail _ Hi) as Hn.
        assert (Hk1 : kept link = true) by (unfold kept; by rewrite Hn).
        assert (Hk2 : kept next_link = false) by (unfold kept; by rewrite Ht).
        assert (Hk3 : kept (with_thumbnail link (link_id next_link)) = true)
          by exact Hk1.
        cbn [List.filter]. rewrite Hk1, Hk2, Hk3.
        cbn [fmap list_fmap]. by rewrite IH0.
      * specialize (IH1 next_link).
        assert (Hc : forall x l,
                  List.filter kept (x :: l)
                  = if kept x then x :: List.filter kept l
                    else List.filter kept l) by reflexivity.
        rewrite !(Hc link).
        destruct (kept link); cbn [fmap list_fmap]; by rewrite IH1.
Qed.

(** What the pairing does to the links [links]: it drops no link that
    it does not hang on an image that stays. *)
Definition pairing_sound (links : list LinkData) : Prop :=
  Forall (fun link => thumbnail link = None) links ->
  NoDup (link_id <$> links) ->
  (forall x, x ∈ (link_id <$> paired links) -> x ∈ (link_id <$> links)) /\
  (forall link t, link ∈ paired links -> thumbnail link = Some t ->
     is_image link = true /\ t ∈ (link_id <$> links) /\
     t ∉ (link_id <$> paired links)) /\
  (forall t, t ∈ (link_id <$> links) -> t ∉ (link_id <$> paired links) ->
     exists link, link ∈ paired links /\ thumbnail link = Some t /\
                  is_image link = true).

Lemma pairing_sound_pair (link next_link : LinkData) (rest : list LinkData)
    (image_link : LinkData) (dropped : nat) :
  pairing_sound rest ->
  (image_link = next_link /\ dropped = link_id link \/
   image_link = link /\ dropped = link_id next_link) ->
  is_image image_link = true ->
  Forall (fun link => thumbnail link = None) (link :: next_link :: rest) ->
  NoDup (link_id <$> link :: next_link :: rest) ->
  let out := with_thumbnail image_link dropped :: paired rest in
  (forall x, x ∈ (link_id <$> out) ->
             x ∈ (link_id <$> link :: next_link :: rest)) /\
  (forall l t, l ∈ out -> thumbnail l = Some t ->
     is_image l = true /\ t ∈ (link_id <$> link :: next_link :: rest) /\
     t ∉ (link_id <$> out)) /\
  (forall t, t ∈ (link_id <$> link :: next_link :: rest) ->
     t ∉ (link_id <$> out) ->
     exists l, l ∈ out /\ thumbnail l = Some t /\ is_image l = true).
Proof.
  intros Hrest Hwhich Himage Hnone Hnd out.
  apply Forall_cons in Hnone as [_ Hnone].
  apply Forall_cons in Hnone as [_ Hnone].
  cbn [fmap list_fmap] in Hnd.
  apply NoDup_cons in Hnd as [Hl Hnd]. apply NoDup_cons in Hnd as [Hn Hnd].
  apply not_elem_of_cons in Hl as [Hln Hl].
  destruct (Hrest Hnone Hnd) as (Hsub & Hthumb & Hdrop).
  assert (Hother : link_id image_link <> dropped /\
                   (link_id image_link ∉ (link_id <$> rest)) /\
                   (dropped ∉ (link_id <$> rest)) /\
                   (link_id image_link = link_id link
                    \/ link_id image_link = link_id next_link) /\
                   (dropped = link_id link \/ dropped = link_id next_link)).
  { destruct Hwhich as [[-> ->]|[-> ->]]; repeat split; auto. }
  destruct Hother as (Hne & Hir & Hdr & Hiw & Hdw).
  unfold out. cbn [fmap list_fmap with_thumbnail link_id].
  split; [|split].
  - intros x [->|Hx]%elem_of_cons.
    + destruct Hiw as [-> | ->]; [by left|right; by left].
    + right. right. by apply Hsub.
  - intros l t [->|Hl']%elem_of_cons.
    + cbn [thumbnail with_thumbnail]. intros [= <-].
      split; [exact Himage|]. split.
      * destruct Hdw as [-> | ->]; [by left|right; by left].
      * intros [?|Hin]%elem_of_cons; [congruence|].
        apply Hdr. by apply Hsub.
    + intros Ht. destruct (Hthumb l t Hl' Ht) as (Hi & Hin & Hout).
      split; [done|]. split; [right; by right|].
      intros [->|Hin']%elem_of_cons; [done|done].
  - intros t Ht Hout. apply not_elem_of_cons in Hout as [Hti Hout].
    destruct (decide (t = dropped)) as [->|Htd].
    + exists (with_thumbnail image_link dropped).
      split; [by left|]. by split.
    + assert (Hin : t ∈ (link_id <$> rest)).
      { apply elem_of_cons in Ht as [->|Ht].
        - destruct Hiw as [E|E], Hdw as [E'|E']; congruence.
        - apply elem_of_cons in Ht as [->|Ht]; [|done].
          destruct Hiw as [E|E], Hdw as [E'|E']; congruence. }
      destruct (Hdrop t Hin Hout) as (l & Hl' & Hlt & Hli).
      exists l. split; [by right|done].
Qed.

Lemma paired_sound (links : list LinkData) :
  pairing_sound links /\ forall link, pairing_sound (link :: links).
Proof.
  induction links as [|next_link rest [IH0 IH1]].
  - split.
    + intros _ _. split; [done|]. split; [by intros ? ? ?%elem_of_nil|].
      by intros t ?%elem_of_nil.
    + intros link Hnone _. cbn [paired]. split; [done|]. split.
      * intros l t ->%list_elem_of_singleton Ht.
        apply Forall_cons in Hnone as [Hn _]. congruence.
      * intros t Ht Hnot. done.
  - split; [apply IH1|]. intros link Hnone Hnd. rewrite paired_two.
    destruct (is_thumbnail link && is_image next_link) eqn:Hti.
    { apply andb_true_iff in Hti as [_ Hi].
      apply (pairing_sound_pair link next_link rest next_link (link_id link));
        auto. }
    destruct (is_image link && is_thumbnail next_link) eqn:Hit.
    { apply andb_true_iff in Hit as [Hi _].
      apply (pairing_sound_pair link next_link rest link (link_id next_link));
        auto. }
    apply Forall_cons in Hnone as [Hl Hnone].
    cbn [fmap list_fmap] in Hnd. apply NoDup_cons in Hnd as [Hfresh Hnd].
    destruct (IH1 next_link Hnone Hnd) as (Hsub & Hthumb & Hdrop).
    cbn [fmap list_fmap]. split; [|split].
    + intros x [->|Hx]%elem_of_cons; [by left|]. right. by apply Hsub.
    + intros l t [->|Hl']%elem_of_cons Ht; [congruence|].
      destruct (Hthumb l t Hl' Ht) as (Hi & Hin & Hout).
      split; [done|]. split; [by right|].
      intros [->|Hin']%elem_of_cons; [done|done].
    + intros t Ht Hout. apply not_elem_of_cons in Hout as [Hne Hout].
      apply elem_of_cons in Ht as [->|Ht]; [done|].
      destruct (Hdrop t Ht Hout) as (l & Hl' & Hlt & Hli).
      exists l. split; [by right|done].
Qed.

(** On links that are distinct objects [consolidate_links] returns
    normally, and it keeps every link that is not a thumbnail, in the
    order of the feed, with its relation. *)
Theorem consolidate_links_keeps (links : list (option LinkData)) :
  NoDup (link_id <$> omap id links) ->
  exists new_links,
    consolidate_links links = inr new_links /\
    key <$> List.filter kept new_links
    = key <$> List.filter kept (omap id links).
Proof.
  intros Hnd. unfold consolidate_links.
  pose proof (consolidate_loop_paired (List.length (omap id links))
                (omap id links) [] ltac:(done) Hnd) as Hloop.
  cbn [app] in Hloop. rewrite Hloop.
  eexists. split; [reflexivity|]. apply paired_keeps.
Qed.

(** On links that are distinct objects without thumbnails of their
    own, the links that [consolidate_links] drops are exactly those
    that it has made the thumbnail of an image that it keeps. *)
Theorem consolidate_links_drops (links : list (option LinkData)) :
  NoDup (link_id <$> omap id links) ->
  Forall (fun link => thumbnail link = None) (omap id links) ->
  exists new_links,
    consolidate_links links = inr new_links /\
    forall t,
      (t ∈ (link_id <$> omap id links) /\ t ∉ (link_id <$> new_links)) <->
      exists link, link ∈ new_links /\ thumbnail link = Some t /\
                   is_image link = true.
Proof.
  intros Hnd Hnone. unfold consolidate_links.
  pose proof (consolidate_loop_paired (List.length (omap id links))
                (omap id links) [] ltac:(done) Hnd) as Hloop.
  cbn [app] in Hloop. rewrite Hloop.
  eexists. split; [reflexivity|].
  destruct (paired_sound (omap id links)) as [Hsound _].
  destruct (Hsound Hnone Hnd) as (Hsub & Hthumb & Hdrop).
  intros t. split.
  - intros [Hin Hout]. by apply Hdrop.
  - intros (link & Hl & Ht & _).
    destruct (Hthumb link t Hl Ht) as (_ & Hin & Hout). done.
Qed.

Definition feed_links : list (option LinkData) :=
  [ Some {| link_id := 1; rel := "alternate"; thumbnail := None |};
    Some {| link_id := 2; rel := THUMBNAIL_IMAGE; thumbnail := None |};
    Some {| link_id := 3; rel := IMAGE; thumbnail := None |};
    None;
    Some {| link_id := 4; rel := IMAGE; thumbnail := None |};
    Some {| link_id := 5; rel := THUMBNAIL_IMAGE; thumbnail := None |};
    Some {| link_id := 6; rel := THUMBNAIL_IMAGE; thumbnail := None |} ].

Lemma consolidate_links_keeps_witness :
  exists new_links,
    consolidate_links feed_links = inr new_links /\
    key <$> List.filter kept new_links
    = key <$> List.filter kept (omap id feed_links).
Proof.
  apply (consolidate_links_keeps feed_links). compute_done.
Defined.

Lemma consolidate_links_drops_witness :
  exists new_links,
    consolidate_links feed_links = inr new_links /\
    forall t,
      (t ∈ (link_id <$> omap id feed_links)
       /\ t ∉ (link_id <$> new_links)) <->
      exists link, link ∈ new_links /\ thumbnail link = Some t /\
                   is_image link = true.
Proof.
  apply (consolidate_links_drops feed_links); [compute_done|].
  repeat apply List.Forall_cons; try apply List.Forall_nil; reflexivity.
Defined.

(** *** [OPDSImporter.combine] *)

Definition is_list (v : value) : Prop := exists l, v = VList l.

(** What [combine] leaves under a key, from what the two dictionaries
    hold under it. *)
Definition merged (v1 v2 : option value) : option value :=
  match v1, v2 with
  | None, _ => v2
  | Some _, None => v1
  | Some (VList l0), Some (VList l) => Some (VList (l0 ++ l))
  | Some _, Some VNone => v1
  | Some _, Some _ => v2
  end.

(** What the call leaves under a key of its first argument. *)
Definition shared (v1 v2 : option value) : option value :=
  match v1, v2 with
  | Some (VList l0), Some (VList l) => Some (VList (l0 ++ l))
  | _, _ => v1
  end.

(** A key under which [d2] holds a list and [d1] something that is
    not a list. *)
Definition clash (m1 m2 : dict) : Prop :=
  exists k l old, m2 !! k = Some (VList l) /\ m1 !! k = Some old /\
                  ~ is_list old.

Lemma fold_combine_step_inl (items : list (string * value)) (e : error) :
  fold_left combine_step items (inl e) = inl e.
Proof. induction items as [|[k v] items IH]; [done|]. exact IH. Qed.

Lemma fold_combine_step (m1 : dict) (items : list (string * value)) :
  NoDup (fst <$> items) ->
  forall new_dict d1 : dict,
  (forall k, k ∈ (fst <$> items) ->
     new_dict !! k = m1 !! k /\ d1 !! k = m1 !! k) ->
  match fold_left combine_step items (inr (new_dict, d1)) with
  | inr (new_dict', d1') =>
      (forall k v, (k, v) ∈ items ->
         new_dict' !! k = merged (m1 !! k) (Some v) /\
         d1' !! k = shared (m1 !! k) (Some v) /\
         (forall l old, v = VList l -> m1 !! k = Some old -> is_list old)) /\
      (forall k, k ∉ (fst <$> items) ->
         new_dict' !! k = new_dict !! k /\ d1' !! k = d1 !! k)
  | inl e =>
      e = AttributeError /\
      exists k l old, (k, VList l) ∈ items /\ m1 !! k = Some old /\
                      ~ is_list old
  end.
Proof.
  induction items as [|[k v] items IH]; intros Hnd new_dict d1 Hsame.
  { cbn [fold_left]. split; [by intros k v ?%elem_of_nil|done]. }
  cbn [fmap list_fmap fst] in Hnd. apply NoDup_cons in Hnd as [Hk Hnd].
  destruct (Hsame k) as [Hn1 Hd1]; [by left|].
  assert (Hrest : forall new_dict' d1' : dict,
            (forall k', k' <> k -> new_dict' !! k' = new_dict !! k' /\
                                   d1' !! k' = d1 !! k') ->
            forall k', k' ∈ (fst <$> items) ->
              new_dict' !! k' = m1 !! k' /\ d1' !! k' = m1 !! k').
  { intros nd' dc' Hother k' Hk'.
    assert (k' <> k) by (intros ->; done).
    destruct (Hother k') as [-> ->]; [done|]. apply Hsame. by right. }
  assert (Hgoal : forall (new_dict' d1' : dict),
            (forall k', k' <> k -> new_dict' !! k' = new_dict !! k' /\
                                   d1' !! k' = d1 !! k') ->
            new_dict' !! k = merged (m1 !! k) (Some v) ->
            d1' !! k = shared (m1 !! k) (Some v) ->
            (forall l old, v = VList l -> m1 !! k = Some old -> is_list old) ->
            match fold_left combine_step items (inr (new_dict', d1')) with
            | inr (new_dict'', d1'') =>
                (forall k0 v0, (k0, v0) ∈ (k, v) :: items ->
                   new_dict'' !! k0 = merged (m1 !! k0) (Some v0) /\
                   d1'' !! k0 = shared (m1 !! k0) (Some v0) /\
                   (forall l old, v0 = VList l -> m1 !! k0 = Some old ->
                                  is_list old)) /\
                (forall k0, k0 ∉ k :: (fst <$> items) ->
                   new_dict'' !! k0 = new_dict !! k0 /\
                   d1'' !! k0 = d1 !! k0)
            | inl e =>
                e = AttributeError /\
                exists k0 l old, (k0, VList l) ∈ (k, v) :: items /\
                                 m1 !! k0 = Some old /\ ~ is_list old
            end).
  { intros nd' dc' Hother Hnk Hdk Hok.
    specialize (IH Hnd nd' dc' (Hrest nd' dc' Hother)).
    destruct (fold_left combine_step items (inr (nd', dc')))
      as [e|[nd'' dc'']].
    - destruct IH as (-> & k0 & l & old & Hin & Hm & Hno).
      split; [done|]. exists k0, l, old. split; [by right|done].
    - destruct IH as [Hitems Hothers]. split.
      + intros k0 v0 [[= -> ->]|Hin]%elem_of_cons.
        * destruct (Hothers k Hk) as [-> ->]. done.
        * by apply Hitems.
      + intros k0 Hk0. apply not_elem_of_cons in Hk0 as [Hne Hk0].
        destruct (Hothers k0 Hk0) as [-> ->]. by apply Hother. }
  cbn [fold_left combine_step]. rewrite Hn1.
  destruct (m1 !! k) as [old|] eqn:Hm1.
  - destruct v as [|l|x].
    + apply Hgoal; [done|by rewrite Hn1; destruct old|
                    by rewrite Hd1; destruct old|done].
    + destruct old as [|l0|x0].
      * rewrite fold_combine_step_inl. split; [done|].
        exists k, l, VNone. split; [by left|]. split; [done|].
        by intros [? ?].
      * apply Hgoal.
        -- intros k' Hne. by rewrite !lookup_insert_ne.
        -- by rewrite lookup_insert_eq.
        -- by rewrite lookup_insert_eq.
        -- intros l' old' _ [= <-]. by exists l0.
      * rewrite fold_combine_step_inl. split; [done|].
        exists k, l, (VOther x0). split; [by left|]. split; [done|].
        by intros [? ?].
    + apply Hgoal.
      * intros k' Hne. by rewrite lookup_insert_ne.
      * rewrite lookup_insert_eq. by destruct old.
      * rewrite Hd1. by destruct old.
      * done.
  - replace (match v with
             | VNone | _ => inr (<[k:=v]> new_dict, d1)
             end) with (inr (<[k:=v]> new_dict, d1) : error + (dict * dict))
      by (by destruct v).
    apply Hgoal.
    + intros k' Hne. by rewrite lookup_insert_ne.
    + by rewrite lookup_insert_eq.
    + by rewrite Hd1.
    + done.
Qed.

(** [combine] raises, with [AttributeError], exactly when both
    dictionaries have entries and some key holds a list in [d2] and
    something else in [d1].  Otherwise the dictionary it returns has,
    under every key, what [d1] has unless [d2] has something other
    than [None] there, lists joined; and a list of [d1] that was
    joined is longer in [d1] itself afterwards. *)
Theorem combine_lookup (d1 d2 : option dict) :
  let m1 := default ∅ d1 in
  let m2 := default ∅ d2 in
  match combine d1 d2 with
  | inr (new_dict, d1') =>
      ~ clash m1 m2 /\
      forall k,
        new_dict !! k = merged (m1 !! k) (m2 !! k) /\
        default ∅ d1' !! k = shared (m1 !! k) (m2 !! k)
  | inl e => e = AttributeError /\ clash m1 m2
  end.
Proof.
  intros m1 m2. unfold combine.
  assert (Hfalsy : forall d, falsy d = true -> default ∅ d = ∅).
  { intros [m|]; [|done]. simpl. by intros ->%bool_decide_eq_true_1. }
  destruct (falsy d1) eqn:H1; cbn [andb].
  { assert (Hm1 : m1 = ∅) by by apply Hfalsy.
    assert (Hno : ~ clash m1 m2).
    { intros (k & l & old & _ & Hk & _). rewrite Hm1 in Hk.
      by rewrite lookup_empty in Hk. }
    destruct (falsy d2) eqn:H2.
    - assert (Hm2 : m2 = ∅) by by apply Hfalsy.
      split; [done|]. intros k. fold m1. rewrite Hm1, Hm2.
      by rewrite !lookup_empty.
    - split; [done|]. intros k. fold m1 m2. rewrite Hm1.
      by rewrite !lookup_empty. }
  destruct (falsy d2) eqn:H2.
  { assert (Hm2 : m2 = ∅) by by apply Hfalsy.
    split.
    - intros (k & l & old & Hk & _). rewrite Hm2 in Hk.
      by rewrite lookup_empty in Hk.
    - intros k. fold m1. rewrite Hm2, lookup_empty.
      by destruct (m1 !! k) as [[]|]. }
  fold m1 m2.
  pose proof (fold_combine_step m1 (map_to_list m2)
                (NoDup_fst_map_to_list m2) m1 m1 ltac:(done)) as Hfold.
  destruct (fold_left combine_step (map_to_list m2) (inr (m1, m1)))
    as [e|[new_dict d1']].
  - destruct Hfold as (-> & k & l & old & Hin & Hm & Hno).
    split; [done|]. exists k, l, old.
    by apply elem_of_map_to_list in Hin.
  - destruct Hfold as [Hitems Hothers]. split.
    + intros (k & l & old & Hk & Hm & Hno).
      apply elem_of_map_to_list in Hk.
      destruct (Hitems k _ Hk) as (_ & _ & Hok). by apply Hno, (Hok l old).
    + intros k. cbn [default from_option]. unfold id.
      destruct (m2 !! k) as [v|] eqn:Hk.
      * apply elem_of_map_to_list in Hk.
        destruct (Hitems k v Hk) as (? & ? & _). done.
      * destruct (Hothers k) as [-> ->].
        { intros ((k' & v) & Heq & Hin)%list_elem_of_fmap.
          simpl in Heq. subst k'. apply elem_of_map_to_list in Hin.
          congruence. }
        by destruct (m1 !! k) as [[]|].
Qed.

End OPDSImporterFacts.

(** ** Target ages *)

Module NumericRangeFacts.
Import NumericRange.

(** The integers that a range holds. *)
Definition contains (r : t) (x : Z) : Prop :=
  match lower r with
  | Some l => if lower_inc r then (l <= x)%Z else (l < x)%Z
  | None => True
  end /\
  match upper r with
  | Some u => if upper_inc r then (x <= u)%Z else (x < u)%Z
  | None => True
  end.

(** The integers between the two entries of a tuple, ends included. *)
Definition between (bounds : option Z * option Z) (x : Z) : Prop :=
  match fst bounds with
  | Some l => (l <= x)%Z
  | None => True
  end /\
  match snd bounds with
  | Some u => (x <= u)%Z
  | None => True
  end.

(** The upper entry of the tuple is the greatest member of the range,
    unless the range ends, exclusively, at 0; the lower entry is the
    least member only for a range that includes its lower bound: an
    exclusive lower bound other than 0 is moved down, away from the
    members. *)
Theorem numericrange_to_tuple_bounds (r : t) :
  (upper r = Some 0%Z -> upper_inc r = true) ->
  (lower r = None \/ lower_inc r = true ->
   forall x, contains r x <-> between (numericrange_to_tuple (Some r)) x) /\
  (forall l, lower r = Some l -> l <> 0%Z -> lower_inc r = false ->
   fst (numericrange_to_tuple (Some r)) = Some (l - 1)%Z /\
   ~ contains r l /\ between (Some (l - 1)%Z, None) l).
Proof.
  intros Hzero. split.
  - intros Hlower x. unfold contains, between, numericrange_to_tuple.
    cbn [fst snd].
    assert (Hl : (if truthy (lower r) && negb (lower_inc r)
                  then (fun b => b - 1)%Z <$> lower r else lower r)
                 = lower r /\
                 match lower r with
                 | Some l => lower_inc r = true
                 | None => True
                 end).
    { destruct Hlower as [->|Hinc]; [done|]. rewrite Hinc.
      rewrite andb_false_r. by destruct (lower r). }
    destruct Hl as [-> Hl].
    assert (Hleft : match lower r with
                    | Some l => if lower_inc r then (l <= x)%Z else (l < x)%Z
                    | None => True
                    end <->
                    match lower r with
                    | Some l => (l <= x)%Z
                    | None => True
                    end).
    { destruct (lower r); [|done]. by rewrite Hl. }
    rewrite Hleft. clear Hleft Hl Hlower.
    destruct (upper r) as [u|] eqn:Hu; cbn [truthy fmap option_fmap option_map];
      [|done].
    destruct (upper_inc r) eqn:Hinc.
    + by rewrite andb_false_r.
    + destruct (Z.eqb_spec u 0) as [->|Hne].
      * specialize (Hzero eq_refl). congruence.
      * cbn [negb andb]. split; intros [? ?]; split; auto; lia.
  - intros l Hl Hne Hinc. unfold numericrange_to_tuple, contains, between.
    cbn [fst snd]. rewrite Hl, Hinc. cbn [truthy negb].
    destruct (Z.eqb_spec l 0) as [|_]; [done|]. cbn [negb andb].
    split; [done|]. split; [|split; [lia|done]].
    intros [? _]. lia.
Qed.

Definition young_adult : t :=
  {| lower := Some 14%Z;
     upper := Some 18%Z;
     lower_inc := true;
     upper_inc := false |}.

Lemma numericrange_to_tuple_bounds_witness :
  contains young_adult 17 <->
  between (numericrange_to_tuple (Some young_adult)) 17.
Proof.
  destruct (numericrange_to_tuple_bounds young_adult) as [H _];
    [discriminate|].
  apply H. by right.
Defined.

End NumericRangeFacts.

(** ** Coverage records *)

Module WorkCoverageRecordsFacts.
Import WorkCoverageRecords.

Lemma get_one_found (work : nat) (op : string) (l : list t) (i : nat) :
  get_one work op l = Some i ->
  exists r, l !! i = Some r /\ filter_by work op r = true.
Proof.
  revert i. induction l as [|r l IH]; intros i; cbn [get_one]; [done|].
  destruct (filter_by work op r) eqn:Hr.
  - intros [= <-]. by exists r.
  - destruct (get_one work op l) as [j|]; [|done].
    intros [= <-]. by apply IH.
Qed.

Lemma get_one_alter (work : nat) (op : string) (f : t -> t) (l : list t)
    (i : nat) :
  (forall r, filter_by work op (f r) = filter_by work op r) ->
  get_one work op (alter f i l) = get_one work op l.
Proof.
  intros Hf. revert i.
  induction l as [|r l IH]; intros [|i]; cbn [alter list_alter get_one];
    rewrite ?Hf, ?IH; done.
Qed.

Lemma get_one_created (work : nat) (op : string) (l : list t) :
  get_one work op l = None ->
  get_one work op (l ++ [new work op]) = Some (List.length l).
Proof.
  induction l as [|r l IH]; cbn [get_one app List.length].
  - unfold filter_by, new. cbn. by rewrite Nat.eqb_refl, String.eqb_refl.
  - destruct (filter_by work op r); [done|].
    destruct (get_one work op l); [done|]. intros _. by rewrite IH.
Qed.

(** [add_for] stamps the record of the operation for the Work with the
    timestamp passed, or with the reading of the clock when none is
    passed, in which case only it reads the clock, and sets its status
    to the status passed.  The record is created exactly when the
    table has none for the Work and the operation, and is then the
    only row added; a record found keeps what it holds of an
    exception.  Every other row is as it was. *)
Theorem add_for_stamps (work : nat) (op : string) (given : option nat)
    (outcome : string) (d : db) :
  exists coverage_record is_new d' r,
    add_for work op given outcome d = (coverage_record, is_new, d') /\
    get_one work op (rows d') = Some coverage_record /\
    rows d' !! coverage_record = Some r /\
    work_id r = work /\ operation r = op /\
    timestamp r = Some (default (clock d) given) /\
    status r = Some outcome /\
    clock d' = match given with
               | Some _ => clock d
               | None => S (clock d)
               end /\
    match get_one work op (rows d) with
    | Some one =>
        is_new = false /\ coverage_record = one /\
        List.length (rows d') = List.length (rows d) /\
        exception r = (rows d !! one) ≫= exception
    | None =>
        is_new = true /\ coverage_record = List.length (rows d) /\
        List.length (rows d') = S (List.length (rows d)) /\
        exception r = None
    end /\
    (forall other, other <> coverage_record ->
       (other < List.length (rows d))%nat ->
       rows d' !! other = rows d !! other).
Proof.
  assert (Hstamp : forall ts r,
            filter_by work op (stamp ts outcome r) = filter_by work op r)
    by done.
  unfold add_for.
  set (ts := default (clock d) given).
  set (d0 := match given with Some _ => d | None => snd (utcnow d) end).
  assert (Hd0 : match given with
                | Some timestamp => (timestamp, d)
                | None => utcnow d
                end = (ts, d0)) by (by destruct given).
  rewrite Hd0.
  assert (Hrows : rows d0 = rows d) by (by destruct given).
  assert (Hclock : clock d0 = match given with
                              | Some _ => clock d
                              | None => S (clock d)
                              end)
    by (by destruct given).
  unfold get_one_or_create. rewrite Hrows.
  destruct (get_one work op (rows d)) as [one|] eqn:Hone.
  - destruct (get_one_found _ _ _ _ Hone) as (r & Hr & Hmatch).
    exists one, false, (with_rows (alter (stamp ts outcome) one (rows d0)) d0),
           (stamp ts outcome r).
    cbn [rows with_rows clock]. rewrite Hrows.
    split; [done|]. split; [by rewrite get_one_alter|].
    split.
    { rewrite list_lookup_alter. destruct (decide (one = one)); [|done].
      by rewrite Hr. }
    unfold filter_by in Hmatch. apply andb_true_iff in Hmatch as [Hw Ho].
    apply Nat.eqb_eq in Hw. apply String.eqb_eq in Ho.
    cbn [stamp work_id operation timestamp status exception].
    split; [done|]. split; [done|]. split; [done|]. split; [done|].
    split; [done|]. split.
    + split; [done|]. split; [done|]. split; [by rewrite length_alter|].
      by rewrite Hr.
    + intros other Hne _. rewrite list_lookup_alter.
      by destruct (decide (one = other)).
  - set (l := rows d) in *.
    exists (List.length l), true,
           (with_rows (alter (stamp ts outcome) (List.length l)
                         (l ++ [new work op])%list) d0),
           (stamp ts outcome (new work op)).
    cbn [rows with_rows clock].
    split; [done|].
    split; [rewrite get_one_alter by done; by apply get_one_created|].
    split.
    { rewrite list_lookup_alter.
      destruct (decide (List.length l = List.length l)); [|done].
      by rewrite lookup_app_r, Nat.sub_diag by done. }
    cbn [stamp new work_id operation timestamp status exception].
    split; [done|]. split; [done|]. split; [done|]. split; [done|].
    split; [done|]. split.
    + split; [done|]. split; [done|]. split; [|done].
      rewrite length_alter, length_app. simpl. lia.
    + intros other Hne Hlt. rewrite list_lookup_alter.
      destruct (decide (List.length l = other)); [done|].
      by rewrite lookup_app_l.
Qed.

(** A Work whose choice of edition was recorded as a failure. *)
Definition one_record : db :=
  {| rows := [ {| work_id := 7;
                  operation := "choose-edition";
                  timestamp := Some 3%nat;
                  status := Some "transient failure";
                  exception := Some "timeout" |} ];
     clock := 10 |}.

Lemma add_for_passed_timestamp :
  add_for 7 "choose-edition" (Some 5%nat) SUCCESS one_record
  = (0%nat, false,
     {| rows := [ {| work_id := 7;
                     operation := "choose-edition";
                     timestamp := Some 5%nat;
                     status := Some SUCCESS;
                     exception := Some "timeout" |} ];
        clock := 10 |}) /\
  add_for 7 "classify" None SUCCESS one_record
  = (1%nat, true,
     {| rows := rows one_record
                ++ [ {| work_id := 7;
                        operation := "classify";
                        timestamp := Some 10%nat;
                        status := Some SUCCESS;
                        exception := None |} ];
        clock := 11 |}).
Proof. by split. Qed.

End WorkCoverageRecordsFacts.
